(** * quantum-machine-catalog: signal model, renderer and animation drivers

    A shallow embedding of the numeric core of the repository:

    - [dual_universe_branch_visual_canvas.jsx]: the pre-split base curve,
      the two post-split branch curves, the pen-lifting polyline routine,
      the per-frame HiDPI transform set-up of [render] and the animation
      effect;
    - [app.js]: the oscilloscope state, its button handlers and the
      [requestAnimationFrame] loop of [drawFrame];
    - the storage helpers [save], [loadNum] and [loadStr] of the
      field-signal component.

    Part III goes on to the grid and the sliders of the canvas component, the
    duet chat of [app.js], and the tone, the oscilloscope and the scope loop
    of the field-signal component.

    JavaScript numbers are IEEE-754 binary64 values, so they are embedded as
    Rocq's primitive [float]s: [+], [-], [*], [/] and the comparisons are the
    very operations the engine performs, rounding, overflow, signed zeros and
    NaN included.  [Math.sin] and [Math.cos] are only
    "implementation-approximated" by ECMAScript, hence they are parameters of
    the development. *)

From Stdlib Require Import ZArith Bool List String Floats Lia.
Import ListNotations.

Set Warnings "-inexact-float".

#[local] Open Scope float_scope.

(** * Part I: the embedding *)

(** ** The host: numbers and [Math] *)

Module JS.

(** [Math.PI], the binary64 value nearest to pi. *)
Definition Math_PI : float := 0x1.921fb54442d18p+1.

(** [Number.NaN]. *)
Definition NaN : float := nan.

(** The largest finite number, [Number.MAX_VALUE]. *)
Definition Number_MAX_VALUE : float := 0x1.fffffffffffffp+1023.

(** [Number.isFinite] on a number. *)
Definition Number_isFinite (x : float) : bool := is_finite x.

(** [ToBoolean] on a number: [0], [-0] and [NaN] are falsy. *)
Definition truthy (x : float) : bool := negb (is_zero x || is_nan x).

(** [Math.max] of two numbers: NaN is contagious and [+0] is larger
    than [-0]. *)
Definition Math_max (a b : float) : float :=
  if is_nan a || is_nan b then nan
  else if a <? b then b
  else if b <? a then a
  else if get_sign a then b else a.

(** [Math.min] of two numbers: NaN is contagious and [-0] is smaller
    than [+0]. *)
Definition Math_min (a b : float) : float :=
  if is_nan a || is_nan b then nan
  else if a <? b then a
  else if b <? a then b
  else if get_sign a then a else b.

(** [a !== b] on numbers. *)
Definition strict_neq (a b : float) : bool := negb (a =? b).

(** [v] is [c] or one of its two neighbours: what an engine whose sine errs
    by less than one unit in the last place may return where the correctly
    rounded sine is [c]. *)
Definition within_one_ulp (v c : float) : Prop :=
  v = c \/ v = next_up c \/ v = next_down c.

(** A polynomial sine, standing in for the engine's [Math.sin] when the model
    is run on concrete inputs.  It follows the cases ECMAScript fixes: NaN on
    NaN and the infinities, the argument itself on the zeros; where the
    polynomial overflows it answers 0. *)
Definition sin_poly (x : float) : float :=
  if negb (is_finite x) then nan
  else if is_zero x then x
  else
    let x2 := x * x in
    let y := x * (1 - x2 / 6 * (1 - x2 / 20 * (1 - x2 / 42))) in
    if is_finite y then y else 0.

(** The same with the correctly rounded sines at the three arguments the
    default parameters of the canvas component lead to at time 0, as the
    engines' [Math.sin] returns them. *)
Definition sin_tabulated (x : float) : float :=
  if x =? 2.8902652413026093 then 0.24868988716485524
  else if x =? 0.4 then 0.3894183423086505
  else if x =? -0.2 then -0.19866933079506122
  else sin_poly x.

(** A whole number as a number. *)
Definition whole (k : nat) : float := of_uint63 (Uint63.of_Z (Z.of_nat k)).

(** [Math.round(x)] for [0 <= x <= bound]: the whole number [n] with
    [n - 0.5 <= x < n + 0.5]. *)
Definition Math_round (bound : nat) (x : float) : nat :=
  match find (fun n => x <? whole n + 0.5) (seq 0 (S bound)) with
  | Some n => n
  | None => bound
  end.

End JS.

(** ** The dual-universe canvas component *)

Module DualUniverse.
Import JS.

Section Component.

(** The engine's sine and floor, and WebIDL's conversion of a number to the
    [unsigned long] that [canvas.width] and [canvas.height] hold. *)
Variable Math_sin : float -> float.
Variable Math_floor : float -> float.
Variable unsigned_long : float -> float.

(** The model parameters held in React state. *)
Record params : Type := {
  xMax : float;
  splitX : float;
  baseAmp : float;
  baseFreq : float;
  basePhase : float;
  u1Slope : float;
  u1Amp : float;
  u1Freq : float;
  u1Phase : float;
  u2Slope : float;
  u2Amp : float;
  u2Freq : float;
  u2Phase : float;
  speed : float;
  trace : float
}.

(** The [useState] defaults. *)
Definition defaults : params := {|
  xMax := 10;
  splitX := 4;
  baseAmp := 1.0;
  baseFreq := 1.15;
  basePhase := 0.0;
  u1Slope := 0.35;
  u1Amp := 0.9;
  u1Freq := 0.95;
  u1Phase := 0.4;
  u2Slope := -0.3;
  u2Amp := 0.75;
  u2Freq := 1.22;
  u2Phase := -0.2;
  speed := 1.0;
  trace := 10
|}.

(** The defaults with the frequency and phase of the oscilloscope. *)
Definition scopeLike : params := {|
  xMax := 10;
  splitX := 4;
  baseAmp := 1.0;
  baseFreq := 1.2;
  basePhase := Math_PI / 3;
  u1Slope := 0.35;
  u1Amp := 0.9;
  u1Freq := 0.95;
  u1Phase := 0.4;
  u2Slope := -0.3;
  u2Amp := 0.75;
  u2Freq := 1.22;
  u2Phase := -0.2;
  speed := 1.0;
  trace := 10
|}.

(** The sliders at the end where the domain ends on the split point:
    [xMax = 6], [splitX = 6]. *)
Definition collapsed : params := {|
  xMax := 6;
  splitX := 6;
  baseAmp := 1.0;
  baseFreq := 1.15;
  basePhase := 0.0;
  u1Slope := 0.35;
  u1Amp := 0.9;
  u1Freq := 0.95;
  u1Phase := 0.4;
  u2Slope := -0.3;
  u2Amp := 0.75;
  u2Freq := 1.22;
  u2Phase := -0.2;
  speed := 1.0;
  trace := 10
|}.

(** The defaults with an empty domain: [xMax = 0], [splitX = 0]. *)
Definition emptyDomain : params := {|
  xMax := 0;
  splitX := 0;
  baseAmp := 1.0;
  baseFreq := 1.15;
  basePhase := 0.0;
  u1Slope := 0.35;
  u1Amp := 0.9;
  u1Freq := 0.95;
  u1Phase := 0.4;
  u2Slope := -0.3;
  u2Amp := 0.75;
  u2Freq := 1.22;
  u2Phase := -0.2;
  speed := 1.0;
  trace := 10
|}.

(** [mapFactory]: the drawing area in CSS pixels. *)
Record layout : Type := {
  left : float;
  right : float;
  top : float;
  bottom : float;
  width : float;
  height : float
}.

Definition mapFactory (cssW cssH padding : float) : layout :=
  let left := padding in
  let right := cssW - padding in
  let top := padding in
  let bottom := cssH - padding in
  {| left := left;
     right := right;
     top := top;
     bottom := bottom;
     width := Math_max 1 (right - left);
     height := Math_max 1 (bottom - top) |}.

Definition x2px (p : params) (m : layout) (x : float) : float :=
  left m + (x / xMax p) * width m.

Definition y2px (m : layout) (y : float) : float :=
  let yMax := 2.2 in
  top m + (1 - (y + yMax) / (2 * yMax)) * height m.

(** Base function (single universe) until the split. *)
Definition baseY (p : params) (x t : float) : float :=
  baseAmp p
  * Math_sin (2 * Math_PI * baseFreq p * (x / xMax p) + basePhase p + 0.6 * t).

Definition junctionY (p : params) (t : float) : float :=
  baseY p (splitX p) t.

(** The two post-split universes. *)
Definition u1Y (p : params) (x t : float) : float :=
  let dx := Math_max 0 (x - splitX p) in
  junctionY p t
  + u1Slope p * dx
  + u1Amp p
    * Math_sin (2 * Math_PI * u1Freq p
                  * (dx / Math_max 1e-6 (xMax p - splitX p))
                + u1Phase p + 0.7 * t).

Definition u2Y (p : params) (x t : float) : float :=
  let dx := Math_max 0 (x - splitX p) in
  junctionY p t
  + u2Slope p * dx
  + u2Amp p
    * Math_sin (2 * Math_PI * u2Freq p
                  * (dx / Math_max 1e-6 (xMax p - splitX p))
                + u2Phase p + 0.65 * t).

(** The denominator of the normalised phase term of both branches. *)
Definition phaseDenominator (p : params) : float :=
  Math_max 1e-6 (xMax p - splitX p).

(** The divisors of the two divisions a branch performs, in the order of
    evaluation: [splitX / xMax] for the junction value, then the normalised
    phase term. *)
Definition branchDivisors (p : params) : list float :=
  [xMax p; phaseDenominator p].

(** The results of the arithmetic operations [junctionY] performs, in the
    order of evaluation; the value it returns comes last. *)
Definition junctionSteps (p : params) (t : float) : list float :=
  let a0 := 2 * Math_PI in
  let a1 := a0 * baseFreq p in
  let a2 := splitX p / xMax p in
  let a3 := a1 * a2 in
  let a4 := a3 + basePhase p in
  let a5 := 0.6 * t in
  let a6 := a4 + a5 in
  [a0; a1; a2; a3; a4; a5; a6; baseAmp p * Math_sin a6].

(** The same for a branch with the given slope, amplitude, frequency, phase
    and drift: the steps of [junctionY], then its own. *)
Definition branchSteps (slope amp freq phase drift : float)
  (p : params) (x t : float) : list float :=
  let d := x - splitX p in
  let dx := Math_max 0 d in
  let s1 := slope * dx in
  let s2 := junctionY p t + s1 in
  let w := xMax p - splitX p in
  let q := dx / Math_max 1e-6 w in
  let a0 := 2 * Math_PI in
  let a1 := a0 * freq in
  let a2 := a1 * q in
  let a3 := a2 + phase in
  let a4 := drift * t in
  let a5 := a3 + a4 in
  let s3 := amp * Math_sin a5 in
  junctionSteps p t ++ [d; s1; s2; w; q; a0; a1; a2; a3; a4; a5; s3; s2 + s3].

Definition u1Steps (p : params) (x t : float) : list float :=
  branchSteps (u1Slope p) (u1Amp p) (u1Freq p) (u1Phase p) 0.7 p x t.

Definition u2Steps (p : params) (x t : float) : list float :=
  branchSteps (u2Slope p) (u2Amp p) (u2Freq p) (u2Phase p) 0.65 p x t.

(** The parameters the three curves read are finite numbers. *)
Definition finiteParams (p : params) : bool :=
  is_finite (xMax p) && is_finite (splitX p)
  && is_finite (baseAmp p) && is_finite (baseFreq p) && is_finite (basePhase p)
  && is_finite (u1Slope p) && is_finite (u1Amp p)
  && is_finite (u1Freq p) && is_finite (u1Phase p)
  && is_finite (u2Slope p) && is_finite (u2Amp p)
  && is_finite (u2Freq p) && is_finite (u2Phase p).

(** No operation of the evaluation overflowed to an infinity. *)
Definition noOverflow (steps : list float) : Prop :=
  Forall (fun v => is_infinity v = false) steps.

(** The sampler lambdas [render] hands to [drawCurve]. *)
Definition preSplitSampler (p : params) (t x : float) : float :=
  if x <=? splitX p then baseY p x t else NaN.

Definition u1Sampler (p : params) (t x : float) : float :=
  if splitX p <=? x then u1Y p x t else NaN.

Definition u2Sampler (p : params) (t x : float) : float :=
  if splitX p <=? x then u2Y p x t else NaN.

(** *** [drawCurve] *)

(** The path calls [drawCurve] issues between [beginPath] and [stroke]. *)
Inductive path_cmd : Type :=
| MoveTo (px py : float)
| LineTo (px py : float).

(** One turn of the loop body on the sample at [x]: the path call it issues,
    if any, and the pen afterwards. *)
Definition plotSample (p : params) (m : layout) (sampler : float -> float)
  (penDown : bool) (x : float) : list path_cmd * bool :=
  let y := sampler x in
  if negb (Number_isFinite y) then ([], false)
  else
    let px := x2px p m x in
    let py := y2px m y in
    if negb penDown then ([MoveTo px py], true) else ([LineTo px py], true).

(** The body folded over the sample points the loop visits. *)
Fixpoint plot (p : params) (m : layout) (sampler : float -> float)
  (penDown : bool) (xs : list float) : list path_cmd :=
  match xs with
  | [] => []
  | x :: rest =>
      let '(cmds, pen) := plotSample p m sampler penDown x in
      cmds ++ plot p m sampler pen rest
  end.

(** [for (let x = fromX; x <= bound; x += step)]: the points visited, or
    [None] when [fuel] turns do not reach the exit. *)
Fixpoint samplePoints (fuel : nat) (bound step x : float) : option (list float) :=
  match fuel with
  | O => None
  | S fuel' =>
      if x <=? bound then
        option_map (cons x) (samplePoints fuel' bound step (x + step))
      else Some []
  end.

(** The loop of [drawCurve] as it is written. *)
Fixpoint drawCurveLoop (fuel : nat) (p : params) (m : layout)
  (sampler : float -> float) (bound step x : float) (penDown : bool)
  : option (list path_cmd) :=
  match fuel with
  | O => None
  | S fuel' =>
      if x <=? bound then
        let y := sampler x in
        if negb (Number_isFinite y) then
          drawCurveLoop fuel' p m sampler bound step (x + step) false
        else
          let px := x2px p m x in
          let py := y2px m y in
          let cmd := if negb penDown then MoveTo px py else LineTo px py in
          option_map (cons cmd)
            (drawCurveLoop fuel' p m sampler bound step (x + step) true)
      else Some []
  end.

Definition drawCurve (fuel : nat) (p : params) (m : layout)
  (sampler : float -> float) (fromX toX : float) : option (list path_cmd) :=
  let step := xMax p / 1000 in
  drawCurveLoop fuel p m sampler (Math_min (xMax p) toX) step fromX false.

(** A point the canvas accepts: [moveTo(x, y)] and [lineTo(x, y)] return at
    once when an argument is infinite or NaN. *)
Definition onPath (px py : float) : bool :=
  Number_isFinite px && Number_isFinite py.

(** The segments a stroked path draws: [moveTo] starts a subpath, [lineTo]
    joins the current point to its argument ([lineTo] on an empty path only
    places the point); a call with an infinite or NaN argument is
    ignored. *)
Fixpoint segments (cur : option (float * float)) (cmds : list path_cmd)
  : list ((float * float) * (float * float)) :=
  match cmds with
  | [] => []
  | MoveTo px py :: rest =>
      if onPath px py then segments (Some (px, py)) rest
      else segments cur rest
  | LineTo px py :: rest =>
      if onPath px py then
        match cur with
        | None => segments (Some (px, py)) rest
        | Some c => (c, (px, py)) :: segments (Some (px, py)) rest
        end
      else segments cur rest
  end.

(** The pixel a finite sample at [x] is drawn at. *)
Definition samplePoint (p : params) (m : layout) (sampler : float -> float)
  (x : float) : float * float :=
  (x2px p m x, y2px m (sampler x)).

(** The sample at [x] falls on a point the canvas accepts. *)
Definition drawn (p : params) (m : layout) (sampler : float -> float)
  (x : float) : bool :=
  onPath (x2px p m x) (y2px m (sampler x)).

(** The first sample of [xs] that [drawCurve] draws, if any. *)
Definition firstFinite (sampler : float -> float) (xs : list float)
  : option float :=
  find (fun v => Number_isFinite (sampler v)) xs.

(** *** The drawing surface *)

(** The current transformation matrix of the 2D context,
    [[a c e; b d f; 0 0 1]]. *)
Record matrix : Type := {
  ma : float;
  mb : float;
  mc : float;
  md : float;
  me : float;
  mf : float
}.

Definition identity : matrix :=
  {| ma := 1; mb := 0; mc := 0; md := 1; me := 0; mf := 0 |}.

(** The canvas element with its 2D context: the CSS box, the backing store
    size ([canvas.width], [canvas.height]) and the context's matrix. *)
Record canvas : Type := {
  clientWidth : float;
  clientHeight : float;
  canvasWidth : float;
  canvasHeight : float;
  ctm : matrix
}.

(** Assigning [canvas.width] or [canvas.height] stores the converted value
    and resets the context to its default state. *)
Definition setCanvasWidth (v : float) (c : canvas) : canvas :=
  {| clientWidth := clientWidth c;
     clientHeight := clientHeight c;
     canvasWidth := unsigned_long v;
     canvasHeight := canvasHeight c;
     ctm := identity |}.

Definition setCanvasHeight (v : float) (c : canvas) : canvas :=
  {| clientWidth := clientWidth c;
     clientHeight := clientHeight c;
     canvasWidth := canvasWidth c;
     canvasHeight := unsigned_long v;
     ctm := identity |}.

Definition withMatrix (m : matrix) (c : canvas) : canvas :=
  {| clientWidth := clientWidth c;
     clientHeight := clientHeight c;
     canvasWidth := canvasWidth c;
     canvasHeight := canvasHeight c;
     ctm := m |}.

(** [ctx.setTransform(a, b, c, d, e, f)]: ignored when an argument is
    infinite or NaN, else the matrix is replaced. *)
Definition setTransform (a b c d e f : float) (cv : canvas) : canvas :=
  if Number_isFinite a && Number_isFinite b && Number_isFinite c
     && Number_isFinite d && Number_isFinite e && Number_isFinite f
  then withMatrix {| ma := a; mb := b; mc := c; md := d; me := e; mf := f |} cv
  else cv.

(** [ctx.scale(x, y)]: ignored when an argument is infinite or NaN, else the
    scaling is multiplied onto the current matrix. *)
Definition scale (x y : float) (cv : canvas) : canvas :=
  if Number_isFinite x && Number_isFinite y
  then
    let m := ctm cv in
    withMatrix {| ma := ma m * x; mb := mb m * x;
                  mc := mc m * y; md := md m * y;
                  me := me m; mf := mf m |} cv
  else cv.

(** [window.devicePixelRatio || 1]. *)
Definition pixelRatio (devicePixelRatio : option float) : float :=
  match devicePixelRatio with
  | Some d => if truthy d then d else 1
  | None => 1
  end.

(** The CSS size [render] works with. *)
Definition cssWidth (c : canvas) : float := Math_max 1 (clientWidth c).
Definition cssHeight (c : canvas) : float := Math_max 1 (clientHeight c).

(** The HiDPI step of [render]: resize the backing store when it is stale,
    reset the transform, then scale once by the device pixel ratio. *)
Definition hidpiSetup (devicePixelRatio : option float) (c : canvas) : canvas :=
  let cssW := cssWidth c in
  let cssH := cssHeight c in
  let dpr := pixelRatio devicePixelRatio in
  let c1 :=
    if strict_neq (canvasWidth c) (Math_floor (cssW * dpr))
       || strict_neq (canvasHeight c) (Math_floor (cssH * dpr))
    then setCanvasHeight (Math_floor (cssH * dpr))
           (setCanvasWidth (Math_floor (cssW * dpr)) c)
    else c in
  scale dpr dpr (setTransform 1 0 0 1 0 0 c1).

(** The same step without the reset, as the component was before its fix. *)
Definition scaleOnly (devicePixelRatio : option float) (c : canvas) : canvas :=
  let dpr := pixelRatio devicePixelRatio in
  scale dpr dpr c.

(** The matrix the step leaves: the pixel ratio on the diagonal, built on
    the identity; the identity itself when the ratio is not finite and
    [scale] ignores it. *)
Definition frameMatrix (devicePixelRatio : option float) : matrix :=
  let dpr := pixelRatio devicePixelRatio in
  if Number_isFinite dpr && Number_isFinite dpr
  then {| ma := 1 * dpr; mb := 0 * dpr; mc := 0 * dpr; md := 1 * dpr;
          me := 0; mf := 0 |}
  else identity.

(** The backing store is stale when its size is not the CSS size times the
    pixel ratio. *)
Definition staleSize (d : option float) (c : canvas) : bool :=
  strict_neq (canvasWidth c) (Math_floor (cssWidth c * pixelRatio d))
  || strict_neq (canvasHeight c) (Math_floor (cssHeight c * pixelRatio d)).

(** The canvas after a resize and the transform set-up. *)
Definition fitted (d : option float) (c : canvas) : canvas :=
  {| clientWidth := clientWidth c;
     clientHeight := clientHeight c;
     canvasWidth := unsigned_long (Math_floor (cssWidth c * pixelRatio d));
     canvasHeight := unsigned_long (Math_floor (cssHeight c * pixelRatio d));
     ctm := frameMatrix d |}.

(** What one call of [render] leaves: the surface and the three stroked
    curves with the junction dot (the grid and the legend are drawn inside
    [save]/[restore] pairs and touch neither). *)
Record picture : Type := {
  surface : canvas;
  basePath : option (list path_cmd);
  u1Path : option (list path_cmd);
  u2Path : option (list path_cmd);
  junctionDot : float * float
}.

Definition render (fuel : nat) (devicePixelRatio : option float)
  (p : params) (time : float) (canvasRef : option canvas) : option picture :=
  match canvasRef with
  | None => None
  | Some canvas =>
      let cssW := cssWidth canvas in
      let cssH := cssHeight canvas in
      let m := mapFactory cssW cssH 56 in
      let t := time in
      let toX := Math_min (xMax p) (splitX p + trace p) in
      Some {| surface := hidpiSetup devicePixelRatio canvas;
              basePath := drawCurve fuel p m (preSplitSampler p t) 0 (splitX p);
              u1Path := drawCurve fuel p m (u1Sampler p t) (splitX p) toX;
              u2Path := drawCurve fuel p m (u2Sampler p t) (splitX p) toX;
              junctionDot := (x2px p m (splitX p), y2px m (junctionY p t)) |}
  end.

(** *** The animation effect *)

(** The component's playback state with the frame callbacks the browser
    holds.  A callback is queued under its handle and the generation of the
    effect closure that made it; [cleanup] retires a closure ([mounted =
    false]) by moving to the next generation. *)
Record component : Type := {
  playing : bool;
  time : float;
  model : params;
  rafRef : nat;
  queue : list (nat * nat);
  effect : nat;
  last : float;
  nextHandle : nat
}.

Definition requestAnimationFrame (s : component) : component :=
  {| playing := playing s; time := time s; model := model s;
     rafRef := nextHandle s;
     queue := queue s ++ [(nextHandle s, effect s)];
     effect := effect s; last := last s;
     nextHandle := S (nextHandle s) |}.

Definition cancelAnimationFrame (h : nat) (s : component) : component :=
  {| playing := playing s; time := time s; model := model s;
     rafRef := rafRef s;
     queue := filter (fun cb => negb (Nat.eqb (fst cb) h)) (queue s);
     effect := effect s; last := last s;
     nextHandle := nextHandle s |}.

(** The effect body: a fresh closure with [mounted = true] and
    [last = performance.now()] that requests its first frame. *)
Definition setup (now : float) (s : component) : component :=
  requestAnimationFrame
    {| playing := playing s; time := time s; model := model s;
       rafRef := rafRef s; queue := queue s;
       effect := S (effect s); last := now;
       nextHandle := nextHandle s |}.

(** The function the effect returns. *)
Definition cleanup (s : component) : component :=
  cancelAnimationFrame (rafRef s) s.

(** A commit that changed [playing], [speed] or [render]: React runs the old
    effect's cleanup, then the effect again. *)
Definition rerunEffect (now : float) (s : component) : component :=
  setup now (cleanup s).

Definition setPlaying (b : bool) (s : component) : component :=
  {| playing := b; time := time s; model := model s;
     rafRef := rafRef s; queue := queue s;
     effect := effect s; last := last s; nextHandle := nextHandle s |}.

Definition setTime (v : float) (s : component) : component :=
  {| playing := playing s; time := v; model := model s;
     rafRef := rafRef s; queue := queue s;
     effect := effect s; last := last s; nextHandle := nextHandle s |}.

Definition setLast (v : float) (s : component) : component :=
  {| playing := playing s; time := time s; model := model s;
     rafRef := rafRef s; queue := queue s;
     effect := effect s; last := v; nextHandle := nextHandle s |}.

(** [tick(now)], called for a callback queued by generation [g].  The
    closure's [playing] and [speed] are those of the commit that ran the
    effect; every commit that changes them runs the effect again, so the live
    closure reads the state's. *)
Definition tick (now : float) (g : nat) (s : component) : component :=
  if negb (Nat.eqb g (effect s)) then s
  else
    let dt := Math_min 0.05 ((now - last s) / 1000) in
    let s1 := setLast now s in
    let s2 := if playing s1 then setTime (time s1 + dt * speed (model s1)) s1
              else s1 in
    requestAnimationFrame s2.

(** One animation frame at [now]: the browser runs the callbacks it held,
    then React commits the state they changed. *)
Definition animationFrame (now : float) (s : component) : component :=
  let held := queue s in
  let s0 :=
    {| playing := playing s; time := time s; model := model s;
       rafRef := rafRef s; queue := [];
       effect := effect s; last := last s; nextHandle := nextHandle s |} in
  let s1 := fold_left (fun acc cb => tick now (snd cb) acc) held s0 in
  if PrimFloat.Leibniz.eqb (time s1) (time s) then s1 else rerunEffect now s1.

(** The Play/Pause button: [setPlaying((p) => !p)]. *)
Definition onPlayPause (now : float) (s : component) : component :=
  rerunEffect now (setPlaying (negb (playing s)) s).

(** The Reset button: [setTime(0)]; React skips the commit when the state
    is unchanged. *)
Definition onResetTime (now : float) (s : component) : component :=
  if PrimFloat.Leibniz.eqb (time s) 0 then s
  else rerunEffect now (setTime 0 s).

(** The component after its first commit at [now]. *)
Definition mount (now : float) : component :=
  setup now
    {| playing := true; time := 0; model := defaults;
       rafRef := 0; queue := [];
       effect := 0; last := 0; nextHandle := 1 |}.

Inductive action : Type :=
| PlayPause (now : float)
| ResetTime (now : float)
| Frame (now : float).

Definition act (s : component) (a : action) : component :=
  match a with
  | PlayPause now => onPlayPause now s
  | ResetTime now => onResetTime now s
  | Frame now => animationFrame now s
  end.

(** *** [drawGrid] *)

(** A stroked line, from one point to another. *)
Definition verticalLine (p : params) (m : layout) (x : float)
  : (float * float) * (float * float) :=
  ((x2px p m x, top m), (x2px p m x, bottom m)).

Definition horizontalLine (m : layout) (y : float)
  : (float * float) * (float * float) :=
  ((left m, y2px m y), (right m, y2px m y)).

(** The lines [drawGrid] strokes: the vertical grid, the horizontal grid,
    the two axes and the junction marker; [None] when [fuel] turns do not
    reach the exit of a loop. *)
Definition drawGrid (fuel : nat) (p : params) (m : layout)
  : option (list ((float * float) * (float * float))) :=
  match samplePoints fuel (xMax p) 1 0 with
  | None => None
  | Some xs =>
      match samplePoints fuel 2 0.5 (-2) with
      | None => None
      | Some ys =>
          Some (map (verticalLine p m) xs
                ++ map (horizontalLine m) ys
                ++ [horizontalLine m 0; verticalLine p m 0;
                    verticalLine p m (splitX p)])
      end
  end.

(** *** The sliders *)

(** The numbers a range input hands to [parseFloat]: the decimals
    [first / denominator], [(first + 1) / denominator], ..., [count] of
    them, each read as the nearest binary64 number. *)
Definition decimals (denominator first count : nat) : list float :=
  map (fun k => whole k / whole denominator) (seq first count).

(** [slider(xMax, setXMax, 6, 20, 0.1)] and
    [slider(splitX, setSplitX, 1, 9, 0.01)]. *)
Definition xMaxSettings : list float := decimals 10 60 141.
Definition splitXSettings : list float := decimals 100 100 801.

Definition isSetting (settings : list float) (v : float) : bool :=
  existsb (fun s => PrimFloat.Leibniz.eqb s v) settings.

End Component.

End DualUniverse.

(** ** The oscilloscope of [app.js] *)

Module Scope.
Import JS.

Section Oscilloscope.

Variable Math_sin : float -> float.
Variable Math_cos : float -> float.

(** The callbacks handed to [requestAnimationFrame]: [drawFrame] itself and
    the one-shot probe of [boot]. *)
Inductive callback : Type :=
| DrawFrame
| BootProbe.

(** The lines [log] writes to the console pane. *)
Inductive logLine : Type :=
| ScopeStart
| ScopePause
| ScopeJam (on : bool)
| ScopeCalibrate
| ScopeGlow (on : bool)
| ScopeReset
| ScopeSafeStart
| ControlsBound
| BootOk
| RafPrimed
| RafTicking (fps : float).

(** The variables of the closure, with the browser's queue of frame
    callbacks. *)
Record state : Type := {
  running : bool;
  glow : bool;
  t : float;
  dt : float;
  f1 : float;
  f2 : float;
  phase : float;
  noise : float;
  jam : bool;
  lastTick : float;
  rafQueue : list callback
}.

Definition initial : state := {|
  running := false;
  glow := false;
  t := 0;
  dt := 0.016;
  f1 := 1.2;
  f2 := 2.3;
  phase := Math_PI / 3;
  noise := 0.0;
  jam := false;
  lastTick := 0;
  rafQueue := []
|}.

Definition setRunning (b : bool) (s : state) : state :=
  {| running := b; glow := glow s; t := t s; dt := dt s; f1 := f1 s;
     f2 := f2 s; phase := phase s; noise := noise s; jam := jam s;
     lastTick := lastTick s; rafQueue := rafQueue s |}.

Definition setLastTick (v : float) (s : state) : state :=
  {| running := running s; glow := glow s; t := t s; dt := dt s; f1 := f1 s;
     f2 := f2 s; phase := phase s; noise := noise s; jam := jam s;
     lastTick := v; rafQueue := rafQueue s |}.

Definition setT (v : float) (s : state) : state :=
  {| running := running s; glow := glow s; t := v; dt := dt s; f1 := f1 s;
     f2 := f2 s; phase := phase s; noise := noise s; jam := jam s;
     lastTick := lastTick s; rafQueue := rafQueue s |}.

Definition setGlow (b : bool) (s : state) : state :=
  {| running := running s; glow := b; t := t s; dt := dt s; f1 := f1 s;
     f2 := f2 s; phase := phase s; noise := noise s; jam := jam s;
     lastTick := lastTick s; rafQueue := rafQueue s |}.

Definition setSignal (j : bool) (n a b ph : float) (s : state) : state :=
  {| running := running s; glow := glow s; t := t s; dt := dt s; f1 := a;
     f2 := b; phase := ph; noise := n; jam := j;
     lastTick := lastTick s; rafQueue := rafQueue s |}.

Definition requestAnimationFrame (cb : callback) (s : state) : state :=
  {| running := running s; glow := glow s; t := t s; dt := dt s; f1 := f1 s;
     f2 := f2 s; phase := phase s; noise := noise s; jam := jam s;
     lastTick := lastTick s; rafQueue := rafQueue s ++ [cb] |}.

Definition clearQueue (s : state) : state :=
  {| running := running s; glow := glow s; t := t s; dt := dt s; f1 := f1 s;
     f2 := f2 s; phase := phase s; noise := noise s; jam := jam s;
     lastTick := lastTick s; rafQueue := [] |}.

(** [rnd(a, b)] with [r] the value [Math.random()] returned. *)
Definition rnd (a b r : float) : float := a + r * (b - a).

(** The trace of [drawFrame]: sample [i] of [steps = 1400], with [rx] and
    [ry] the two [Math.random()] draws of that turn and [(w, h)] the size of
    the scope canvas. *)
Definition steps : float := 1400.

Definition traceTime (s : state) (i : float) : float :=
  t s + i / steps * (if jam s then 14 else 8).

Definition traceX (s : state) (w h : float) (i rx : float) : float :=
  let cx := w / 2 in
  let A := Math_min w h / 3.0 in
  let tt := traceTime s i in
  cx + A * Math_sin (2 * Math_PI * f1 s * tt + phase s)
  + (rx - 0.5) * noise s * 4.

Definition traceY (s : state) (w h : float) (i ry : float) : float :=
  let cy := h / 2 in
  let A := Math_min w h / 3.0 in
  let tt := traceTime s i in
  cy + A * Math_sin (2 * Math_PI * f2 s * tt) * Math_cos (phase s)
  + (ry - 0.5) * noise s * 4.

(** The dot at the current phase position. *)
Definition dotX (s : state) (w h : float) : float :=
  let cx := w / 2 in
  let A := Math_min w h / 3.0 in
  cx + A * Math_sin (2 * Math_PI * f1 s * t s + phase s).

Definition dotY (s : state) (w h : float) : float :=
  let cy := h / 2 in
  let A := Math_min w h / 3.0 in
  cy + A * Math_sin (2 * Math_PI * f2 s * t s) * Math_cos (phase s).

(** [drawFrame(ts)]: what it does to the closure and what it logs (the
    drawing itself goes to the canvas). *)
Definition drawFrame (ts : float) (s : state) : state * list logLine :=
  if negb (running s) then (setLastTick 0 s, [])
  else
    let '(s1, out) :=
      if truthy ts && (250 <? ts - lastTick s)
      then (setLastTick ts s, [RafTicking (1000 / (ts - lastTick s))])
      else (s, []) in
    let s2 := setT (t s1 + dt s1) s1 in
    (requestAnimationFrame DrawFrame s2, out).

(** The handlers [bindControls] installs. *)
Definition onStart (s : state) : state * list logLine :=
  if negb (running s)
  then (requestAnimationFrame DrawFrame (setRunning true s), [ScopeStart])
  else (s, []).

Definition onPause (s : state) : state * list logLine :=
  (setRunning false s, [ScopePause]).

Definition onJam (r1 r2 r3 : float) (s : state) : state * list logLine :=
  let j := negb (jam s) in
  (setSignal j (if j then 0.8 else 0.0)
     (if j then rnd 0.8 2.2 r1 else 1.2)
     (if j then rnd 1.6 3.5 r2 else 2.3)
     (if j then rnd 0 Math_PI r3 else Math_PI / 3) s,
   [ScopeJam j]).

Definition onCal (s : state) : state * list logLine :=
  (setSignal false 0 1.2 2.3 (Math_PI / 3) s, [ScopeCalibrate]).

Definition onGlow (s : state) : state * list logLine :=
  (setGlow (negb (glow s)) s, [ScopeGlow (negb (glow s))]).

Definition onReset (s : state) : state * list logLine :=
  (setT 0 s, [ScopeReset]).

(** [bindControls] reinstalls the same handlers and logs. *)
Definition bindControls (s : state) : state * list logLine :=
  (s, [ControlsBound]).

Definition onSafeStart (s : state) : state * list logLine :=
  let '(s1, out) := bindControls s in
  (requestAnimationFrame DrawFrame (setRunning true s1),
   out ++ [ScopeSafeStart]).

Definition boot (s : state) : state * list logLine :=
  let '(s1, out) := bindControls s in
  (requestAnimationFrame BootProbe s1, out).

Definition runCallback (ts : float) (cb : callback) (s : state)
  : state * list logLine :=
  match cb with
  | DrawFrame => drawFrame ts s
  | BootProbe => (s, [BootOk; RafPrimed])
  end.

(** One animation frame at [ts]: the browser runs the callbacks it held, in
    order; those requested meanwhile wait for the next frame. *)
Definition animationFrame (ts : float) (s : state) : state * list logLine :=
  fold_left
    (fun acc cb =>
       let '(s1, out) := runCallback ts cb (fst acc) in
       (s1, snd acc ++ out))
    (rafQueue s) (clearQueue s, []).

Inductive event : Type :=
| Start
| Pause
| Jam (r1 r2 r3 : float)
| Calibrate
| Glow
| Reset
| SafeStart
| AnimationFrame (ts : float).

Definition handle (e : event) (s : state) : state * list logLine :=
  match e with
  | Start => onStart s
  | Pause => onPause s
  | Jam r1 r2 r3 => onJam r1 r2 r3 s
  | Calibrate => onCal s
  | Glow => onGlow s
  | Reset => onReset s
  | SafeStart => onSafeStart s
  | AnimationFrame ts => animationFrame ts s
  end.

(** The state after a sequence of events. *)
Definition run (es : list event) (s : state) : state :=
  fold_left (fun acc e => fst (handle e acc)) es s.

(** The closure agrees with another one on every variable but [running]
    and the frame queue. *)
Definition sameSignal (s s' : state) : Prop :=
  glow s' = glow s /\ t s' = t s /\ dt s' = dt s /\ f1 s' = f1 s
  /\ f2 s' = f2 s /\ phase s' = phase s /\ noise s' = noise s
  /\ jam s' = jam s /\ lastTick s' = lastTick s.

(** The page once [DOMContentLoaded] has run [boot]. *)
Definition booted : state := fst (boot initial).

(** The [drawFrame] callbacks the browser holds. *)
Definition pendingFrames (s : state) : nat :=
  List.length
    (filter (fun cb => match cb with DrawFrame => true | BootProbe => false end)
       (rafQueue s)).

End Oscilloscope.

End Scope.

(** ** The duet chat of [app.js] *)

Module Chat.

#[local] Open Scope nat_scope.

Section Duet.

(** A UTF-16 code unit: what [text.length] counts and [text.slice] cuts
    at. *)
Variable codeUnit : Type.

Inductive speaker : Type :=
| Infinity
| Watson.

(** A line of the script: [[who, text]]. *)
Definition line : Type := (speaker * list codeUnit)%type.

(** A message element made by [mkMsg], with the identity of its node. *)
Record message : Type := {
  node : nat;
  who : speaker;
  textContent : list codeUnit
}.

(** The closures [setTimeout] holds: [tick], with the variables of the [step]
    call it lives in ([lines], [i], the message, its [text], [k] and
    [speed]), or [step]. *)
Inductive timeout : Type :=
| TickTimeout (lines : list line) (i : nat) (msg : nat)
    (text : list codeUnit) (k : nat) (speed : float)
| StepTimeout (lines : list line) (i : nat).

(** [playing] and [chatTimer], the timeouts the browser holds, and the
    children of the chat pane. *)
Record state : Type := {
  playing : bool;
  chatTimer : option nat;
  timers : list (nat * timeout);
  nextTimer : nat;
  chatEl : list message;
  nextNode : nat
}.

Definition initial : state := {|
  playing := false;
  chatTimer := None;
  timers := [];
  nextTimer := 1;
  chatEl := [];
  nextNode := 0
|}.

Definition setPlaying (b : bool) (s : state) : state :=
  {| playing := b; chatTimer := chatTimer s; timers := timers s;
     nextTimer := nextTimer s; chatEl := chatEl s; nextNode := nextNode s |}.

(** [chatTimer = setTimeout(f, delay)]. *)
Definition setTimeout (f : timeout) (s : state) : state :=
  {| playing := playing s; chatTimer := Some (nextTimer s);
     timers := timers s ++ [(nextTimer s, f)];
     nextTimer := S (nextTimer s);
     chatEl := chatEl s; nextNode := nextNode s |}.

Definition clearTimeout (id : nat) (s : state) : state :=
  {| playing := playing s; chatTimer := chatTimer s;
     timers := filter (fun e => negb (Nat.eqb (fst e) id)) (timers s);
     nextTimer := nextTimer s;
     chatEl := chatEl s; nextNode := nextNode s |}.

(** [chatEl.appendChild(mkMsg(who, ''))]. *)
Definition appendChild (w : speaker) (s : state) : state :=
  {| playing := playing s; chatTimer := chatTimer s; timers := timers s;
     nextTimer := nextTimer s;
     chatEl := chatEl s
               ++ [{| node := nextNode s; who := w; textContent := [] |}];
     nextNode := S (nextNode s) |}.

(** [msg.querySelector('.text').textContent = v]; a node that is no longer
    in the pane shows nothing. *)
Definition setText (msg : nat) (v : list codeUnit) (s : state) : state :=
  {| playing := playing s; chatTimer := chatTimer s; timers := timers s;
     nextTimer := nextTimer s;
     chatEl := map (fun m => if Nat.eqb (node m) msg
                             then {| node := node m; who := who m;
                                     textContent := v |}
                             else m) (chatEl s);
     nextNode := nextNode s |}.

(** [text.slice(0, k)]. *)
Definition slice (text : list codeUnit) (k : nat) : list codeUnit :=
  firstn k text.

(** [Math.max(1, Math.round(text.length / speed))]; the quotient lies
    between [0] and [text.length] for the speeds [step] draws. *)
Definition increment (text : list codeUnit) (speed : float) : nat :=
  Nat.max 1
    (JS.Math_round (List.length text)
       (JS.whole (List.length text) / speed)%float).

(** One run of [tick]. *)
Definition tick (lines : list line) (i msg : nat) (text : list codeUnit)
  (k : nat) (speed : float) (s : state) : state :=
  let s1 := setText msg (slice text k) s in
  let k' := k + increment text speed in
  if k' <=? List.length text
  then setTimeout (TickTimeout lines i msg text k' speed) s1
  else setTimeout (StepTimeout lines i) s1.

(** One run of [step]; [random] is what [Math.random()] returns in it, a
    number from [0] up to but not including [1]. *)
Definition step (lines : list line) (i : nat) (random : float) (s : state)
  : state :=
  match nth_error lines i with
  | None => setPlaying false s
  | Some (w, text) =>
      let speed := (12 + random * 10)%float in
      tick lines (S i) (nextNode s) text 0 speed (appendChild w s)
  end.

Definition typeSequence (lines : list line) (random : float) (s : state)
  : state :=
  step lines 0 random (setPlaying true s).

(** [play], with [lines] the lines [script()] yields. *)
Definition play (lines : list line) (random : float) (s : state) : state :=
  if playing s then s else typeSequence lines random s.

Definition clear (s : state) : state :=
  let s1 := match chatTimer s with
            | Some id => clearTimeout id s
            | None => s
            end in
  {| playing := false; chatTimer := chatTimer s1; timers := timers s1;
     nextTimer := nextTimer s1; chatEl := []; nextNode := nextNode s1 |}.

(** The chat side of [regen]: [clear()], then [play()] on the lines of the
    new script. *)
Definition regen (lines : list line) (random : float) (s : state) : state :=
  play lines random (clear s).

(** The browser runs the timeout [id], if it still holds it. *)
Definition fire (id : nat) (random : float) (s : state) : state :=
  match find (fun e => Nat.eqb (fst e) id) (timers s) with
  | None => s
  | Some (_, f) =>
      let s1 := clearTimeout id s in
      match f with
      | TickTimeout lines i msg text k speed =>
          tick lines i msg text k speed s1
      | StepTimeout lines i => step lines i random s1
      end
  end.

Inductive event : Type :=
| Play (lines : list line) (random : float)
| Regen (lines : list line) (random : float)
| Clear
| Timeout (id : nat) (random : float).

Definition handle (s : state) (e : event) : state :=
  match e with
  | Play lines random => play lines random s
  | Regen lines random => regen lines random s
  | Clear => clear s
  | Timeout id random => fire id random s
  end.

Definition run (es : list event) : state := fold_left handle es initial.

(** The browser runs the timeout [chatTimer] names. *)
Definition fireChatTimer (random : float) (s : state) : state :=
  match chatTimer s with
  | Some id => fire id random s
  | None => s
  end.

(** What the pane shows in the message with node [msg]. *)
Definition shown (msg : nat) (s : state) : option (list codeUnit) :=
  option_map textContent
    (find (fun m => Nat.eqb (node m) msg) (chatEl s)).

End Duet.

Arguments node {codeUnit}.
Arguments who {codeUnit}.
Arguments textContent {codeUnit}.
Arguments TickTimeout {codeUnit}.
Arguments StepTimeout {codeUnit}.
Arguments playing {codeUnit}.
Arguments chatTimer {codeUnit}.
Arguments timers {codeUnit}.
Arguments nextTimer {codeUnit}.
Arguments chatEl {codeUnit}.
Arguments nextNode {codeUnit}.
Arguments initial {codeUnit}.
Arguments setPlaying {codeUnit}.
Arguments setTimeout {codeUnit}.
Arguments clearTimeout {codeUnit}.
Arguments appendChild {codeUnit}.
Arguments setText {codeUnit}.
Arguments slice {codeUnit}.
Arguments increment {codeUnit}.
Arguments tick {codeUnit}.
Arguments step {codeUnit}.
Arguments typeSequence {codeUnit}.
Arguments play {codeUnit}.
Arguments clear {codeUnit}.
Arguments regen {codeUnit}.
Arguments fire {codeUnit}.
Arguments Play {codeUnit}.
Arguments Regen {codeUnit}.
Arguments Clear {codeUnit}.
Arguments Timeout {codeUnit}.
Arguments handle {codeUnit}.
Arguments run {codeUnit}.
Arguments fireChatTimer {codeUnit}.
Arguments shown {codeUnit}.

End Chat.

(** ** The storage helpers of the field-signal component *)

Module FieldSignal.

(** How a call completes: with a value, or by throwing. *)
Inductive completion (E A : Type) : Type :=
| Returns (a : A)
| Throws (e : E).

Arguments Returns {E A} a.
Arguments Throws {E A} e.

(** A value [save] accepts: [string | number]. *)
Inductive value : Type :=
| Str (s : string)
| Num (n : float).

Section Storage.

(** The browser: its state, what it throws, and [localStorage]'s two
    methods, which may throw (storage disabled, quota exceeded, ...) and may
    change the browser's state either way. *)
Variable browser : Type.
Variable exn : Type.
Variable setItem : string -> string -> browser -> completion exn unit * browser.
Variable getItem : string -> browser -> completion exn (option string) * browser.

(** [String(n)] and [Number(s)]. *)
Variable NumberToString : float -> string.
Variable StringToNumber : string -> float.

Definition String_of (v : value) : string :=
  match v with
  | Str s => s
  | Num n => NumberToString n
  end.

Definition storageKey (key : string) : string := ("fieldsig_" ++ key)%string.

(** [try { body } catch {}] for a body whose value is dropped. *)
Definition tryCatchIgnore {A : Type} (body : completion exn A * browser)
  : completion exn unit * browser :=
  match body with
  | (Returns _, b) => (Returns tt, b)
  | (Throws _, b) => (Returns tt, b)
  end.

Definition save (key : string) (val : value) (b : browser)
  : completion exn unit * browser :=
  tryCatchIgnore (setItem (storageKey key) (String_of val) b).

Definition loadNum (key : string) (fallback : float) (b : browser)
  : completion exn float * browser :=
  match getItem (storageKey key) b with
  | (Returns v, b') =>
      (Returns (match v with None => fallback | Some s => StringToNumber s end), b')
  | (Throws _, b') => (Returns fallback, b')
  end.

Definition loadStr (key : string) (fallback : string) (b : browser)
  : completion exn string * browser :=
  match getItem (storageKey key) b with
  | (Returns v, b') =>
      (Returns (match v with None => fallback | Some s => s end), b')
  | (Throws _, b') => (Returns fallback, b')
  end.

End Storage.

(** *** The tone and the oscilloscope of the field-signal component *)

(** [clamp(v, lo, hi)]. *)
Definition clamp (v lo hi : float) : float :=
  JS.Math_min hi (JS.Math_max lo v).

(** The frequencies of the two oscillators. *)
Definition leftFreq (baseHz beatHz : float) : float :=
  JS.Math_max 1 (baseHz - beatHz / 2).

Definition rightFreq (baseHz beatHz : float) : float :=
  JS.Math_max 1 (baseHz + beatHz / 2).

(** The targets the live update ramps the oscillators to. *)
Definition leftTarget (baseHz beatHz : float) : float :=
  JS.Math_max 1 (leftFreq baseHz beatHz).

Definition rightTarget (baseHz beatHz : float) : float :=
  JS.Math_max 1 (rightFreq baseHz beatHz).

(** An element of the [Uint8Array] as a number. *)
Definition byteToNumber (b : Byte.byte) : float :=
  of_uint63 (Uint63.of_Z (Z.of_N (Byte.to_N b))).

(** The wave loop of [draw]: the path calls for the samples from index [i]
    on, with the pen at abscissa [x]. *)
Fixpoint waveLoop (H sliceWidth x : float) (i : nat) (data : list Byte.byte)
  : list DualUniverse.path_cmd :=
  match data with
  | [] => []
  | b :: rest =>
      let v := byteToNumber b / 128.0 in
      let y := (v * H) / 2 in
      (if Nat.eqb i 0 then DualUniverse.MoveTo x y else DualUniverse.LineTo x y)
      :: waveLoop H sliceWidth (x + sliceWidth) (S i) rest
  end.

Definition wave (W H : float) (dataArray : list Byte.byte)
  : list DualUniverse.path_cmd :=
  let sliceWidth := W / JS.whole (List.length dataArray) in
  waveLoop H sliceWidth 0 0 dataArray.

(** The canvas of the component is 600 by 200, and the analyser's
    [fftSize = 2048] gives [frequencyBinCount = 1024] samples. *)
Definition scopeWidth : float := 600.
Definition scopeHeight : float := 200.
Definition frequencyBinCount : nat := 1024.

(** A [localStorage] that works: an association list, newest first. *)
Definition memory : Type := list (string * string).

Definition memorySetItem (E : Type) (k v : string) (b : memory)
  : completion E unit * memory :=
  (Returns tt, (k, v) :: b).

Definition memoryGetItem (E : Type) (k : string) (b : memory)
  : completion E (option string) * memory :=
  (Returns (option_map snd (find (fun e => String.eqb (fst e) k) b)), b).

(** *** The scope loop of the field-signal component *)

(** [isOn], [rafRef.current] and the [draw] callbacks the browser holds,
    under their handles. *)
Record scopeLoop : Type := {
  isOn : bool;
  rafRef : option nat;
  frames : list nat;
  nextFrame : nat
}.

(** [rafRef.current = requestAnimationFrame(draw)], the first statement of
    [draw]; the rest of it paints. *)
Definition draw (s : scopeLoop) : scopeLoop :=
  {| isOn := isOn s;
     rafRef := Some (nextFrame s);
     frames := frames s ++ [nextFrame s];
     nextFrame := S (nextFrame s) |}.

(** [drawOscilloscope] with the analyser, the canvas and the data array in
    place: it calls [draw] once. *)
Definition drawOscilloscope (s : scopeLoop) : scopeLoop := draw s.

(** [teardown], as far as the loop goes: the pending frame is cancelled and
    the reference cleared. *)
Definition teardown (s : scopeLoop) : scopeLoop :=
  {| isOn := isOn s;
     rafRef := None;
     frames := match rafRef s with
               | Some h => filter (fun f => negb (Nat.eqb f h)) (frames s)
               | None => frames s
               end;
     nextFrame := nextFrame s |}.

(** The effect on [isOn]: tear down when off, else build the audio graph
    and start the oscilloscope. *)
Definition audioEffect (s : scopeLoop) : scopeLoop :=
  if negb (isOn s) then teardown s else drawOscilloscope s.

(** [setIsOn(v => !v)]: React runs the cleanup the last run of the effect
    returned ([teardown], when it ran with [isOn] set), then the effect. *)
Definition onToggle (s : scopeLoop) : scopeLoop :=
  let s1 := if isOn s then teardown s else s in
  audioEffect {| isOn := negb (isOn s); rafRef := rafRef s1;
                 frames := frames s1; nextFrame := nextFrame s1 |}.

(** The timed stop: [setIsOn(false)]. *)
Definition onTimedStop (s : scopeLoop) : scopeLoop :=
  if isOn s then onToggle s else s.

(** One animation frame: the browser runs the callbacks it held. *)
Definition scopeFrame (s : scopeLoop) : scopeLoop :=
  fold_left (fun acc _ => draw acc) (frames s)
    {| isOn := isOn s; rafRef := rafRef s; frames := [];
       nextFrame := nextFrame s |}.

(** The component after its first commit: the effect runs with [isOn]
    false. *)
Definition mounted : scopeLoop :=
  audioEffect {| isOn := false; rafRef := None; frames := []; nextFrame := 1 |}.

Inductive scopeEvent : Type :=
| Toggle
| TimedStop
| ScopeFrame.

Definition scopeStep (s : scopeLoop) (e : scopeEvent) : scopeLoop :=
  match e with
  | Toggle => onToggle s
  | TimedStop => onTimedStop s
  | ScopeFrame => scopeFrame s
  end.

(** *** The timed stop of the field-signal component *)

(** [isOn], [stopAtRef.current] and the intervals the browser holds; an
    interval that its session did not live to clear stays behind. *)
Record session : Type := {
  on : bool;
  stopAtRef : option float;
  intervals : list nat;
  nextInterval : nat
}.

(** The effect when [isOn] has turned true at [now], with the [duration]
    of that render. *)
Definition startSession (now duration : float) (s : session) : session :=
  if 0 <? duration
  then {| on := true;
          stopAtRef := Some (now + duration * 1000);
          intervals := intervals s ++ [nextInterval s];
          nextInterval := S (nextInterval s) |}
  else {| on := true; stopAtRef := None; intervals := intervals s;
          nextInterval := nextInterval s |}.

(** The Start/Stop button. *)
Definition onStartStop (now duration : float) (s : session) : session :=
  if on s
  then {| on := false; stopAtRef := stopAtRef s; intervals := intervals s;
          nextInterval := nextInterval s |}
  else startSession now duration s.

(** The callback of the interval [id], run at [now]. *)
Definition intervalFires (id : nat) (now : float) (s : session) : session :=
  if existsb (Nat.eqb id) (intervals s)
  then
    match stopAtRef s with
    | Some stopAt =>
        if JS.truthy stopAt && (stopAt <=? now)
        then {| on := false; stopAtRef := stopAtRef s;
                intervals := filter (fun i => negb (Nat.eqb i id))
                               (intervals s);
                nextInterval := nextInterval s |}
        else s
    | None => s
    end
  else s.

End FieldSignal.

(** * Part II: facts and theorems *)

(** ** Binary64 facts *)

Module Float64.
Import JS.

Abbreviation SF x := (Prim2SF x).

(** Classes of specification floats. *)
Definition signed (s : bool) (r : spec_float) : Prop :=
  match r with
  | S754_zero s' | S754_infinity s' | S754_finite s' _ _ => s' = s
  | S754_nan => False
  end.

Definition finite_sf (r : spec_float) : Prop :=
  match r with
  | S754_zero _ | S754_finite _ _ _ => True
  | _ => False
  end.

Definition nonpos_sf (r : spec_float) : Prop :=
  match r with
  | S754_zero _ | S754_infinity true | S754_finite true _ _ => True
  | _ => False
  end.

(** *** Comparison *)

Lemma SFcompare_antisym (a b : spec_float) :
  SFcompare b a = option_map CompOpp (SFcompare a b).
Proof.
  destruct a as [sa|sa| |sa ma ea], b as [sb|sb| |sb mb eb]; simpl;
    try reflexivity;
    try (destruct sa; reflexivity); try (destruct sb; reflexivity);
    try (destruct sa, sb; reflexivity).
  pose proof (Pos.compare_cont_antisym ma mb Eq) as Hm. simpl in Hm.
  destruct sa, sb; simpl; try reflexivity;
    rewrite (Z.compare_antisym ea eb);
    destruct (ea ?= eb)%Z eqn:E; simpl; try reflexivity;
    change (PosDef.Pos.compare_cont Eq mb ma) with (Pos.compare_cont Eq mb ma);
    rewrite <- Hm; now destruct (Pos.compare_cont Eq ma mb).
Qed.

Lemma SFcompare_refl (a : spec_float) :
  a <> S754_nan -> SFcompare a a = Some Eq.
Proof.
  destruct a as [s|s| |s m e]; simpl; intros H; try congruence.
  - now destruct s.
  - destruct s; rewrite Z.compare_refl, Pos.compare_cont_refl; reflexivity.
Qed.

Lemma finite_compare_cases (sx sy : bool) (mx my : positive) (ex ey : Z) c :
  SFcompare (S754_finite sx mx ex) (S754_finite sy my ey) = Some c ->
  match c with
  | Lt => (sx = true /\ sy = false)
          \/ (sx = false /\ sy = false
              /\ ((ex < ey)%Z \/ ex = ey /\ (mx < my)%positive))
          \/ (sx = true /\ sy = true
              /\ ((ey < ex)%Z \/ ex = ey /\ (my < mx)%positive))
  | Eq => sx = sy /\ ex = ey /\ mx = my
  | Gt => True
  end.
Proof.
  simpl. intros H. injection H as H.
  change (PosDef.Pos.compare_cont Eq mx my) with (Pos.compare mx my) in H.
  destruct sx, sy; subst c; try tauto;
    destruct (Z.compare_spec ex ey) as [E|E|E]; simpl;
    destruct (Pos.compare_spec mx my) as [M|M|M]; simpl; auto 10.
Qed.

Lemma ltb_SFcompare (a b : float) :
  (a <? b) = true <-> SFcompare (SF a) (SF b) = Some Lt.
Proof.
  rewrite ltb_spec. unfold SFltb.
  destruct (SFcompare (SF a) (SF b)) as [[]|]; split; congruence.
Qed.

(** [a < b] excludes [b <= a]. *)
Lemma ltb_leb_flip (a b : float) : (a <? b) = true -> (b <=? a) = false.
Proof.
  rewrite ltb_SFcompare, leb_spec. unfold SFleb. intros H.
  now rewrite SFcompare_antisym, H.
Qed.

Lemma ltb_antisym (a b : float) : (a <? b) = true -> (b <? a) = false.
Proof.
  rewrite ltb_SFcompare, (ltb_spec b a). unfold SFltb. intros H.
  now rewrite SFcompare_antisym, H.
Qed.

Lemma ltb_leb (a b : float) : (a <? b) = true -> (a <=? b) = true.
Proof.
  rewrite ltb_SFcompare, leb_spec. unfold SFleb. now intros ->.
Qed.

Lemma ltb_not_eqb (a b : float) : (a <? b) = true -> (b =? a) = false.
Proof.
  rewrite ltb_SFcompare, eqb_spec. unfold SFeqb. intros H.
  now rewrite SFcompare_antisym, H.
Qed.

(** *** NaN and finiteness *)

Lemma is_nan_SF (a : float) : is_nan a = true <-> SF a = S754_nan.
Proof.
  unfold is_nan. rewrite eqb_spec. unfold SFeqb. split.
  - intros H. destruct (SF a) eqn:E; try reflexivity;
      rewrite SFcompare_refl in H by congruence; discriminate.
  - now intros ->.
Qed.

Lemma not_nan_SF (a : float) : is_nan a = false <-> SF a <> S754_nan.
Proof.
  rewrite <- is_nan_SF. destruct (is_nan a); split; congruence.
Qed.

Lemma is_finite_SF (x : float) : is_finite x = true -> finite_sf (SF x).
Proof.
  unfold is_finite, is_infinity. rewrite negb_true_iff, orb_false_iff.
  rewrite eqb_spec, abs_spec. intros [Hn Hi].
  apply not_nan_SF in Hn.
  destruct (SF x) as [s|s| |s m e]; simpl; try exact I; try congruence.
  discriminate Hi.
Qed.

(** *** Rounding never invents a NaN and keeps the sign *)

Lemma iter_pos_invariant {A} (P : A -> Prop) (f : A -> A) :
  (forall x, P x -> P (f x)) -> forall n x, P x -> P (iter_pos f n x).
Proof.
  intros Hf. induction n as [n IH|n IH|]; simpl; intros x Hx; auto.
Qed.

Lemma shr_1_nonneg mrs : (0 <= shr_m mrs)%Z -> (0 <= shr_m (shr_1 mrs))%Z.
Proof.
  destruct mrs as [[|p|p] r s]; simpl; try lia; destruct p; simpl; lia.
Qed.

Lemma shr_nonneg mrs e n :
  (0 <= shr_m mrs)%Z -> (0 <= shr_m (fst (shr mrs e n)))%Z.
Proof.
  intros H. destruct n; simpl; auto.
  now apply (iter_pos_invariant (fun x => (0 <= shr_m x)%Z));
    [apply shr_1_nonneg|].
Qed.

Lemma shr_fexp_nonneg prec emax m e l :
  (0 <= m)%Z -> (0 <= shr_m (fst (shr_fexp prec emax m e l)))%Z.
Proof.
  intros H. unfold shr_fexp. apply shr_nonneg.
  destruct l as [|[]]; simpl; exact H.
Qed.

Lemma round_nearest_even_nonneg m l :
  (0 <= m)%Z -> (0 <= round_nearest_even m l)%Z.
Proof.
  intros H. destruct l as [|[]]; simpl; try lia. destruct (Z.even m); lia.
Qed.

Lemma binary_round_aux_signed prec emax s m e l :
  (0 <= m)%Z -> signed s (binary_round_aux prec emax s m e l).
Proof.
  intros H. unfold binary_round_aux.
  pose proof (shr_fexp_nonneg prec emax m e l H) as H1.
  destruct (shr_fexp prec emax m e l) as [mrs' e'] eqn:E1. simpl in H1.
  set (m1 := round_nearest_even (shr_m mrs') (loc_of_shr_record mrs')).
  assert (H2 : (0 <= m1)%Z) by now apply round_nearest_even_nonneg.
  pose proof (shr_fexp_nonneg prec emax m1 e' loc_Exact H2) as H3.
  destruct (shr_fexp prec emax m1 e' loc_Exact) as [mrs'' e''] eqn:E2.
  simpl in H3.
  destruct (shr_m mrs'') as [|p|p]; simpl; try reflexivity; try lia.
  now destruct (e'' <=? emax - prec)%Z.
Qed.

Lemma binary_round_signed prec emax s m e :
  signed s (binary_round prec emax s m e).
Proof.
  unfold binary_round.
  destruct (shl_align m e _) as [mz ez].
  now apply binary_round_aux_signed.
Qed.

Lemma binary_normalize_neg prec emax z e sz :
  (z < 0)%Z -> signed true (binary_normalize prec emax z e sz).
Proof.
  destruct z; try lia. intros _. apply binary_round_signed.
Qed.

Lemma binary_normalize_not_nan prec emax z e sz :
  binary_normalize prec emax z e sz <> S754_nan.
Proof.
  destruct z as [|p|p]; simpl; try congruence.
  - pose proof (binary_round_signed prec emax false p e) as H.
    destruct (binary_round prec emax false p e); simpl in H; congruence.
  - pose proof (binary_round_signed prec emax true p e) as H.
    destruct (binary_round prec emax true p e); simpl in H; congruence.
Qed.

(** *** Canonical mantissas and aligned differences *)

Lemma digits2_pos_bounds (m : positive) :
  (2 ^ (Zpos (digits2_pos m) - 1) <= Zpos m < 2 ^ Zpos (digits2_pos m))%Z.
Proof.
  induction m as [m IH|m IH|]; simpl digits2_pos.
  - rewrite Pos2Z.inj_succ, Z.pow_succ_r by lia.
    replace (Z.succ (Z.pos (digits2_pos m)) - 1)%Z
      with (Z.succ (Z.pos (digits2_pos m) - 1)) by lia.
    rewrite Z.pow_succ_r by lia. lia.
  - rewrite Pos2Z.inj_succ, Z.pow_succ_r by lia.
    replace (Z.succ (Z.pos (digits2_pos m)) - 1)%Z
      with (Z.succ (Z.pos (digits2_pos m) - 1)) by lia.
    rewrite Z.pow_succ_r by lia. lia.
  - simpl. lia.
Qed.

Lemma iter_xO_pow2 (m d : positive) :
  Zpos (Pos.iter xO m d) = (Zpos m * 2 ^ Zpos d)%Z.
Proof.
  induction d as [|d IH] using Pos.peano_ind.
  - simpl. lia.
  - rewrite Pos.iter_succ, Pos2Z.inj_succ, Z.pow_succ_r by lia.
    rewrite Pos2Z.inj_xO, IH. lia.
Qed.

Lemma shl_align_value (m : positive) (e e' : Z) :
  (e' <= e)%Z -> Zpos (fst (shl_align m e e')) = (Zpos m * 2 ^ (e - e'))%Z.
Proof.
  intros H. unfold shl_align.
  destruct (e' - e)%Z as [|p|p] eqn:E; simpl fst.
  - replace (e - e')%Z with 0%Z by lia. simpl. lia.
  - lia.
  - rewrite iter_xO_pow2. f_equal. f_equal. lia.
Qed.

(** A canonical binary64 mantissa has at most 53 bits, and exactly 53 bits
    above the smallest exponent. *)
Lemma bounded_canonical (m : positive) (e : Z) :
  bounded prec emax m e = true ->
  (Zpos m < 2 ^ 53 /\ (-1074 <= e) /\ (-1074 < e -> 2 ^ 52 <= Zpos m))%Z.
Proof.
  unfold bounded, canonical_mantissa, SpecFloat.fexp, SpecFloat.emin, prec, emax.
  rewrite andb_true_iff, Z.eqb_eq, Z.leb_le. intros [Hc _].
  pose proof (digits2_pos_bounds m) as [Hlo Hhi].
  assert (Hd : (Zpos (digits2_pos m) <= 53)%Z) by lia.
  split; [|split].
  - eapply Z.lt_le_trans; [exact Hhi|]. apply Z.pow_le_mono_r; lia.
  - lia.
  - intros He. assert (Zpos (digits2_pos m) = 53)%Z as Hd' by lia.
    rewrite Hd' in Hlo. exact Hlo.
Qed.

(** Mantissas aligned on the smaller exponent compare like the values. *)
Lemma aligned_lt (m1 m2 : positive) (e1 e2 : Z) :
  bounded prec emax m1 e1 = true -> bounded prec emax m2 e2 = true ->
  (e1 < e2)%Z ->
  (Zpos (fst (shl_align m1 e1 (Z.min e1 e2)))
   < Zpos (fst (shl_align m2 e2 (Z.min e1 e2))))%Z.
Proof.
  intros B1 B2 He.
  destruct (bounded_canonical _ _ B1) as (H1 & H1e & _).
  destruct (bounded_canonical _ _ B2) as (_ & _ & H2).
  rewrite !shl_align_value by lia.
  rewrite Z.min_l by lia. rewrite Z.sub_diag, Z.mul_1_r.
  assert (2 ^ 1 <= 2 ^ (e2 - e1))%Z by (apply Z.pow_le_mono_r; lia).
  specialize (H2 ltac:(lia)). nia.
Qed.

Lemma aligned_diff_neg (sx sy : bool) (mx my : positive) (ex ey : Z) :
  bounded prec emax mx ex = true -> bounded prec emax my ey = true ->
  SFcompare (S754_finite sx mx ex) (S754_finite sy my ey) = Some Lt ->
  (cond_Zopp sx (Zpos (fst (shl_align mx ex (Z.min ex ey))))
   - cond_Zopp sy (Zpos (fst (shl_align my ey (Z.min ex ey)))) < 0)%Z.
Proof.
  intros Vx Vy H. apply finite_compare_cases in H.
  destruct H as [(-> & ->)|[(-> & -> & H)|(-> & -> & H)]]; unfold cond_Zopp.
  - lia.
  - destruct H as [E|[-> M]].
    + pose proof (aligned_lt mx my ex ey Vx Vy E). lia.
    + rewrite Z.min_id, !shl_align_value, Z.sub_diag by lia. lia.
  - destruct H as [E|[-> M]].
    + pose proof (aligned_lt my mx ey ex Vy Vx E) as A.
      rewrite (Z.min_comm ey ex) in A. lia.
    + rewrite Z.min_id, !shl_align_value, Z.sub_diag by lia. lia.
Qed.

(** *** Subtraction *)

(** The difference of a smaller and a larger number is negative. *)
Lemma SFsub_of_lt (x y : spec_float) :
  valid_binary x = true -> valid_binary y = true ->
  SFcompare x y = Some Lt -> signed true (SF64sub x y).
Proof.
  intros Vx Vy H.
  destruct x as [sx|sx| |sx mx ex], y as [sy|sy| |sy my ey];
    try discriminate;
    try (destruct sx; simpl in *; congruence);
    try (destruct sy; simpl in *; congruence);
    try (destruct sx, sy; simpl in *; congruence).
  apply binary_normalize_neg. now apply aligned_diff_neg.
Qed.

(** The difference of two equal finite numbers is a zero. *)
Lemma SFsub_of_eq (x y : spec_float) :
  SFcompare x y = Some Eq -> finite_sf y ->
  exists s, SF64sub x y = S754_zero s.
Proof.
  intros H Hy.
  destruct x as [sx|sx| |sx mx ex], y as [sy|sy| |sy my ey];
    try discriminate; try contradiction;
    try (destruct sx; discriminate); try (destruct sy; discriminate).
  - destruct sx, sy; simpl; eauto.
  - apply finite_compare_cases in H. destruct H as (-> & -> & ->).
    unfold SF64sub, SFsub. rewrite Z.sub_diag. simpl. eauto.
Qed.

Lemma sub_finite_not_nan (a b : float) :
  is_finite a = true -> is_finite b = true -> is_nan (a - b) = false.
Proof.
  intros Ha Hb. apply is_finite_SF in Ha, Hb. apply not_nan_SF.
  rewrite sub_spec.
  destruct (SF a) as [sa|sa| |sa ma ea], (SF b) as [sb|sb| |sb mb eb];
    simpl in *; try contradiction; try congruence.
  - destruct sa, sb; congruence.
  - apply binary_normalize_not_nan.
Qed.

(** *** [Math.max] and the clamps of the component *)

Lemma Math_max_zero_nonpos (d : float) : nonpos_sf (SF d) -> Math_max 0 d = 0.
Proof.
  intros H. unfold Math_max.
  assert (Hn : is_nan d = false).
  { apply not_nan_SF. destruct (SF d); simpl in H; congruence. }
  rewrite Hn. change (is_nan 0) with false. simpl orb. cbv iota.
  assert (H0 : (0 <? d) = false).
  { rewrite ltb_spec. change (SF 0) with (S754_zero false).
    destruct (SF d) as [s|[]| |[] m e]; simpl in H; try contradiction;
      reflexivity. }
  rewrite H0. destruct (d <? 0); reflexivity.
Qed.

Lemma signed_true_nonpos (r : spec_float) : signed true r -> nonpos_sf r.
Proof. destruct r as [?|[]| |[] ? ?]; simpl; congruence || auto. Qed.

(** [Math.max(0, x - s)] is [0] for [x] below [s]. *)
Lemma clamp_below (x s : float) : (x <? s) = true -> Math_max 0 (x - s) = 0.
Proof.
  intros H. apply Math_max_zero_nonpos. rewrite sub_spec.
  apply ltb_SFcompare in H. apply signed_true_nonpos.
  exact (SFsub_of_lt _ _ (Prim2SF_valid x) (Prim2SF_valid s) H).
Qed.

(** [Math.max(0, x - s)] is [0] for [x] at or below a finite [s]. *)
Lemma clamp_at_or_below (x s : float) :
  (x <=? s) = true -> is_finite s = true -> Math_max 0 (x - s) = 0.
Proof.
  intros H Hs. apply Math_max_zero_nonpos. rewrite sub_spec.
  rewrite leb_spec in H. unfold SFleb in H. apply is_finite_SF in Hs.
  destruct (SFcompare (SF x) (SF s)) as [[]|] eqn:E; try discriminate.
  - destruct (SFsub_of_eq _ _ E Hs) as [z ->]. exact I.
  - apply signed_true_nonpos.
    exact (SFsub_of_lt _ _ (Prim2SF_valid x) (Prim2SF_valid s) E).
Qed.

Lemma zero_div (y : float) : (0 <? y) = true -> 0 / y = 0.
Proof.
  intros H. apply Prim2SF_inj. rewrite div_spec.
  rewrite ltb_spec in H. change (SF 0) with (S754_zero false) in *.
  destruct (SF y) as [s|[]| |[] m e]; simpl in H; try discriminate;
    reflexivity.
Qed.

(** [Math.max(a, b)] is at least [a]. *)
Lemma Math_max_lower (a b : float) :
  is_nan a = false -> is_nan b = false -> (a <=? Math_max a b) = true.
Proof.
  intros Ha Hb. unfold Math_max. rewrite Ha, Hb. simpl orb. cbv iota.
  destruct (a <? b) eqn:E.
  - now apply ltb_leb.
  - assert (R : (a <=? a) = true).
    { rewrite leb_spec. unfold SFleb. rewrite SFcompare_refl; [reflexivity|].
      now apply not_nan_SF. }
    destruct (b <? a) eqn:E2; [exact R|].
    destruct (get_sign a); [|exact R].
    rewrite leb_spec. rewrite ltb_spec in E, E2. unfold SFltb, SFleb in *.
    apply not_nan_SF in Ha, Hb.
    rewrite (SFcompare_antisym (SF a) (SF b)) in E2.
    destruct (SFcompare (SF a) (SF b)) as [[]|] eqn:C; simpl in *;
      try congruence.
    destruct (SF a), (SF b); simpl in C; try congruence;
      repeat match type of C with
        | context [if ?s then _ else _] => destruct s
        end; congruence.
Qed.

(** [Math.max(a, b)] is [a] when [b] is below it. *)
Lemma Math_max_left (a b : float) : (b <? a) = true -> Math_max a b = a.
Proof.
  intros H. unfold Math_max.
  assert (Ha : is_nan a = false).
  { apply not_nan_SF. apply ltb_SFcompare in H. intros E. rewrite E in H.
    destruct (SF b); discriminate. }
  assert (Hb : is_nan b = false).
  { apply not_nan_SF. apply ltb_SFcompare in H. intros E. rewrite E in H.
    discriminate. }
  now rewrite Ha, Hb, (ltb_antisym _ _ H), H.
Qed.

(** *** Operations on finite numbers never yield NaN *)

Lemma mul_finite_not_nan (a b : float) :
  is_finite a = true -> is_finite b = true -> is_nan (a * b) = false.
Proof.
  intros Ha Hb. apply is_finite_SF in Ha, Hb. apply not_nan_SF.
  rewrite mul_spec.
  destruct (SF a) as [sa|sa| |sa ma ea], (SF b) as [sb|sb| |sb mb eb];
    simpl in *; try contradiction; try congruence.
  pose proof (binary_round_aux_signed prec emax (xorb sa sb)
                (Zpos (ma * mb)) (ea + eb) loc_Exact ltac:(lia)) as H.
  unfold SF64mul, SFmul.
  destruct (binary_round_aux prec emax (xorb sa sb) (Zpos (ma * mb))
              (ea + eb) loc_Exact);
    simpl in H; congruence.
Qed.

Lemma add_finite_not_nan (a b : float) :
  is_finite a = true -> is_finite b = true -> is_nan (a + b) = false.
Proof.
  intros Ha Hb. apply is_finite_SF in Ha, Hb. apply not_nan_SF.
  rewrite add_spec.
  destruct (SF a) as [sa|sa| |sa ma ea], (SF b) as [sb|sb| |sb mb eb];
    simpl in *; try contradiction; try congruence.
  - destruct sa, sb; congruence.
  - apply binary_normalize_not_nan.
Qed.

Lemma div_finite_not_nan (a b : float) :
  is_finite a = true -> is_finite b = true -> (b =? 0) = false ->
  is_nan (a / b) = false.
Proof.
  intros Ha Hb Hz. apply is_finite_SF in Ha, Hb. apply not_nan_SF.
  rewrite div_spec. rewrite eqb_spec in Hz.
  change (SF 0) with (S754_zero false) in Hz.
  destruct (SF a) as [sa|sa| |sa ma ea], (SF b) as [sb|sb| |sb mb eb];
    simpl in *; try contradiction; try congruence; try discriminate.
  unfold SF64div, SFdiv.
  destruct (SFdiv_core_binary prec emax (Zpos ma) ea (Zpos mb) eb)
    as [[mz ez] lz] eqn:E.
  assert (Q : (0 <= mz)%Z).
  { unfold SFdiv_core_binary in E.
    match type of E with
    | context [Z.div_eucl ?m' ?m2] =>
        assert (M : (0 <= m')%Z);
        [| pose proof (Z.div_pos m' m2 M ltac:(lia)) as D;
           unfold Z.div in D; destruct (Z.div_eucl m' m2) as [q r] ]
    end.
    - match goal with
      | |- context [match ?s with Z0 => _ | Zpos _ => _ | Zneg _ => _ end] =>
          destruct s eqn:Es
      end; try lia.
      apply Z.shiftl_nonneg. lia.
    - injection E as <- _ _. exact D. }
  pose proof (binary_round_aux_signed prec emax (xorb sa sb) mz ez lz Q) as H.
  destruct (binary_round_aux prec emax (xorb sa sb) mz ez lz);
    simpl in H; congruence.
Qed.

Lemma finite_not_nan (v : float) : is_finite v = true -> is_nan v = false.
Proof. unfold is_finite. now destruct (is_nan v). Qed.

Lemma finite_of_not_nan_inf (v : float) :
  is_nan v = false -> is_infinity v = false -> is_finite v = true.
Proof. intros N I. unfold is_finite. now rewrite N, I. Qed.

(** An operation on finite numbers that does not overflow is finite. *)
Lemma add_finite (a b : float) :
  is_finite a = true -> is_finite b = true ->
  is_infinity (a + b) = false -> is_finite (a + b) = true.
Proof. intros. apply finite_of_not_nan_inf; auto using add_finite_not_nan. Qed.

Lemma sub_finite (a b : float) :
  is_finite a = true -> is_finite b = true ->
  is_infinity (a - b) = false -> is_finite (a - b) = true.
Proof. intros. apply finite_of_not_nan_inf; auto using sub_finite_not_nan. Qed.

Lemma mul_finite (a b : float) :
  is_finite a = true -> is_finite b = true ->
  is_infinity (a * b) = false -> is_finite (a * b) = true.
Proof. intros. apply finite_of_not_nan_inf; auto using mul_finite_not_nan. Qed.

Lemma div_finite (a b : float) :
  is_finite a = true -> is_finite b = true -> (b =? 0) = false ->
  is_infinity (a / b) = false -> is_finite (a / b) = true.
Proof. intros. apply finite_of_not_nan_inf; auto using div_finite_not_nan. Qed.

Lemma Math_max_finite (a b : float) :
  is_finite a = true -> is_finite b = true -> is_finite (Math_max a b) = true.
Proof.
  intros Ha Hb. unfold Math_max.
  rewrite (finite_not_nan _ Ha), (finite_not_nan _ Hb). simpl.
  destruct (a <? b); [exact Hb|]. destruct (b <? a); [exact Ha|].
  now destruct (get_sign a).
Qed.

(** NaN is contagious. *)
Lemma add_nan_r (x : float) : x + nan = nan.
Proof.
  apply Prim2SF_inj. rewrite add_spec. change (SF nan) with S754_nan.
  now destruct (SF x).
Qed.

Lemma add_nan_l (x : float) : nan + x = nan.
Proof.
  apply Prim2SF_inj. rewrite add_spec. change (SF nan) with S754_nan.
  reflexivity.
Qed.

(** The stand-in sines map finite numbers to finite numbers. *)
Lemma sin_poly_finite (x : float) :
  is_finite x = true -> is_finite (sin_poly x) = true.
Proof.
  intros H. unfold sin_poly. rewrite H. simpl.
  destruct (is_zero x); [exact H|].
  match goal with |- context [if is_finite ?y then _ else _] =>
    destruct (is_finite y) eqn:E end; [exact E|reflexivity].
Qed.

Lemma sin_tabulated_finite (x : float) :
  is_finite x = true -> is_finite (sin_tabulated x) = true.
Proof.
  intros H. unfold sin_tabulated.
  repeat match goal with |- context [if ?a =? ?b then _ else _] =>
    destruct (a =? b) end; try reflexivity.
  now apply sin_poly_finite.
Qed.

(** *** The order is transitive *)

Lemma finite_compare_lt (sx sy : bool) (mx my : positive) (ex ey : Z) :
  (sx = true /\ sy = false)
  \/ (sx = false /\ sy = false
      /\ ((ex < ey)%Z \/ ex = ey /\ (mx < my)%positive))
  \/ (sx = true /\ sy = true
      /\ ((ey < ex)%Z \/ ex = ey /\ (my < mx)%positive)) ->
  SFcompare (S754_finite sx mx ex) (S754_finite sy my ey) = Some Lt.
Proof.
  simpl.
  change (PosDef.Pos.compare_cont Eq mx my) with (Pos.compare mx my).
  intros [[-> ->]|[(-> & -> & H)|(-> & -> & H)]]; [reflexivity| |];
    destruct (Z.compare_spec ex ey) as [E|E|E];
    destruct (Pos.compare_spec mx my) as [M|M|M]; simpl;
    try reflexivity; exfalso; lia.
Qed.

(** Below-or-equal composes, and the result is an equality only when both
    steps are. *)
Lemma SFcompare_trans (a b c : spec_float) (c1 c2 : comparison) :
  SFcompare a b = Some c1 -> SFcompare b c = Some c2 ->
  c1 <> Gt -> c2 <> Gt ->
  SFcompare a c = Some (match c1, c2 with Eq, Eq => Eq | _, _ => Lt end).
Proof.
  intros H1 H2 N1 N2.
  destruct a as [sa|sa| |sa ma ea], b as [sb|sb| |sb mb eb],
    c as [sc|sc| |sc mc ec];
    try discriminate;
    repeat match goal with
      | H : SFcompare (S754_finite _ _ _) (S754_finite _ _ _) = Some _ |- _ =>
          let K := fresh "K" in
          pose proof (finite_compare_cases _ _ _ _ _ _ _ H) as K;
          revert H
      end; intros;
    destruct c1, c2; try congruence;
    try apply finite_compare_lt;
    repeat match goal with
      | s : bool |- _ => destruct s
      end; simpl in *; try congruence;
    intuition (try discriminate; try congruence; try lia;
               try (subst; assumption)).
Qed.

Lemma leb_SFcompare (a b : float) :
  (a <=? b) = true
  <-> SFcompare (SF a) (SF b) = Some Lt \/ SFcompare (SF a) (SF b) = Some Eq.
Proof.
  rewrite leb_spec. unfold SFleb.
  destruct (SFcompare (SF a) (SF b)) as [[]|]; split;
    intros; try tauto; try discriminate; intuition discriminate.
Qed.

Lemma eqb_SFcompare (a b : float) :
  (a =? b) = true <-> SFcompare (SF a) (SF b) = Some Eq.
Proof.
  rewrite eqb_spec. unfold SFeqb.
  destruct (SFcompare (SF a) (SF b)) as [[]|]; split; congruence.
Qed.

Lemma leb_trans (a b c : float) :
  (a <=? b) = true -> (b <=? c) = true -> (a <=? c) = true.
Proof.
  rewrite !leb_SFcompare.
  intros [H1|H1] [H2|H2];
    rewrite (SFcompare_trans _ _ _ _ _ H1 H2) by discriminate; auto.
Qed.

Lemma ltb_leb_trans (a b c : float) :
  (a <? b) = true -> (b <=? c) = true -> (a <? c) = true.
Proof.
  rewrite !ltb_SFcompare, leb_SFcompare.
  intros H1 [H2|H2];
    now rewrite (SFcompare_trans _ _ _ _ _ H1 H2) by discriminate.
Qed.

Lemma eqb_leb (a b : float) : (a =? b) = true -> (a <=? b) = true.
Proof. rewrite eqb_SFcompare, leb_SFcompare. auto. Qed.

Lemma eqb_sym (a b : float) : (a =? b) = true -> (b =? a) = true.
Proof.
  rewrite !eqb_SFcompare. intros H. now rewrite SFcompare_antisym, H.
Qed.

Lemma eqb_trans (a b c : float) :
  (a =? b) = true -> (b =? c) = true -> (a =? c) = true.
Proof.
  rewrite !eqb_SFcompare. intros H1 H2.
  now rewrite (SFcompare_trans _ _ _ _ _ H1 H2) by discriminate.
Qed.

Lemma leb_refl (a : float) : is_nan a = false -> (a <=? a) = true.
Proof.
  intros H. apply leb_SFcompare. right. apply SFcompare_refl.
  now apply not_nan_SF.
Qed.

Lemma eqb_refl (a : float) : is_nan a = false -> (a =? a) = true.
Proof.
  intros H. apply eqb_SFcompare. apply SFcompare_refl. now apply not_nan_SF.
Qed.

(** A comparison that holds has no NaN on either side. *)
Lemma leb_not_nan (a b : float) :
  (a <=? b) = true -> is_nan a = false /\ is_nan b = false.
Proof.
  rewrite leb_SFcompare, !not_nan_SF. intros H.
  split; intros E; rewrite E in H; destruct H as [H|H];
    try discriminate; destruct (SF a); discriminate.
Qed.

(** Two numbers, neither below the other, are equal. *)
Lemma not_ltb_eqb (a b : float) :
  is_nan a = false -> is_nan b = false ->
  (a <? b) = false -> (b <? a) = false -> (a =? b) = true.
Proof.
  rewrite !not_nan_SF, !ltb_spec, eqb_spec. unfold SFltb, SFeqb.
  intros Ha Hb. rewrite (SFcompare_antisym (SF a) (SF b)).
  destruct (SFcompare (SF a) (SF b)) as [[]|] eqn:C; simpl; try congruence.
  intros _ _. exfalso.
  destruct (SF a), (SF b); simpl in C; try congruence;
    repeat match type of C with
      | context [if ?s then _ else _] => destruct s
      end; congruence.
Qed.

Lemma leb_not_ltb (a b : float) : (a <=? b) = true -> (b <? a) = false.
Proof.
  rewrite leb_SFcompare, ltb_spec. unfold SFltb.
  rewrite (SFcompare_antisym (SF a) (SF b)). now intros [-> | ->].
Qed.

(** *** [Math.min], and [Math.max] from above *)

Lemma Math_min_nan (a b : float) :
  is_nan a || is_nan b = true -> Math_min a b = nan.
Proof. unfold Math_min. now intros ->. Qed.

Lemma Math_max_nan (a b : float) :
  is_nan a || is_nan b = true -> Math_max a b = nan.
Proof. unfold Math_max. now intros ->. Qed.

(** [Math.min] returns one of its arguments, which the other is not
    below. *)
Lemma Math_min_cases (a b : float) :
  is_nan a = false -> is_nan b = false ->
  (Math_min a b = a /\ (a <=? b) = true)
  \/ (Math_min a b = b /\ (b <=? a) = true).
Proof.
  intros Ha Hb. unfold Math_min. rewrite Ha, Hb. simpl orb. cbv iota.
  destruct (a <? b) eqn:E; [left; split; [reflexivity|now apply ltb_leb]|].
  destruct (b <? a) eqn:E2; [right; split; [reflexivity|now apply ltb_leb]|].
  pose proof (not_ltb_eqb a b Ha Hb E E2) as Q.
  destruct (get_sign a); [left|right]; split; try reflexivity.
  - now apply eqb_leb.
  - now apply eqb_leb, eqb_sym.
Qed.

Lemma Math_max_cases (a b : float) :
  is_nan a = false -> is_nan b = false ->
  (Math_max a b = a /\ (b <=? a) = true)
  \/ (Math_max a b = b /\ (a <=? b) = true).
Proof.
  intros Ha Hb. unfold Math_max. rewrite Ha, Hb. simpl orb. cbv iota.
  destruct (a <? b) eqn:E; [right; split; [reflexivity|now apply ltb_leb]|].
  destruct (b <? a) eqn:E2; [left; split; [reflexivity|now apply ltb_leb]|].
  pose proof (not_ltb_eqb a b Ha Hb E E2) as Q.
  destruct (get_sign a); [right|left]; split; try reflexivity.
  - now apply eqb_leb.
  - now apply eqb_leb, eqb_sym.
Qed.

Lemma Math_min_le_l (a b : float) :
  is_nan a = false -> is_nan b = false -> (Math_min a b <=? a) = true.
Proof.
  intros Ha Hb.
  destruct (Math_min_cases a b Ha Hb) as [[-> _]|[-> H]];
    [now apply leb_refl|exact H].
Qed.

Lemma Math_min_le_r (a b : float) :
  is_nan a = false -> is_nan b = false -> (Math_min a b <=? b) = true.
Proof.
  intros Ha Hb.
  destruct (Math_min_cases a b Ha Hb) as [[-> H]|[-> _]];
    [exact H|now apply leb_refl].
Qed.

(** [Math.min(a, b)] is the smaller one. *)
Lemma Math_min_left (a b : float) : (a <? b) = true -> Math_min a b = a.
Proof.
  intros H. unfold Math_min.
  destruct (leb_not_nan _ _ (ltb_leb _ _ H)) as [Ha Hb].
  now rewrite Ha, Hb, H.
Qed.

Lemma Math_min_right (a b : float) : (b <? a) = true -> Math_min a b = b.
Proof.
  intros H. unfold Math_min.
  destruct (leb_not_nan _ _ (ltb_leb _ _ H)) as [Hb Ha].
  now rewrite Ha, Hb, (ltb_antisym _ _ H), H.
Qed.

(** A finite number divided by a zero is NaN or an infinity. *)
Lemma div_by_zero (a b : float) :
  is_finite a = true -> (b =? 0) = true ->
  is_nan (a / b) = true \/ is_infinity (a / b) = true.
Proof.
  intros Ha Hb. apply is_finite_SF in Ha.
  rewrite eqb_spec in Hb. change (SF 0) with (S754_zero false) in Hb.
  unfold is_infinity. rewrite is_nan_SF, eqb_spec, abs_spec, div_spec.
  change (SF infinity) with (S754_infinity false).
  destruct (SF a) as [sa|sa| |sa ma ea]; try contradiction;
    destruct (SF b) as [sb|sb| |sb mb eb]; try discriminate Hb;
    try (left; reflexivity); try (right; reflexivity);
    try (destruct sb; discriminate Hb).
Qed.

(** What is at most [Math.min(a, b)] is at most [a] and at most [b]. *)
Lemma leb_Math_min (x a b : float) :
  (x <=? Math_min a b) = true -> (x <=? a) = true /\ (x <=? b) = true.
Proof.
  intros H.
  destruct (is_nan a || is_nan b) eqn:N.
  - rewrite (Math_min_nan _ _ N) in H. apply leb_not_nan in H.
    destruct H as [_ H]. discriminate H.
  - apply orb_false_iff in N. destruct N as [Ha Hb]. split.
    + exact (leb_trans _ _ _ H (Math_min_le_l a b Ha Hb)).
    + exact (leb_trans _ _ _ H (Math_min_le_r a b Ha Hb)).
Qed.

Lemma Math_min_glb (x a b : float) :
  (x <=? a) = true -> (x <=? b) = true -> (x <=? Math_min a b) = true.
Proof.
  intros Ha Hb.
  destruct (leb_not_nan _ _ Ha) as [_ Na], (leb_not_nan _ _ Hb) as [_ Nb].
  now destruct (Math_min_cases a b Na Nb) as [[-> _]|[-> _]].
Qed.

Lemma Math_max_upper (a b : float) :
  is_nan a = false -> is_nan b = false -> (b <=? Math_max a b) = true.
Proof.
  intros Ha Hb.
  destruct (Math_max_cases a b Ha Hb) as [[-> H]|[-> _]];
    [exact H|now apply leb_refl].
Qed.

Lemma Math_max_not_nan (a b : float) :
  is_nan a = false -> is_nan b = false -> is_nan (Math_max a b) = false.
Proof.
  intros Ha Hb. now destruct (Math_max_cases a b Ha Hb) as [[-> _]|[-> _]].
Qed.

(** [Math.max(a, .)] applied twice is [Math.max(a, .)]. *)
Lemma Math_max_idem (a b : float) :
  Math_max a (Math_max a b) = Math_max a b.
Proof.
  destruct (is_nan a || is_nan b) eqn:N.
  - rewrite (Math_max_nan a b N). apply Math_max_nan.
    now rewrite orb_true_r.
  - apply orb_false_iff in N. destruct N as [Ha Hb].
    destruct (Math_max_cases a b Ha Hb) as [[E _]|[E _]]; rewrite E.
    + unfold Math_max. rewrite Ha. simpl orb.
      assert (L : (a <? a) = false).
      { rewrite ltb_spec. unfold SFltb.
        rewrite SFcompare_refl; [reflexivity|now apply not_nan_SF]. }
      rewrite L. now destruct (get_sign a).
    + exact E.
Qed.

(** A finite number minus, or plus, a number is no NaN. *)
Lemma sub_not_nan_l (a b : float) :
  is_finite a = true -> is_nan b = false -> is_nan (a - b) = false.
Proof.
  intros Ha Hb. apply is_finite_SF in Ha. apply not_nan_SF in Hb.
  apply not_nan_SF. rewrite sub_spec.
  destruct (SF a) as [sa|sa| |sa ma ea], (SF b) as [sb|sb| |sb mb eb];
    simpl in *; try contradiction; try congruence.
  - destruct sa, sb; congruence.
  - apply binary_normalize_not_nan.
Qed.

Lemma sub_not_nan_r (a b : float) :
  is_nan a = false -> is_finite b = true -> is_nan (a - b) = false.
Proof.
  intros Ha Hb. apply is_finite_SF in Hb. apply not_nan_SF in Ha.
  apply not_nan_SF. rewrite sub_spec.
  destruct (SF a) as [sa|sa| |sa ma ea], (SF b) as [sb|sb| |sb mb eb];
    simpl in *; try contradiction; try congruence.
  - destruct sa, sb; congruence.
  - apply binary_normalize_not_nan.
Qed.

Lemma add_not_nan_l (a b : float) :
  is_finite a = true -> is_nan b = false -> is_nan (a + b) = false.
Proof.
  intros Ha Hb. apply is_finite_SF in Ha. apply not_nan_SF in Hb.
  apply not_nan_SF. rewrite add_spec.
  destruct (SF a) as [sa|sa| |sa ma ea], (SF b) as [sb|sb| |sb mb eb];
    simpl in *; try contradiction; try congruence.
  - destruct sa, sb; congruence.
  - apply binary_normalize_not_nan.
Qed.

(** Dividing by a finite number other than zero keeps a number a number. *)
Lemma div_not_nan_l (a b : float) :
  is_nan a = false -> is_finite b = true -> (b =? 0) = false ->
  is_nan (a / b) = false.
Proof.
  intros Ha Hb Hz.
  destruct (is_infinity a) eqn:I.
  - apply is_finite_SF in Hb. apply not_nan_SF. rewrite div_spec.
    unfold is_infinity in I. rewrite eqb_spec, abs_spec in I.
    rewrite eqb_spec in Hz. change (SF 0) with (S754_zero false) in Hz.
    destruct (SF a) as [sa|sa| |sa ma ea]; try discriminate I;
      destruct (SF b) as [sb|sb| |sb mb eb];
      simpl in *; try contradiction; try congruence.
  - apply div_finite_not_nan; auto. now apply finite_of_not_nan_inf.
Qed.

End Float64.

(** ** The samplers and the polyline of the dual-universe canvas *)

Import JS DualUniverse Float64.

Section CurveFacts.

Variable Math_sin : float -> float.

Lemma NaN_not_finite : Number_isFinite NaN = false.
Proof. reflexivity. Qed.

(** C2. Outside a curve's active domain the sampler handed to [drawCurve]
    returns the non-finite sentinel NaN: right of the split point for the
    pre-split curve, left of it for either post-split branch. *)
Theorem samplers_nan_outside_domain (p : params) (t x : float) :
  ((splitX p <? x) = true ->
     preSplitSampler Math_sin p t x = NaN
     /\ Number_isFinite (preSplitSampler Math_sin p t x) = false)
  /\ ((x <? splitX p) = true ->
        u1Sampler Math_sin p t x = NaN
        /\ u2Sampler Math_sin p t x = NaN
        /\ Number_isFinite (u1Sampler Math_sin p t x) = false
        /\ Number_isFinite (u2Sampler Math_sin p t x) = false).
Proof.
  split; intros H; apply ltb_leb_flip in H.
  - unfold preSplitSampler. rewrite H. split; reflexivity.
  - unfold u1Sampler, u2Sampler. rewrite H. repeat split; reflexivity.
Qed.

(** The loop of [drawCurve] issues the calls of [plot] on the points it
    visits. *)
Lemma drawCurveLoop_plot (fuel : nat) (p : params) (m : layout)
  (sampler : float -> float) (bound step x : float) (penDown : bool) :
  drawCurveLoop fuel p m sampler bound step x penDown
  = option_map (plot p m sampler penDown) (samplePoints fuel bound step x).
Proof.
  revert x penDown. induction fuel as [|fuel IH]; intros x penDown; simpl.
  - reflexivity.
  - destruct (x <=? bound); [|reflexivity].
    rewrite !IH.
    destruct (samplePoints fuel bound step (x + step)) as [xs|]; simpl;
      unfold plotSample;
      destruct (negb (Number_isFinite (sampler x)));
      try destruct (negb penDown); reflexivity.
Qed.

Lemma plot_app (p : params) (m : layout) (sampler : float -> float)
  (xs ys : list float) (penDown : bool) :
  exists pen,
    plot p m sampler penDown (xs ++ ys)
    = plot p m sampler penDown xs ++ plot p m sampler pen ys
    /\ (ys = [] \/ forall x rest, ys = x :: rest ->
          Number_isFinite (sampler x) = false ->
          plot p m sampler pen ys = plot p m sampler false rest).
Proof.
  revert penDown. induction xs as [|x xs IH]; intros penDown; simpl.
  - exists penDown. split; [reflexivity|].
    destruct ys as [|y ys]; [now left|right].
    intros x rest E Hx. injection E as <- <-. simpl. unfold plotSample.
    now rewrite Hx.
  - destruct (plotSample p m sampler penDown x) as [cmds pen].
    destruct (IH pen) as (pen' & E & H). exists pen'.
    rewrite E, app_assoc. auto.
Qed.

(** A subpath drawn with the pen up starts with [moveTo], which starts
    afresh when the canvas accepts its point. *)
Lemma plot_pen_up_starts_afresh (p : params) (m : layout)
  (sampler : float -> float) (xs : list float)
  (cur : option (float * float)) :
  (forall v, firstFinite sampler xs = Some v -> drawn p m sampler v = true) ->
  segments cur (plot p m sampler false xs)
  = segments None (plot p m sampler false xs).
Proof.
  unfold firstFinite.
  induction xs as [|x xs IH]; intros H; simpl; [reflexivity|].
  unfold plotSample. simpl in H.
  destruct (Number_isFinite (sampler x)) eqn:F; simpl.
  - specialize (H x eq_refl). unfold drawn in H. now rewrite H.
  - now apply IH.
Qed.

Lemma segments_app (cmds rest : list path_cmd) (cur : option (float * float)) :
  exists cur', segments cur (cmds ++ rest)
               = segments cur cmds ++ segments cur' rest.
Proof.
  revert cur. induction cmds as [|[px py|px py] cmds IH]; intros cur; simpl.
  - now exists cur.
  - destruct (onPath px py); apply IH.
  - destruct (onPath px py); [|apply IH].
    destruct cur as [c|].
    + destruct (IH (Some (px, py))) as [cur' E]. exists cur'. now rewrite E.
    + apply IH.
Qed.

(** Both ends of a stroked segment are samples of the curve. *)
Lemma segments_between_samples (p : params) (m : layout)
  (sampler : float -> float) (xs : list float) (penDown : bool)
  (cur : option (float * float)) :
  Forall (fun seg =>
            (In (fst seg) (map (samplePoint p m sampler) xs)
             \/ cur = Some (fst seg))
            /\ In (snd seg) (map (samplePoint p m sampler) xs))
    (segments cur (plot p m sampler penDown xs)).
Proof.
  revert penDown cur. induction xs as [|x xs IH]; intros penDown cur; simpl.
  - constructor.
  - assert (W : forall c pen,
               Forall (fun seg =>
                    (In (fst seg) (samplePoint p m sampler x
                                   :: map (samplePoint p m sampler) xs)
                     \/ c = Some (fst seg))
                    /\ In (snd seg) (samplePoint p m sampler x
                                     :: map (samplePoint p m sampler) xs))
                 (segments (Some (samplePoint p m sampler x))
                    (plot p m sampler pen xs))).
    { intros c pen. eapply Forall_impl; [|apply IH].
      intros seg [[H|H] H']; simpl.
      - auto.
      - injection H as H. rewrite H. auto. }
    assert (Skip : forall pen,
               Forall (fun seg =>
                    (In (fst seg) (samplePoint p m sampler x
                                   :: map (samplePoint p m sampler) xs)
                     \/ cur = Some (fst seg))
                    /\ In (snd seg) (samplePoint p m sampler x
                                     :: map (samplePoint p m sampler) xs))
                 (segments cur (plot p m sampler pen xs))).
    { intros pen. eapply Forall_impl; [|apply IH].
      intros seg [[H|H] H']; simpl; auto. }
    unfold plotSample.
    destruct (negb (Number_isFinite (sampler x))); simpl; [apply Skip|].
    destruct (negb penDown); simpl;
      (destruct (onPath (x2px p m x) (y2px m (sampler x))); [|apply Skip]);
      [apply W|].
    destruct cur as [c|]; [|apply W].
    constructor; [simpl; auto|apply W].
Qed.

(** C3, as the code has it.  A sample that is not finite breaks the
    polyline, provided the next finite sample falls on a point the canvas
    accepts (a [moveTo] to a point that is not finite is ignored): when the
    loop of [drawCurve] visits [before ++ x :: after], the sample at [x] is
    not finite and the first finite sample of [after] has finite pixel
    coordinates, the path is the one of [before] followed by the one of
    [after] started with the pen up; the stroke's segments are those of the
    two sides taken apart, each with both ends on one side of the gap, so
    none joins a sample before the gap to one after it. *)
Theorem drawCurve_gap_breaks_polyline (fuel : nat) (p : params) (m : layout)
  (sampler : float -> float) (fromX toX : float)
  (before after : list float) (x : float) :
  samplePoints fuel (Math_min (xMax p) toX) (xMax p / 1000) fromX
  = Some (before ++ x :: after) ->
  Number_isFinite (sampler x) = false ->
  (forall v, firstFinite sampler after = Some v ->
             drawn p m sampler v = true) ->
  exists cmds,
    drawCurve fuel p m sampler fromX toX = Some cmds
    /\ cmds = plot p m sampler false before ++ plot p m sampler false after
    /\ segments None cmds
       = segments None (plot p m sampler false before)
         ++ segments None (plot p m sampler false after)
    /\ Forall (fun seg =>
                 In (fst seg) (map (samplePoint p m sampler) before)
                 /\ In (snd seg) (map (samplePoint p m sampler) before))
         (segments None (plot p m sampler false before))
    /\ Forall (fun seg =>
                 In (fst seg) (map (samplePoint p m sampler) after)
                 /\ In (snd seg) (map (samplePoint p m sampler) after))
         (segments None (plot p m sampler false after)).
Proof.
  intros Hpts Hx Hnext.
  exists (plot p m sampler false before ++ plot p m sampler false after).
  assert (Sides : forall xs,
            Forall (fun seg =>
                      In (fst seg) (map (samplePoint p m sampler) xs)
                      /\ In (snd seg) (map (samplePoint p m sampler) xs))
              (segments None (plot p m sampler false xs))).
  { intros xs. eapply Forall_impl; [|apply segments_between_samples].
    intros seg [[H|H] H']; [auto|discriminate]. }
  repeat split; auto.
  - unfold drawCurve. rewrite drawCurveLoop_plot, Hpts. simpl. f_equal.
    destruct (plot_app p m sampler before (x :: after) false) as (pen & E & H).
    rewrite E. f_equal.
    destruct H as [H|H]; [discriminate|]. now apply (H x after).
  - destruct (segments_app (plot p m sampler false before)
                (plot p m sampler false after) None) as [cur' E].
    rewrite E. f_equal. now apply plot_pen_up_starts_afresh.
Qed.

(** The loop of [drawCurve] ends: at the defaults the pre-split curve visits
    401 points and either branch 601. *)
Example drawCurve_default_loops_end :
  option_map (@List.length float)
    (samplePoints 1000 (Math_min (xMax defaults) (splitX defaults))
       (xMax defaults / 1000) 0) = Some 401%nat
  /\ option_map (@List.length float)
       (samplePoints 1000
          (Math_min (xMax defaults)
             (Math_min (xMax defaults) (splitX defaults + trace defaults)))
          (xMax defaults / 1000) (splitX defaults)) = Some 601%nat.
Proof. split; vm_compute; reflexivity. Qed.

(** So it does with the sliders at their ends: [xMax = 20], [splitX = 9] and
    [trace = 12] give 451 points before the split and 551 after it. *)
Example drawCurve_wide_loops_end :
  option_map (@List.length float)
    (samplePoints 1000 (Math_min 20 9) (20 / 1000) 0) = Some 451%nat
  /\ option_map (@List.length float)
       (samplePoints 1000 (Math_min 20 (Math_min 20 (9 + 12))) (20 / 1000) 9)
     = Some 551%nat.
Proof. split; vm_compute; reflexivity. Qed.

End CurveFacts.

(** C3 as stated does not hold for every sequence of samples: the canvas
    ignores a [moveTo] to a point that is not finite, and [drawCurve] tests
    the sample only.  Here the sample after the gap is finite but so large
    that its ordinate overflows: the pen is not re-placed, and the next
    [lineTo] joins the sample before the gap to the one after it. *)
Lemma curve_joined_across_a_gap :
  let sampler := fun x => if (3.985 <? x) && (x <? 3.995) then NaN
                          else if (3.995 <? x) && (x <? 4.005) then 1e307
                          else 0 in
  let m := mapFactory 800 420 56 in
  exists cmds,
    samplePoints 10 (Math_min (xMax defaults) 4.02) (xMax defaults / 1000) 3.98
    = Some ([3.98] ++ 3.9899999999999998
                      :: [3.9999999999999996; 4.0099999999999998;
                          4.0199999999999996])
    /\ Number_isFinite (sampler 3.9899999999999998) = false
    /\ Number_isFinite (sampler 3.98) = true
    /\ Number_isFinite (sampler 3.9999999999999996) = true
    /\ Number_isFinite (sampler 4.0099999999999998) = true
    /\ y2px m (sampler 3.9999999999999996) = neg_infinity
    /\ drawCurve 10 defaults m sampler 3.98 4.02 = Some cmds
    /\ In (samplePoint defaults m sampler 3.98,
           samplePoint defaults m sampler 4.0099999999999998)
         (segments None cmds).
Proof.
  intros sampler m. eexists.
  split; [vm_compute; reflexivity|]. split; [reflexivity|].
  split; [reflexivity|]. split; [reflexivity|]. split; [reflexivity|].
  split; [vm_compute; reflexivity|].
  split; [vm_compute; reflexivity|].
  vm_compute. left. reflexivity.
Qed.

(** A gap in the middle of a curve: the base function sampled around the
    junction, with the samples next to [4] knocked out.  Two segments are
    stroked, one on each side. *)
Lemma drawCurve_gap_breaks_polyline_witness :
  let sampler := fun x => if (3.995 <? x) && (x <? 4.005) then NaN
                          else baseY sin_poly defaults x 0 in
  let m := mapFactory 800 420 56 in
  exists cmds,
    drawCurve 10 defaults m sampler 3.98 4.02 = Some cmds
    /\ List.length cmds = 4%nat
    /\ List.length (segments None cmds) = 2%nat.
Proof.
  intros sampler m.
  destruct (drawCurve_gap_breaks_polyline 10 defaults m sampler 3.98 4.02
              [3.98; 3.9899999999999998] [4.0099999999999998; 4.0199999999999996]
              3.9999999999999996) as (cmds & E & C & S & _).
  - vm_compute. reflexivity.
  - vm_compute. reflexivity.
  - intros v Hv. vm_compute in Hv. injection Hv as <-. vm_compute. reflexivity.
  - exists cmds. split; [assumption|]. split.
    + rewrite C. vm_compute. reflexivity.
    + rewrite S. vm_compute. reflexivity.
Defined.

(** Right of the junction the pre-split sampler yields NaN, left of it
    the branch samplers do. *)
Lemma samplers_nan_outside_domain_witness :
  (splitX defaults <? 5) = true
  /\ preSplitSampler sin_poly defaults 0 5 = NaN
  /\ (3 <? splitX defaults) = true
  /\ u1Sampler sin_poly defaults 0 3 = NaN
  /\ u2Sampler sin_poly defaults 0 3 = NaN.
Proof.
  assert (R : (splitX defaults <? 5) = true) by reflexivity.
  assert (L : (3 <? splitX defaults) = true) by reflexivity.
  destruct (samplers_nan_outside_domain sin_poly defaults 0 5) as [Hpre _].
  destruct (samplers_nan_outside_domain sin_poly defaults 0 3) as [_ Hpost].
  destruct (Hpre R) as [E _]. destruct (Hpost L) as (E1 & E2 & _).
  split; [exact R|]. split; [exact E|]. split; [exact L|].
  split; [exact E1|exact E2].
Defined.

(** ** The HiDPI step of [render] *)

Section SurfaceFacts.

Variable Math_floor : float -> float.
Variable unsigned_long : float -> float.

Let hidpi := hidpiSetup Math_floor unsigned_long.
Let staleSize := staleSize Math_floor.
Let fitted := fitted Math_floor unsigned_long.

Lemma setTransform_identity (c : canvas) :
  setTransform 1 0 0 1 0 0 c = withMatrix identity c.
Proof. reflexivity. Qed.

Lemma scale_withMatrix (x y : float) (m : matrix) (c : canvas) :
  scale x y (withMatrix m c)
  = withMatrix (if Number_isFinite x && Number_isFinite y
                then {| ma := ma m * x; mb := mb m * x;
                        mc := mc m * y; md := md m * y;
                        me := me m; mf := mf m |}
                else m) c.
Proof. unfold scale. simpl. now destruct (Number_isFinite x && Number_isFinite y). Qed.

Lemma hidpiSetup_cases (d : option float) (c : canvas) :
  hidpi d c
  = if staleSize d c then fitted d c else withMatrix (frameMatrix d) c.
Proof.
  unfold hidpi, staleSize, fitted, hidpiSetup, DualUniverse.staleSize.
  rewrite setTransform_identity, scale_withMatrix.
  now destruct (strict_neq _ _ || strict_neq _ _).
Qed.

(** Whatever matrix the context held, the step leaves [frameMatrix]. *)
Lemma hidpiSetup_ctm (d : option float) (c : canvas) :
  ctm (hidpi d c) = frameMatrix d.
Proof.
  rewrite hidpiSetup_cases. now destruct (staleSize d c).
Qed.

Lemma hidpiSetup_twice (d : option float) (c : canvas) :
  hidpi d (hidpi d c) = hidpi d c.
Proof.
  rewrite (hidpiSetup_cases d c).
  destruct (staleSize d c) eqn:E; rewrite hidpiSetup_cases.
  - now destruct (staleSize d (fitted d c)).
  - change (staleSize d (withMatrix (frameMatrix d) c)) with (staleSize d c).
    now rewrite E.
Qed.

(** C4. The transform set-up of [render] is idempotent: run once more, or
    any number of times in a row, on an unchanged surface and pixel ratio, it
    leaves the very canvas state, and so the very coordinate mapping, that
    one run leaves; the scale never compounds. *)
Theorem hidpiSetup_idempotent (d : option float) (c : canvas) (n : nat) :
  Nat.iter (S n) (hidpi d) c = hidpi d c
  /\ ctm (Nat.iter (S n) (hidpi d) c) = frameMatrix d.
Proof.
  assert (Iter : Nat.iter (S n) (hidpi d) c = hidpi d c).
  { induction n as [|n IH]; [reflexivity|].
    change (Nat.iter (S (S n)) (hidpi d) c)
      with (hidpi d (Nat.iter (S n) (hidpi d) c)).
    now rewrite IH, hidpiSetup_twice. }
  split; [exact Iter|]. rewrite Iter. apply hidpiSetup_ctm.
Qed.

(** Without the reset the scale compounds: two frames at pixel ratio 2 leave
    a factor 4 where one frame leaves 2. *)
Example scaleOnly_compounds :
  let c := {| clientWidth := 800; clientHeight := 420;
              canvasWidth := 1600; canvasHeight := 840; ctm := identity |} in
  ma (ctm (scaleOnly (Some 2) c)) = 2
  /\ ma (ctm (scaleOnly (Some 2) (scaleOnly (Some 2) c))) = 4
  /\ ma (ctm (hidpi (Some 2) (hidpi (Some 2) c))) = 2.
Proof.
  intros c. split; [reflexivity|]. split; [reflexivity|].
  now rewrite hidpiSetup_ctm.
Qed.

End SurfaceFacts.

(** ** The animation drivers *)

Section DriverFacts.

(** [drawFrame] leaves [t] alone while the scope is paused and advances it by
    [dt] while it runs. *)
Lemma drawFrame_time (ts : float) (s : Scope.state) :
  Scope.t (fst (Scope.drawFrame ts s))
  = (if Scope.running s then Scope.t s + Scope.dt s else Scope.t s)
  /\ Scope.running (fst (Scope.drawFrame ts s)) = Scope.running s.
Proof.
  unfold Scope.drawFrame.
  destruct (Scope.running s) eqn:R; simpl; [|now rewrite R].
  destruct (truthy ts && (250 <? ts - Scope.lastTick s)); simpl; now rewrite R.
Qed.

(** A frame that finds the scope paused moves no time. *)
Lemma paused_frame_keeps_time (ts : float) (s : Scope.state) :
  Scope.running s = false ->
  Scope.t (fst (Scope.animationFrame ts s)) = Scope.t s
  /\ Scope.running (fst (Scope.animationFrame ts s)) = false.
Proof.
  intros R. unfold Scope.animationFrame.
  assert (G : forall cbs acc,
             Scope.running (fst acc) = false ->
             let r := fold_left
                        (fun acc cb =>
                           let '(s1, out) := Scope.runCallback ts cb (fst acc) in
                           (s1, snd acc ++ out)) cbs acc in
             Scope.t (fst r) = Scope.t (fst acc)
             /\ Scope.running (fst r) = false).
  { induction cbs as [|cb cbs IH]; intros acc Hacc; simpl; [auto|].
    destruct (Scope.runCallback ts cb (fst acc)) as [s1 out] eqn:E.
    assert (H1 : Scope.t s1 = Scope.t (fst acc)
                 /\ Scope.running s1 = false).
    { destruct cb; simpl in E.
      - pose proof (drawFrame_time ts (fst acc)) as [Ht Hr].
        rewrite E, Hacc in Ht, Hr. simpl in Ht, Hr. auto.
      - injection E as <- _. auto. }
    destruct H1 as [Ht Hr].
    destruct (IH (s1, snd acc ++ out) Hr) as [IH1 IH2].
    simpl in IH1. now rewrite <- Ht. }
  apply (G (Scope.rafQueue s) (Scope.clearQueue s, [])). exact R.
Qed.

Lemma paused_frames_keep_time (frames : list float) (s : Scope.state) :
  Scope.running s = false ->
  Scope.t (Scope.run (map Scope.AnimationFrame frames) s) = Scope.t s
  /\ Scope.running (Scope.run (map Scope.AnimationFrame frames) s) = false.
Proof.
  revert s. induction frames as [|ts frames IH]; intros s R; simpl; [auto|].
  destruct (paused_frame_keeps_time ts s R) as [Ht Hr].
  destruct (IH _ Hr) as [IH1 IH2]. unfold Scope.run in *. simpl.
  now rewrite IH1, IH2.
Qed.

(** The effect holds exactly one frame callback after every action. *)
Lemma effect_holds_one_frame (now : float) (acts : list action) :
  let s := fold_left act acts (mount now) in
  queue s = [(rafRef s, effect s)].
Proof.
  assert (Rerun : forall n s, queue s = [(rafRef s, effect s)] ->
            queue (rerunEffect n s)
            = [(rafRef (rerunEffect n s), effect (rerunEffect n s))]).
  { intros n s Q. unfold rerunEffect, setup, cleanup, cancelAnimationFrame,
      DualUniverse.requestAnimationFrame. simpl. rewrite Q. simpl.
    now rewrite Nat.eqb_refl. }
  assert (Tick : forall n s0, queue s0 = [] ->
            queue (tick n (effect s0) s0)
            = [(rafRef (tick n (effect s0) s0),
                effect (tick n (effect s0) s0))]).
  { intros n s0 Q. unfold tick. rewrite Nat.eqb_refl. cbn [negb].
    unfold DualUniverse.requestAnimationFrame. cbn [queue rafRef effect].
    destruct (playing (setLast n s0)); simpl; now rewrite Q. }
  assert (Step : forall a s, queue s = [(rafRef s, effect s)] ->
            queue (act s a) = [(rafRef (act s a), effect (act s a))]).
  { intros [n|n|n] s Q; unfold act.
    - unfold onPlayPause. apply (Rerun n). exact Q.
    - unfold onResetTime.
      destruct (PrimFloat.Leibniz.eqb (time s) 0); [exact Q|].
      apply (Rerun n). exact Q.
    - unfold DualUniverse.animationFrame. rewrite Q.
      cbn [fold_left snd].
      match goal with
      | |- context [tick n (effect s) ?s0] =>
          pose proof (Tick n s0 eq_refl) as T; cbn [effect] in T;
          set (s1 := tick n (effect s) s0) in *
      end.
      destruct (PrimFloat.Leibniz.eqb (time s1) (time s)); [exact T|].
      apply (Rerun n). exact T. }
  assert (Init : queue (mount now)
                 = [(rafRef (mount now), effect (mount now))])
    by reflexivity.
  simpl. revert Init. generalize (mount now).
  induction acts as [|a acts IH]; intros s Q; simpl; [exact Q|].
  apply IH. now apply Step.
Qed.

(** A frame that finds the component paused moves no time. *)
Lemma paused_tick_keeps_time (now : float) (s : component) :
  playing s = false ->
  time (DualUniverse.animationFrame now s) = time s
  /\ playing (DualUniverse.animationFrame now s) = false
  /\ model (DualUniverse.animationFrame now s) = model s.
Proof.
  intros P. unfold DualUniverse.animationFrame.
  set (s0 := {| playing := playing s; time := time s; model := model s;
                rafRef := rafRef s; queue := [];
                effect := effect s; last := last s;
                nextHandle := nextHandle s |}).
  assert (G : forall cbs acc, playing acc = false ->
             let r := fold_left
                        (fun acc (cb : nat * nat) => tick now (snd cb) acc)
                        cbs acc in
             time r = time acc /\ playing r = false /\ model r = model acc).
  { induction cbs as [|cb cbs IH]; intros acc Hacc; simpl; [auto|].
    assert (H1 : time (tick now (snd cb) acc) = time acc
                 /\ playing (tick now (snd cb) acc) = false
                 /\ model (tick now (snd cb) acc) = model acc).
    { unfold tick. destruct (negb (Nat.eqb (snd cb) (effect acc))); [auto|].
      simpl. rewrite Hacc. simpl. auto. }
    destruct H1 as (Ht & Hp & Hm).
    destruct (IH _ Hp) as (IH1 & IH2 & IH3).
    rewrite IH1, IH3. auto. }
  destruct (G (queue s) s0 P) as (Ht & Hp & Hm).
  change (time s0) with (time s) in Ht. change (model s0) with (model s) in Hm.
  rewrite Ht.
  assert (E : PrimFloat.Leibniz.eqb (time s) (time s) = true)
    by now apply Leibniz.eqb_spec.
  rewrite E. auto.
Qed.

Lemma paused_ticks_keep_time (frames : list float) (s : component) :
  playing s = false ->
  time (fold_left act (map Frame frames) s) = time s
  /\ playing (fold_left act (map Frame frames) s) = false
  /\ model (fold_left act (map Frame frames) s) = model s.
Proof.
  revert s. induction frames as [|now frames IH]; intros s P; simpl; [auto|].
  destruct (paused_tick_keeps_time now s P) as (Ht & Hp & Hm).
  destruct (IH _ Hp) as (IH1 & IH2 & IH3).
  now rewrite IH1, IH2, IH3.
Qed.

(** C5. The oscilloscope of [app.js] does not keep to one pending frame:
    Start, Pause, Start within one tick leaves two [drawFrame] callbacks
    queued ([Pause] cancels nothing and [Start] sees [running] false again);
    both run on the next frame, both ask for another, and time advances
    twice per frame from then on.  Safe start after Start does the same. *)
Theorem start_pause_start_queues_two_frames :
  Scope.pendingFrames (Scope.run [Scope.Start] Scope.booted) = 1%nat
  /\ Scope.pendingFrames
       (Scope.run [Scope.Start; Scope.Pause; Scope.Start] Scope.booted) = 2%nat
  /\ Scope.pendingFrames
       (Scope.run [Scope.Start; Scope.Pause; Scope.Start;
                   Scope.AnimationFrame 16] Scope.booted) = 2%nat
  /\ Scope.t
       (Scope.run [Scope.Start; Scope.Pause; Scope.Start;
                   Scope.AnimationFrame 16] Scope.booted)
     = Scope.dt Scope.booted + Scope.dt Scope.booted
  /\ Scope.pendingFrames
       (Scope.run [Scope.Start; Scope.SafeStart] Scope.booted) = 2%nat.
Proof. repeat split; vm_compute; reflexivity. Qed.

(** C6. Pausing and resuming keeps the accumulated time.  In [app.js] the
    Pause and Start handlers leave every variable of the closure but
    [running] (and the frame queue) as it was, frames that arrive while
    paused move no time, only Reset writes [t = 0], and no other handler
    writes [t]; [drawFrame] only ever adds [dt].  In the canvas component
    Play/Pause twice, with any frames in between, leaves [time] and the
    model as they were, and Reset time leaves [time = 0]. *)
Theorem pause_resume_keeps_time :
  (forall s, Scope.sameSignal s (fst (Scope.onPause s))
             /\ Scope.rafQueue (fst (Scope.onPause s)) = Scope.rafQueue s
             /\ Scope.running (fst (Scope.onPause s)) = false)
  /\ (forall s, Scope.sameSignal s (fst (Scope.onStart s))
                /\ Scope.running (fst (Scope.onStart s)) = true)
  /\ (forall s frames,
        let s' := Scope.run (Scope.Pause
                             :: map Scope.AnimationFrame frames
                             ++ [Scope.Start]) s in
        Scope.t s' = Scope.t s /\ Scope.running s' = true)
  /\ (forall s, Scope.t (fst (Scope.onReset s)) = 0)
  /\ (forall s e,
        match e with
        | Scope.Reset => Scope.t (fst (Scope.handle e s)) = 0
        | Scope.AnimationFrame ts => True
        | _ => Scope.t (fst (Scope.handle e s)) = Scope.t s
        end)
  /\ (forall s ts,
        Scope.t (fst (Scope.drawFrame ts s))
        = if Scope.running s then Scope.t s + Scope.dt s else Scope.t s)
  /\ (forall s now1 frames now2,
        playing s = true ->
        let s' := fold_left act
                    (PlayPause now1 :: map Frame frames ++ [PlayPause now2])
                    s in
        time s' = time s /\ playing s' = true /\ model s' = model s)
  /\ (forall s now,
        time (onPlayPause now s) = time s
        /\ model (onPlayPause now s) = model s
        /\ playing (onPlayPause now s) = negb (playing s))
  /\ (forall s now, time (onResetTime now s) = 0).
Proof.
  repeat apply conj.
  - intros s. unfold Scope.sameSignal. simpl. tauto.
  - intros s. unfold Scope.onStart, Scope.sameSignal.
    destruct (Scope.running s) eqn:R; simpl; tauto.
  - intros s frames s'. subst s'. unfold Scope.run.
    cbn [fold_left]. rewrite fold_left_app. cbn [fold_left].
    change (fold_left (fun acc e => fst (Scope.handle e acc))
              (map Scope.AnimationFrame frames) (fst (Scope.handle Scope.Pause s)))
      with (Scope.run (map Scope.AnimationFrame frames) (fst (Scope.onPause s))).
    destruct (paused_frames_keep_time frames (fst (Scope.onPause s)) eq_refl)
      as [Ht Hr].
    set (s1 := Scope.run (map Scope.AnimationFrame frames)
                 (fst (Scope.onPause s))) in *.
    cbn [Scope.handle]. unfold Scope.onStart. rewrite Hr. simpl.
    split; [exact Ht|reflexivity].
  - reflexivity.
  - intros s e. destruct e; try reflexivity.
    + simpl. unfold Scope.onStart. now destruct (Scope.running s).
  - intros s ts. apply drawFrame_time.
  - intros s now1 frames now2 P s'. subst s'.
    cbn [fold_left]. rewrite fold_left_app. cbn [fold_left].
    assert (P1 : playing (act s (PlayPause now1)) = false)
      by (simpl; now rewrite P).
    destruct (paused_ticks_keep_time frames _ P1) as (Ht & Hp & Hm).
    set (s1 := fold_left act (map Frame frames) (act s (PlayPause now1))) in *.
    simpl. rewrite Ht, Hp, Hm. simpl. auto.
  - intros s now. repeat split.
  - intros s now. unfold onResetTime.
    destruct (PrimFloat.Leibniz.eqb (time s) 0) eqn:E; [|reflexivity].
    now apply Leibniz.eqb_spec in E.
Qed.

End DriverFacts.

(** ** The base curve and its two branches *)

Section BranchFacts.

Variable Math_sin : float -> float.
Variable Math_cos : float -> float.

Let baseY := baseY Math_sin.
Let junctionY := junctionY Math_sin.
Let u1Y := u1Y Math_sin.
Let u2Y := u2Y Math_sin.

Lemma leb_epsilon_nonzero (d : float) :
  (1e-6 <=? d) = true ->
  (d =? 0) = false /\ (0 <? d) = true /\ is_nan d = false.
Proof.
  rewrite leb_spec, eqb_spec, ltb_spec. intros H.
  assert (N : is_nan d = false).
  { apply not_nan_SF. intros E. rewrite E in H.
    destruct (SF 1e-6); discriminate. }
  split; [|split]; [| |exact N]; revert H;
    change (SF 1e-6) with (S754_finite false 4722366482869645 (-72));
    change (SF 0) with (S754_zero false);
    destruct (SF d) as [s|[]| |[] m e]; unfold SFleb, SFeqb, SFltb; simpl;
    congruence.
Qed.

Lemma phaseDenominator_lower (p : params) :
  is_finite (xMax p) = true -> is_finite (splitX p) = true ->
  (1e-6 <=? phaseDenominator p) = true.
Proof.
  intros Hx Hs. unfold phaseDenominator.
  apply Math_max_lower; [reflexivity|]. now apply sub_finite_not_nan.
Qed.

(** A finite number minus itself is a zero, which is below [1e-6]. *)
Lemma sub_self_below_epsilon (v : float) :
  is_finite v = true -> (v - v <? 1e-6) = true.
Proof.
  intros H. rewrite ltb_spec, sub_spec. apply is_finite_SF in H.
  destruct (SFsub_of_eq (SF v) (SF v)) as [z E]; [|exact H|].
  - apply SFcompare_refl. destruct (SF v); simpl in H; congruence || contradiction.
  - rewrite E. reflexivity.
Qed.

(** C7, as the code has it.  The denominator of the normalised phase term
    is clamped below by [1e-6]: for a finite domain end and a finite split
    point it is
    at least [1e-6], hence positive, neither zero nor NaN, and it is [1e-6]
    itself when the post-split width [xMax - splitX] is below [1e-6], zero
    (the domain ends on the split point) or negative.  A branch performs two
    divisions: [splitX / xMax] for the junction value, whose divisor is not
    clamped, and the one of the phase term.  So no division of a branch is
    by zero provided [xMax] is not zero; when [xMax] is zero the junction
    value divides by it, and this division, a total operation on numbers,
    yields NaN or an infinity: no evaluation raises. *)
Theorem phaseDenominator_clamped (p : params) :
  is_finite (xMax p) = true -> is_finite (splitX p) = true ->
  (1e-6 <=? phaseDenominator p) = true
  /\ (phaseDenominator p =? 0) = false
  /\ (0 <? phaseDenominator p) = true
  /\ is_nan (phaseDenominator p) = false
  /\ ((xMax p - splitX p <? 1e-6) = true -> phaseDenominator p = 1e-6)
  /\ (xMax p = splitX p -> phaseDenominator p = 1e-6)
  /\ (forall x t,
        u1Y p x t
        = baseAmp p
          * Math_sin (2 * Math_PI * baseFreq p
                        * (splitX p / nth 0 (branchDivisors p) 0)
                      + basePhase p + 0.6 * t)
          + u1Slope p * Math_max 0 (x - splitX p)
          + u1Amp p
            * Math_sin (2 * Math_PI * u1Freq p
                          * (Math_max 0 (x - splitX p)
                             / nth 1 (branchDivisors p) 0)
                        + u1Phase p + 0.7 * t)
        /\ u2Y p x t
           = baseAmp p
             * Math_sin (2 * Math_PI * baseFreq p
                           * (splitX p / nth 0 (branchDivisors p) 0)
                         + basePhase p + 0.6 * t)
             + u2Slope p * Math_max 0 (x - splitX p)
             + u2Amp p
               * Math_sin (2 * Math_PI * u2Freq p
                             * (Math_max 0 (x - splitX p)
                                / nth 1 (branchDivisors p) 0)
                           + u2Phase p + 0.65 * t))
  /\ branchDivisors p = [xMax p; phaseDenominator p]
  /\ ((xMax p =? 0) = false ->
      Forall (fun d => (d =? 0) = false) (branchDivisors p))
  /\ ((xMax p =? 0) = true ->
      is_nan (splitX p / xMax p) = true
      \/ is_infinity (splitX p / xMax p) = true).
Proof.
  intros Hx Hs.
  pose proof (phaseDenominator_lower p Hx Hs) as L.
  destruct (leb_epsilon_nonzero _ L) as (Z & P & N).
  assert (W : (xMax p - splitX p <? 1e-6) = true -> phaseDenominator p = 1e-6).
  { intros W. unfold phaseDenominator. now apply Math_max_left. }
  split; [exact L|]. split; [exact Z|]. split; [exact P|]. split; [exact N|].
  split; [exact W|].
  split; [intros E; apply W; rewrite E; now apply sub_self_below_epsilon|].
  split; [intros x t; split; reflexivity|]. split; [reflexivity|].
  split.
  - intros Hnz. constructor; [exact Hnz|]. constructor; [exact Z|constructor].
  - intros Hz. now apply div_by_zero.
Qed.

(** C8. With [baseFreq = 1.2], [basePhase = Math.PI / 3] and a positive
    domain, the base value sampled at [x = 0] and [t = 0] is exactly
    [baseAmp * Math.sin(Math.PI / 3)], the amplitude times the sine of the
    phase.  In [app.js], whose signal starts with [f1 = 1.2], [f2 = 2.3] and
    [phase = Math.PI / 3], the dot at [t = 0] is deflected from the centre by
    the amplitude times that same sine, and the first sample of the trace
    adds only its noise term, whose factor [noise] is 0; the secondary
    frequency enters the vertical deflection alone, through [Math.sin(0)]. *)
Theorem base_value_at_origin (p : params) (w h rx ry : float) :
  (0 <? xMax p) = true ->
  baseFreq p = 1.2 ->
  basePhase p = Math_PI / 3 ->
  baseY p 0 0 = baseAmp p * Math_sin (Math_PI / 3)
  /\ Scope.dotX Math_sin Scope.initial w h
     = w / 2 + Math_min w h / 3.0 * Math_sin (Math_PI / 3)
  /\ Scope.traceX Math_sin Scope.initial w h 0 rx
     = Scope.dotX Math_sin Scope.initial w h + (rx - 0.5) * 0 * 4
  /\ Scope.traceY Math_sin Math_cos Scope.initial w h 0 ry
     = h / 2 + Math_min w h / 3.0 * Math_sin 0 * Math_cos (Math_PI / 3)
       + (ry - 0.5) * 0 * 4.
Proof.
  intros Hx Hf Hp. split; [|split; [|split]].
  - unfold baseY, DualUniverse.baseY. rewrite Hf, Hp, (zero_div _ Hx).
    f_equal.
  - reflexivity.
  - reflexivity.
  - reflexivity.
Qed.

(** At the junction both branches add their own oscillation to the base
    value: [dx] is 0 there, the sine's argument is the branch phase plus its
    drift, and nothing cancels it. *)
Lemma branch_values_at_junction (p : params) (t : float) :
  is_finite (xMax p) = true -> is_finite (splitX p) = true ->
  u1Y p (splitX p) t
  = junctionY p t + u1Slope p * 0
    + u1Amp p * Math_sin (2 * Math_PI * u1Freq p * 0 + u1Phase p + 0.7 * t)
  /\ u2Y p (splitX p) t
     = junctionY p t + u2Slope p * 0
       + u2Amp p * Math_sin (2 * Math_PI * u2Freq p * 0 + u2Phase p + 0.65 * t).
Proof.
  intros Hx Hs.
  destruct (leb_epsilon_nonzero _ (phaseDenominator_lower p Hx Hs))
    as (_ & P & _).
  assert (D : Math_max 0 (splitX p - splitX p) = 0).
  { apply clamp_at_or_below; [|exact Hs].
    rewrite leb_spec. unfold SFleb. rewrite SFcompare_refl; [reflexivity|].
    apply is_finite_SF in Hs. destruct (SF (splitX p)); simpl in Hs;
      congruence || contradiction. }
  unfold u1Y, u2Y, DualUniverse.u1Y, DualUniverse.u2Y.
  fold (phaseDenominator p). rewrite D, (zero_div _ P). split; reflexivity.
Qed.

(** The defaults at [t = 0]: what the three curves are at the split point in
    terms of the three sines involved. *)
Lemma junction_values_at_defaults :
  baseY defaults (splitX defaults) 0 = 1 * Math_sin 2.8902652413026093
  /\ u1Y defaults (splitX defaults) 0
     = 1 * Math_sin 2.8902652413026093 + 0
       + 0.9 * Math_sin 0.4
  /\ u2Y defaults (splitX defaults) 0
     = 1 * Math_sin 2.8902652413026093 + -0
       + 0.75 * Math_sin (-0.2).
Proof. repeat split; vm_compute; reflexivity. Qed.

(** C1. Junction continuity does not hold.  At the split point each branch
    is the base value plus its own term [amp * Math.sin(phase + drift * t)],
    which [dx = 0] does not cancel.  At the defaults and [t = 0], for every
    [Math.sin] that is within one unit in the last place of the correctly
    rounded sine at the three arguments involved, universe 1 starts more
    than 0.35 above the base curve and universe 2 more than 0.14 below it:
    the three values differ pairwise by far more than [1e-9]. *)
Theorem junction_values_differ :
  (forall p t,
     is_finite (xMax p) = true -> is_finite (splitX p) = true ->
     u1Y p (splitX p) t
     = baseY p (splitX p) t + u1Slope p * 0
       + u1Amp p * Math_sin (2 * Math_PI * u1Freq p * 0 + u1Phase p + 0.7 * t)
     /\ u2Y p (splitX p) t
        = baseY p (splitX p) t + u2Slope p * 0
          + u2Amp p
            * Math_sin (2 * Math_PI * u2Freq p * 0 + u2Phase p + 0.65 * t))
  /\ (within_one_ulp (Math_sin 2.8902652413026093) 0.24868988716485524 ->
      within_one_ulp (Math_sin 0.4) 0.3894183423086505 ->
      within_one_ulp (Math_sin (-0.2)) (-0.19866933079506122) ->
      (0.35 <? u1Y defaults (splitX defaults) 0
               - baseY defaults (splitX defaults) 0) = true
      /\ (0.14 <? baseY defaults (splitX defaults) 0
                  - u2Y defaults (splitX defaults) 0) = true
      /\ (1e-9 <? abs (u1Y defaults (splitX defaults) 0
                       - baseY defaults (splitX defaults) 0)) = true
      /\ (1e-9 <? abs (u2Y defaults (splitX defaults) 0
                       - baseY defaults (splitX defaults) 0)) = true
      /\ (1e-9 <? abs (u1Y defaults (splitX defaults) 0
                       - u2Y defaults (splitX defaults) 0)) = true).
Proof.
  split.
  - intros p t Hx Hs. exact (branch_values_at_junction p t Hx Hs).
  - intros H0 H1 H2.
    destruct junction_values_at_defaults as (B & U1 & U2).
    rewrite B, U1, U2. unfold within_one_ulp in *.
    destruct H0 as [H0|[H0|H0]], H1 as [H1|[H1|H1]], H2 as [H2|[H2|H2]];
      rewrite H0, H1, H2; repeat split; vm_compute; reflexivity.
Qed.

End BranchFacts.

(** C7 as stated does not hold for all finite inputs: with an empty domain,
    [xMax = splitX = 0], the post-split width is zero and the denominator of
    the phase term is the epsilon, but the junction value divides [splitX]
    by [xMax], zero by zero, which is NaN, and both branches return NaN at
    every [x] and [t]. *)
Lemma branch_divides_by_zero_on_empty_domain :
  finiteParams emptyDomain = true
  /\ xMax emptyDomain - splitX emptyDomain = 0
  /\ phaseDenominator emptyDomain = 1e-6
  /\ branchDivisors emptyDomain = [0; 1e-6]
  /\ ~ Forall (fun d => (d =? 0) = false) (branchDivisors emptyDomain)
  /\ splitX emptyDomain / xMax emptyDomain = NaN
  /\ forall (Math_sin : float -> float) (x t : float),
       Math_sin nan = nan ->
       junctionY Math_sin emptyDomain t = NaN
       /\ u1Y Math_sin emptyDomain x t = NaN
       /\ u2Y Math_sin emptyDomain x t = NaN.
Proof.
  split; [reflexivity|]. split; [reflexivity|]. split; [reflexivity|].
  split; [reflexivity|]. split.
  { intros F. inversion F as [|? ? Z _]. discriminate Z. }
  split; [reflexivity|].
  intros Math_sin x t Hnan.
  assert (J : junctionY Math_sin emptyDomain t = NaN).
  { unfold junctionY, baseY.
    cbn [xMax splitX baseAmp baseFreq basePhase emptyDomain].
    change (2 * Math_PI * 1.15 * (0 / 0) + 0.0) with nan.
    rewrite add_nan_l, Hnan. reflexivity. }
  split; [exact J|].
  unfold u1Y, u2Y. rewrite J. unfold NaN. now rewrite !add_nan_l.
Qed.

(** With the domain ending on the split point the denominator is the
    epsilon itself, and neither division is by zero. *)
Lemma phaseDenominator_clamped_witness :
  is_finite (xMax collapsed) = true
  /\ is_finite (splitX collapsed) = true
  /\ xMax collapsed - splitX collapsed = 0
  /\ phaseDenominator collapsed = 1e-6
  /\ (phaseDenominator collapsed =? 0) = false
  /\ Forall (fun d => (d =? 0) = false) (branchDivisors collapsed).
Proof.
  destruct (phaseDenominator_clamped sin_poly collapsed eq_refl eq_refl)
    as (_ & Z & _ & _ & _ & E & _ & _ & D & _).
  split; [reflexivity|]. split; [reflexivity|]. split; [reflexivity|].
  split; [exact (E eq_refl)|]. split; [exact Z|exact (D eq_refl)].
Defined.

Lemma base_value_at_origin_witness :
  (0 <? xMax scopeLike) = true
  /\ baseY sin_poly scopeLike 0 0 = baseAmp scopeLike * sin_poly (Math_PI / 3)
  /\ Scope.dotX sin_poly Scope.initial 600 300
     = 600 / 2 + Math_min 600 300 / 3.0 * sin_poly (Math_PI / 3)
  /\ Scope.traceX sin_poly Scope.initial 600 300 0 0.25
     = Scope.dotX sin_poly Scope.initial 600 300 + (0.25 - 0.5) * 0 * 4.
Proof.
  destruct (base_value_at_origin sin_poly sin_poly scopeLike 600 300 0.25 0.75
              eq_refl eq_refl eq_refl) as (B & D & X & _).
  split; [reflexivity|]. split; [exact B|]. split; [exact D|exact X].
Defined.

(** With the correctly rounded sines the three values at the junction are
    0.2487, 0.5992 and 0.0997. *)
Lemma junction_values_differ_witness :
  baseY sin_tabulated defaults (splitX defaults) 0 = 0.24868988716485524
  /\ u1Y sin_tabulated defaults (splitX defaults) 0 = 0.5991663952426407
  /\ u2Y sin_tabulated defaults (splitX defaults) 0 = 0.09968788906855933
  /\ (0.35 <? u1Y sin_tabulated defaults (splitX defaults) 0
              - baseY sin_tabulated defaults (splitX defaults) 0) = true
  /\ (0.14 <? baseY sin_tabulated defaults (splitX defaults) 0
              - u2Y sin_tabulated defaults (splitX defaults) 0) = true
  /\ (1e-9 <? abs (u1Y sin_tabulated defaults (splitX defaults) 0
                   - u2Y sin_tabulated defaults (splitX defaults) 0)) = true.
Proof.
  destruct (junction_values_differ sin_tabulated) as [_ H].
  destruct H as (A & B & _ & _ & C);
    try (left; reflexivity).
  split; [reflexivity|]. split; [reflexivity|]. split; [reflexivity|].
  split; [exact A|]. split; [exact B|exact C].
Defined.

(** ** Totality of the branches *)

Section BranchTotality.

Variable Math_sin : float -> float.

Lemma finiteParams_fields (p : params) :
  finiteParams p = true ->
  is_finite (xMax p) = true /\ is_finite (splitX p) = true
  /\ is_finite (baseAmp p) = true /\ is_finite (baseFreq p) = true
  /\ is_finite (basePhase p) = true
  /\ is_finite (u1Slope p) = true /\ is_finite (u1Amp p) = true
  /\ is_finite (u1Freq p) = true /\ is_finite (u1Phase p) = true
  /\ is_finite (u2Slope p) = true /\ is_finite (u2Amp p) = true
  /\ is_finite (u2Freq p) = true /\ is_finite (u2Phase p) = true.
Proof.
  unfold finiteParams. rewrite !andb_true_iff. tauto.
Qed.

(** The last step is the value returned. *)
Lemma steps_end_in_value (p : params) (x t : float) :
  List.last (junctionSteps Math_sin p t) 0 = junctionY Math_sin p t
  /\ List.last (u1Steps Math_sin p x t) 0 = u1Y Math_sin p x t
  /\ List.last (u2Steps Math_sin p x t) 0 = u2Y Math_sin p x t.
Proof.
  repeat split; reflexivity.
Qed.

Section FiniteSine.

Hypothesis sin_finite :
  forall v, is_finite v = true -> is_finite (Math_sin v) = true.

Ltac split_steps :=
  repeat match goal with
    | H : Forall _ (_ :: _) |- _ =>
        let H1 := fresh "O" in
        apply Forall_cons_iff in H; destruct H as [H1 H]
    | H : Forall _ (_ ++ _) |- _ =>
        let H1 := fresh "J" in
        apply Forall_app in H; destruct H as [H1 H]
    end.

Ltac finite_steps :=
  repeat first
    [ assumption
    | apply sin_finite
    | apply add_finite
    | apply sub_finite
    | apply mul_finite
    | apply div_finite
    | apply Math_max_finite
    | match goal with |- is_finite ?c = true => reflexivity end ].

Lemma junctionY_finite (p : params) (t : float) :
  finiteParams p = true -> (xMax p =? 0) = false -> is_finite t = true ->
  noOverflow (junctionSteps Math_sin p t) ->
  is_finite (junctionY Math_sin p t) = true.
Proof.
  intros Hp Hx Ht Hs. apply finiteParams_fields in Hp.
  destruct Hp as (? & ? & ? & ? & ? & _).
  unfold noOverflow, junctionSteps in Hs. cbv zeta in Hs. split_steps.
  unfold junctionY, baseY. finite_steps.
Qed.

Lemma branch_finite (slope amp freq phase drift : float) (p : params)
  (x t : float) :
  is_finite slope = true -> is_finite amp = true -> is_finite freq = true ->
  is_finite phase = true -> is_finite drift = true ->
  finiteParams p = true -> (xMax p =? 0) = false ->
  is_finite x = true -> is_finite t = true ->
  noOverflow (branchSteps Math_sin slope amp freq phase drift p x t) ->
  is_finite
    (junctionY Math_sin p t + slope * Math_max 0 (x - splitX p)
     + amp * Math_sin (2 * Math_PI * freq
                         * (Math_max 0 (x - splitX p)
                            / Math_max 1e-6 (xMax p - splitX p))
                       + phase + drift * t)) = true.
Proof.
  intros Hsl Ha Hf Hph Hd Hp Hx Hfx Ht Hs.
  pose proof (finiteParams_fields p Hp) as (Fx & Fs & _).
  unfold noOverflow, branchSteps in Hs. cbv zeta in Hs. split_steps.
  pose proof (junctionY_finite p t Hp Hx Ht J) as Fj.
  assert (Fw : is_finite (xMax p - splitX p) = true) by finite_steps.
  assert (Fden : is_finite (Math_max 1e-6 (xMax p - splitX p)) = true)
    by finite_steps.
  assert (Zden : (Math_max 1e-6 (xMax p - splitX p) =? 0) = false).
  { apply leb_epsilon_nonzero. apply Math_max_lower; [reflexivity|].
    now apply finite_not_nan. }
  assert (Fd : is_finite (x - splitX p) = true) by finite_steps.
  finite_steps.
Qed.

(** C10, as the code has it.  For finite parameters with a non-zero domain
    end, a [Math.sin] that maps finite numbers to finite numbers and finite
    [x] and [t], the branches return a finite number whenever none of their
    arithmetic operations overflows to an infinity.  They have no
    out-of-domain case of their own: at or below the split point [dx] is
    clamped to [0] and the value is the one taken at the split point itself.
    The NaN sentinel is the [else] arm of the wrapper lambdas of [render]. *)
Theorem branches_finite_unless_overflow (p : params) (x t : float) :
  finiteParams p = true -> (xMax p =? 0) = false ->
  is_finite x = true -> is_finite t = true ->
  (noOverflow (u1Steps Math_sin p x t) ->
     Number_isFinite (u1Y Math_sin p x t) = true)
  /\ (noOverflow (u2Steps Math_sin p x t) ->
        Number_isFinite (u2Y Math_sin p x t) = true)
  /\ ((x <=? splitX p) = true ->
        Math_max 0 (x - splitX p) = 0
        /\ u1Y Math_sin p x t = u1Y Math_sin p (splitX p) t
        /\ u2Y Math_sin p x t = u2Y Math_sin p (splitX p) t)
  /\ u1Sampler Math_sin p t x
     = (if splitX p <=? x then u1Y Math_sin p x t else NaN)
  /\ u2Sampler Math_sin p t x
     = (if splitX p <=? x then u2Y Math_sin p x t else NaN).
Proof.
  intros Hp Hx Hfx Ht.
  pose proof (finiteParams_fields p Hp)
    as (Fx & Fs & _ & _ & _ & F1 & F2 & F3 & F4 & F5 & F6 & F7 & F8).
  split; [|split; [|split; [|split; reflexivity]]].
  - intros Hs. unfold Number_isFinite, u1Y.
    apply (branch_finite (u1Slope p) (u1Amp p) (u1Freq p) (u1Phase p) 0.7);
      auto.
  - intros Hs. unfold Number_isFinite, u2Y.
    apply (branch_finite (u2Slope p) (u2Amp p) (u2Freq p) (u2Phase p) 0.65);
      auto.
  - intros Hle.
    assert (D : Math_max 0 (x - splitX p) = 0)
      by now apply clamp_at_or_below.
    assert (D0 : Math_max 0 (splitX p - splitX p) = 0).
    { apply clamp_at_or_below; [|exact Fs].
      rewrite leb_spec. unfold SFleb. rewrite SFcompare_refl; [reflexivity|].
      now apply not_nan_SF, finite_not_nan. }
    unfold u1Y, u2Y. rewrite D, D0. auto.
Qed.

End FiniteSine.

End BranchTotality.

(** C10 as stated does not hold: at the defaults, [x = t = Number.MAX_VALUE]
    are finite and make the phase argument overflow to [Infinity], whose sine
    is NaN by ECMAScript, so both branches return NaN. *)
Lemma branches_overflow_to_nan :
  exists x t : float,
    is_finite x = true /\ is_finite t = true
    /\ forall Math_sin : float -> float,
         Math_sin infinity = nan ->
         u1Y Math_sin defaults x t = NaN
         /\ u2Y Math_sin defaults x t = NaN
         /\ Number_isFinite (u1Y Math_sin defaults x t) = false
         /\ Number_isFinite (u2Y Math_sin defaults x t) = false.
Proof.
  exists Number_MAX_VALUE, Number_MAX_VALUE.
  split; [reflexivity|]. split; [reflexivity|].
  intros Math_sin Hinf.
  assert (U1 : u1Y Math_sin defaults Number_MAX_VALUE Number_MAX_VALUE = NaN).
  { vm_compute. vm_compute in Hinf. rewrite Hinf. apply add_nan_r. }
  assert (U2 : u2Y Math_sin defaults Number_MAX_VALUE Number_MAX_VALUE = NaN).
  { vm_compute. vm_compute in Hinf. rewrite Hinf. apply add_nan_r. }
  rewrite U1, U2. repeat split; reflexivity.
Qed.

(** Left of the junction, at [x = 3] and [t = 0] with the defaults, nothing
    overflows: both branches are finite and equal to their junction values,
    while the wrappers answer NaN. *)
Lemma branches_finite_unless_overflow_witness :
  Number_isFinite (u1Y sin_tabulated defaults 3 0) = true
  /\ Number_isFinite (u2Y sin_tabulated defaults 3 0) = true
  /\ u1Y sin_tabulated defaults 3 0
     = u1Y sin_tabulated defaults (splitX defaults) 0
  /\ u2Y sin_tabulated defaults 3 0
     = u2Y sin_tabulated defaults (splitX defaults) 0
  /\ u1Sampler sin_tabulated defaults 0 3 = NaN
  /\ u2Sampler sin_tabulated defaults 0 3 = NaN.
Proof.
  destruct (branches_finite_unless_overflow sin_tabulated sin_tabulated_finite
              defaults 3 0 eq_refl eq_refl eq_refl eq_refl)
    as (H1 & H2 & H3 & H4 & H5).
  destruct (H3 eq_refl) as (_ & E1 & E2).
  split; [apply H1; vm_compute; repeat constructor|].
  split; [apply H2; vm_compute; repeat constructor|].
  split; [exact E1|]. split; [exact E2|]. split; [exact H4|exact H5].
Defined.

(** ** Best-effort persistence *)

Section StorageFacts.
Import FieldSignal.

Variable browser : Type.
Variable exn : Type.
Variable setItem : string -> string -> browser -> completion exn unit * browser.
Variable getItem : string -> browser -> completion exn (option string) * browser.
Variable NumberToString : float -> string.
Variable StringToNumber : string -> float.

Let save := save browser exn setItem NumberToString.
Let loadNum := loadNum browser exn getItem StringToNumber.
Let loadStr := loadStr browser exn getItem.

(** C9. Persistence is best-effort.  Whatever [localStorage] does, [save]
    returns normally and does nothing beyond its one [setItem] call, so it is
    a no-op when that call throws; [loadNum] and [loadStr] return normally
    too, with the fallback when [getItem] throws or has no entry and with the
    stored value otherwise.  No error reaches the caller. *)
Theorem storage_errors_are_swallowed (key : string) (b : browser) :
  (forall val,
     fst (save key val b) = Returns tt
     /\ snd (save key val b)
        = snd (setItem (storageKey key) (String_of NumberToString val) b))
  /\ (forall val e b',
        setItem (storageKey key) (String_of NumberToString val) b
        = (Throws e, b') ->
        save key val b = (Returns tt, b'))
  /\ (forall fallback, exists v, fst (loadNum key fallback b) = Returns v)
  /\ (forall fallback, exists v, fst (loadStr key fallback b) = Returns v)
  /\ (forall e b' fallbackNum fallbackStr,
        getItem (storageKey key) b = (Throws e, b') ->
        loadNum key fallbackNum b = (Returns fallbackNum, b')
        /\ loadStr key fallbackStr b = (Returns fallbackStr, b'))
  /\ (forall b' fallbackNum fallbackStr,
        getItem (storageKey key) b = (Returns None, b') ->
        loadNum key fallbackNum b = (Returns fallbackNum, b')
        /\ loadStr key fallbackStr b = (Returns fallbackStr, b'))
  /\ (forall v b' fallbackNum fallbackStr,
        getItem (storageKey key) b = (Returns (Some v), b') ->
        loadNum key fallbackNum b = (Returns (StringToNumber v), b')
        /\ loadStr key fallbackStr b = (Returns v, b')).
Proof.
  unfold save, loadNum, loadStr, FieldSignal.save, FieldSignal.loadNum,
    FieldSignal.loadStr, tryCatchIgnore.
  repeat apply conj.
  - intros val.
    now destruct (setItem (storageKey key) (String_of NumberToString val) b)
      as [[u|e] b'].
  - intros val e b' E. now rewrite E.
  - intros fallback.
    destruct (getItem (storageKey key) b) as [[v|e] b']; simpl; eauto.
  - intros fallback.
    destruct (getItem (storageKey key) b) as [[v|e] b']; simpl; eauto.
  - intros e b' fn fs E. now rewrite E.
  - intros b' fn fs E. now rewrite E.
  - intros v b' fn fs E. now rewrite E.
Qed.

End StorageFacts.

(** * Part III: further properties of the code *)

(** ** The range and the shape of a drawn curve *)

Section RangeFacts.

Variable Math_sin : float -> float.

(** Every point the loop visits passed its test. *)
Lemma samplePoints_bounded (fuel : nat) (bound step x : float)
  (xs : list float) :
  samplePoints fuel bound step x = Some xs ->
  Forall (fun v => (v <=? bound) = true) xs.
Proof.
  revert x xs. induction fuel as [|fuel IH]; intros x xs; simpl;
    [discriminate|].
  destruct (x <=? bound) eqn:E.
  - destruct (samplePoints fuel bound step (x + step)) as [rest|] eqn:R;
      [|discriminate].
    simpl. intros H. injection H as <-. constructor; [exact E|].
    now apply (IH (x + step)).
  - intros H. injection H as <-. constructor.
Qed.

(** Samplers that agree on the points visited give the same path. *)
Lemma plot_ext (p : params) (m : layout) (f g : float -> float)
  (xs : list float) (penDown : bool) :
  Forall (fun x => f x = g x) xs ->
  plot p m f penDown xs = plot p m g penDown xs.
Proof.
  intros H. revert penDown.
  induction H as [|x xs E _ IH]; intros penDown; simpl; [reflexivity|].
  unfold plotSample. rewrite E.
  destruct (negb (Number_isFinite (g x))); simpl; [apply IH|].
  destruct (negb penDown); simpl; now rewrite IH.
Qed.


(** X2. In [render] the domain test of the pre-split sampler never fails:
    the loop runs up to [Math.min(xMax, splitX)], so every point it visits
    is at or below the split point and the white curve is the base function
    itself, with no sample replaced by the NaN sentinel. *)
Theorem render_base_curve_has_no_sentinel (fuel : nat) (p : params)
  (m : layout) (t : float) :
  drawCurve fuel p m (preSplitSampler Math_sin p t) 0 (splitX p)
  = drawCurve fuel p m (fun x => baseY Math_sin p x t) 0 (splitX p).
Proof.
  unfold drawCurve. rewrite !drawCurveLoop_plot.
  destruct (samplePoints fuel (Math_min (xMax p) (splitX p)) (xMax p / 1000) 0)
    as [xs|] eqn:E; [|reflexivity].
  simpl. f_equal. apply plot_ext.
  eapply Forall_impl; [|exact (samplePoints_bounded _ _ _ _ _ E)].
  intros x Hx. apply leb_Math_min in Hx. destruct Hx as [_ Hx].
  unfold preSplitSampler. now rewrite Hx.
Qed.

(** The pairs of neighbours of a list. *)
Fixpoint consecutive {A : Type} (l : list A) : list (A * A) :=
  match l with
  | a :: (b :: _) as rest => (a, b) :: consecutive rest
  | _ => []
  end.

Lemma consecutive_length {A : Type} (c : A) (l : list A) :
  List.length (consecutive (c :: l)) = List.length l.
Proof.
  revert c. induction l as [|a l IH]; intros c; [reflexivity|].
  change (consecutive (c :: a :: l)) with ((c, a) :: consecutive (a :: l)).
  cbn [List.length]. f_equal. apply IH.
Qed.

Lemma plot_finite_pen_down (p : params) (m : layout)
  (sampler : float -> float) (xs : list float) (c : float * float) :
  Forall (fun x => Number_isFinite (sampler x) = true
                   /\ drawn p m sampler x = true) xs ->
  plot p m sampler true xs
  = map (fun x => LineTo (x2px p m x) (y2px m (sampler x))) xs
  /\ segments (Some c) (plot p m sampler true xs)
     = consecutive (c :: map (samplePoint p m sampler) xs).
Proof.
  intros H. revert c. induction H as [|x xs [F D] _ IH]; intros c; simpl;
    [auto|].
  unfold plotSample. rewrite F. simpl.
  destruct (IH (samplePoint p m sampler x)) as [E1 E2].
  split; [now rewrite E1|]. unfold drawn in D. rewrite D. f_equal. exact E2.
Qed.

(** X3. Where every sample is finite and falls on a point the canvas
    accepts (finite pixel coordinates), [drawCurve] strokes one unbroken
    polyline: one [moveTo] to the first point, a [lineTo] to each further
    one, and a segment between every two neighbouring samples. *)
Theorem drawCurve_finite_samples_connected (fuel : nat) (p : params)
  (m : layout) (sampler : float -> float) (fromX toX : float)
  (x : float) (xs : list float) :
  samplePoints fuel (Math_min (xMax p) toX) (xMax p / 1000) fromX
  = Some (x :: xs) ->
  Forall (fun v => Number_isFinite (sampler v) = true
                   /\ drawn p m sampler v = true) (x :: xs) ->
  exists cmds,
    drawCurve fuel p m sampler fromX toX = Some cmds
    /\ cmds = MoveTo (x2px p m x) (y2px m (sampler x))
              :: map (fun v => LineTo (x2px p m v) (y2px m (sampler v))) xs
    /\ segments None cmds
       = consecutive (map (samplePoint p m sampler) (x :: xs))
    /\ List.length (segments None cmds) = List.length xs.
Proof.
  intros E F. inversion F as [|? ? [Fx Dx] Fxs]; subst.
  destruct (plot_finite_pen_down p m sampler xs (samplePoint p m sampler x) Fxs)
    as [E1 E2].
  assert (P : plot p m sampler false (x :: xs)
              = MoveTo (x2px p m x) (y2px m (sampler x))
                :: map (fun v => LineTo (x2px p m v) (y2px m (sampler v))) xs).
  { simpl. unfold plotSample. rewrite Fx. simpl. now rewrite E1. }
  exists (plot p m sampler false (x :: xs)).
  split; [unfold drawCurve; now rewrite drawCurveLoop_plot, E|].
  split; [exact P|].
  assert (S : segments None (plot p m sampler false (x :: xs))
              = consecutive (map (samplePoint p m sampler) (x :: xs))).
  { rewrite P. simpl segments. unfold drawn in Dx. rewrite Dx.
    rewrite <- E1. exact E2. }
  split; [exact S|]. rewrite S.
  change (map (samplePoint p m sampler) (x :: xs))
    with (samplePoint p m sampler x :: map (samplePoint p m sampler) xs).
  now rewrite consecutive_length, length_map.
Qed.

End RangeFacts.


Lemma drawCurve_finite_samples_connected_witness :
  let sampler := fun x => baseY sin_poly defaults x 0 in
  let m := mapFactory 800 420 56 in
  exists cmds,
    drawCurve 10 defaults m sampler 0 0.03 = Some cmds
    /\ List.length cmds = 4%nat
    /\ List.length (segments None cmds) = 3%nat.
Proof.
  intros sampler m.
  destruct (drawCurve_finite_samples_connected 10 defaults m sampler 0 0.03
              0 [0.01; 0.02; 0.03]) as (cmds & E & C & _ & L).
  - vm_compute. reflexivity.
  - repeat constructor.
  - exists cmds. split; [exact E|]. split; [|exact L].
    rewrite C. reflexivity.
Defined.

(** The hypothesis on the pixels is needed: a finite sample whose ordinate
    overflows is not drawn, and its neighbours are joined to each other. *)
Example drawCurve_overflowing_sample_is_skipped :
  let sampler := fun x => if (0.005 <? x) && (x <? 0.015) then 1e307 else 0 in
  let m := mapFactory 800 420 56 in
  option_map (segments None) (drawCurve 10 defaults m sampler 0 0.02)
  = Some [(samplePoint defaults m sampler 0,
           samplePoint defaults m sampler 0.02)].
Proof. intros sampler m. vm_compute. reflexivity. Qed.

(** ** The loops of [render] end *)

Section TerminationFacts.

Variable Math_sin : float -> float.
Variable Math_floor : float -> float.
Variable unsigned_long : float -> float.

(** [for (let x = from; x <= bound; x += step)] leaves within [fuel] turns
    and visits no point below [from]. *)
Fixpoint loopEnds (fuel : nat) (bound step from x : float) : bool :=
  match fuel with
  | O => false
  | S fuel' =>
      if x <=? bound
      then (from <=? x) && loopEnds fuel' bound step from (x + step)
      else true
  end.

(** So does the loop over the whole domain within 1002 turns, from [0] and
    from every setting of the junction, at every setting of [xMax]. *)
Lemma allLoopsEnd :
  forallb (fun xm =>
             loopEnds 1002 xm (xm / 1000) 0 0
             && forallb (fun sx => loopEnds 1002 xm (xm / 1000) sx sx)
                  splitXSettings)
    xMaxSettings = true.
Proof. vm_compute. reflexivity. Qed.

(** A loop that ends under a bound ends under every lower one, on a part of
    the same points. *)
Lemma loopEnds_samplePoints (fuel : nat) (bound bound' step from x : float) :
  loopEnds fuel bound step from x = true ->
  (forall v, (v <=? bound') = true -> (v <=? bound) = true) ->
  exists xs, samplePoints fuel bound' step x = Some xs
             /\ (List.length xs < fuel)%nat
             /\ Forall (fun v => (from <=? v) = true) xs.
Proof.
  intros H Low. revert x H.
  induction fuel as [|fuel IH]; intros x H; simpl in *; [discriminate|].
  destruct (x <=? bound') eqn:E.
  - rewrite (Low _ E) in H. apply andb_true_iff in H. destruct H as [F H].
    destruct (IH _ H) as (xs & -> & L & A).
    exists (x :: xs). split; [reflexivity|].
    split; [simpl; lia|now constructor].
  - exists []. split; [reflexivity|]. split; [simpl; lia|constructor].
Qed.

Lemma isSetting_In (settings : list float) (v : float) :
  isSetting settings v = true -> In v settings.
Proof.
  unfold isSetting. rewrite existsb_exists. intros (s & Hs & E).
  apply Leibniz.eqb_spec in E. now subst.
Qed.

Lemma plot_length (p : params) (m : layout) (sampler : float -> float)
  (xs : list float) (pen : bool) :
  (List.length (plot p m sampler pen xs) <= List.length xs)%nat.
Proof.
  revert pen. induction xs as [|x xs IH]; intros pen; simpl; [lia|].
  unfold plotSample.
  destruct (negb (Number_isFinite (sampler x))); simpl.
  - specialize (IH false). lia.
  - destruct (negb pen); simpl; specialize (IH true); lia.
Qed.

Lemma drawCurve_ends (p : params) (m : layout) (fromX toX : float) :
  loopEnds 1002 (xMax p) (xMax p / 1000) fromX fromX = true ->
  exists xs,
    Forall (fun v => (fromX <=? v) = true) xs
    /\ forall sampler,
         drawCurve 1002 p m sampler fromX toX
         = Some (plot p m sampler false xs)
         /\ (List.length (plot p m sampler false xs) <= 1001)%nat.
Proof.
  intros H.
  destruct (loopEnds_samplePoints 1002 (xMax p) (Math_min (xMax p) toX)
              (xMax p / 1000) fromX fromX H) as (xs & E & L & A).
  { intros v Hv. apply leb_Math_min in Hv. exact (proj1 Hv). }
  exists xs. split; [exact A|]. intros sampler.
  unfold drawCurve. rewrite drawCurveLoop_plot, E. split; [reflexivity|].
  pose proof (plot_length p m sampler xs false). lia.
Qed.

Lemma settings_loops_end (p : params) :
  isSetting xMaxSettings (xMax p) = true ->
  isSetting splitXSettings (splitX p) = true ->
  loopEnds 1002 (xMax p) (xMax p / 1000) 0 0 = true
  /\ loopEnds 1002 (xMax p) (xMax p / 1000) (splitX p) (splitX p) = true.
Proof.
  intros HX HS. apply isSetting_In in HX, HS.
  pose proof (proj1 (forallb_forall _ _) allLoopsEnd _ HX) as A.
  cbv beta in A. apply andb_true_iff in A. destruct A as [A0 AS].
  pose proof (proj1 (forallb_forall _ _) AS _ HS) as A1. cbv beta in A1.
  split; assumption.
Qed.

(** X4. The sampling loops of [render] always end: at every setting the
    sliders of [xMax] and of the junction allow, whatever the other
    parameters, the time and the canvas, each of the three calls of
    [drawCurve] leaves its loop after at most 1001 turns, so each curve has
    at most 1001 path calls. *)
Theorem render_loops_end_at_every_slider_setting
  (devicePixelRatio : option float) (p : params) (time : float) (c : canvas) :
  isSetting xMaxSettings (xMax p) = true ->
  isSetting splitXSettings (splitX p) = true ->
  exists pic base u1 u2,
    render Math_sin Math_floor unsigned_long 1002 devicePixelRatio p time
      (Some c) = Some pic
    /\ basePath pic = Some base /\ (List.length base <= 1001)%nat
    /\ u1Path pic = Some u1 /\ (List.length u1 <= 1001)%nat
    /\ u2Path pic = Some u2 /\ (List.length u2 <= 1001)%nat.
Proof.
  intros HX HS. destruct (settings_loops_end p HX HS) as [A0 A1].
  unfold render. cbv zeta.
  set (m := mapFactory (cssWidth c) (cssHeight c) 56).
  set (toX := Math_min (xMax p) (splitX p + trace p)).
  destruct (drawCurve_ends p m 0 (splitX p) A0) as (xs0 & _ & B).
  destruct (drawCurve_ends p m (splitX p) toX A1) as (xs1 & _ & U).
  destruct (B (preSplitSampler Math_sin p time)) as [Eb Lb].
  destruct (U (u1Sampler Math_sin p time)) as [E1 L1].
  destruct (U (u2Sampler Math_sin p time)) as [E2 L2].
  eexists _, _, _, _. split; [reflexivity|]. cbn [basePath u1Path u2Path].
  rewrite Eb, E1, E2. auto 10.
Qed.

(** X5. Nor do the branch curves of [render] ever meet the sentinel: at
    every setting of the two sliders, and for any end [toX], each point the
    loop visits from the junction on is at or above it, so the blue and the
    pink curve are those of [u1Y] and [u2Y] themselves.  With the same for
    the white curve, no curve [render] draws is ever broken by a sample out
    of its domain. *)
Theorem render_branch_curves_have_no_sentinel (p : params) (m : layout)
  (t toX : float) :
  isSetting xMaxSettings (xMax p) = true ->
  isSetting splitXSettings (splitX p) = true ->
  drawCurve 1002 p m (u1Sampler Math_sin p t) (splitX p) toX
  = drawCurve 1002 p m (fun x => u1Y Math_sin p x t) (splitX p) toX
  /\ drawCurve 1002 p m (u2Sampler Math_sin p t) (splitX p) toX
     = drawCurve 1002 p m (fun x => u2Y Math_sin p x t) (splitX p) toX
  /\ drawCurve 1002 p m (u1Sampler Math_sin p t) (splitX p) toX <> None
  /\ drawCurve 1002 p m (u2Sampler Math_sin p t) (splitX p) toX <> None.
Proof.
  intros HX HS. destruct (settings_loops_end p HX HS) as [_ A1].
  destruct (drawCurve_ends p m (splitX p) toX A1) as (xs & A & U).
  rewrite !(proj1 (U _)).
  split; [|split; [|split; discriminate]]; f_equal; apply plot_ext;
    (eapply Forall_impl; [|exact A]); intros x Hx;
    unfold u1Sampler, u2Sampler; now rewrite Hx.
Qed.

End TerminationFacts.

(** The defaults are such a setting; the products of the sizes and the pixel
    ratio are whole numbers here, which the floor and the conversion to
    [unsigned long] leave alone. *)
Lemma render_loops_end_at_every_slider_setting_witness :
  let c := {| clientWidth := 800; clientHeight := 420;
              canvasWidth := 300; canvasHeight := 150; ctm := identity |} in
  exists pic base,
    render sin_poly (fun x => x) (fun x => x) 1002 (Some 2) defaults 0 (Some c)
    = Some pic
    /\ basePath pic = Some base /\ (List.length base <= 1001)%nat.
Proof.
  intros c.
  destruct (render_loops_end_at_every_slider_setting sin_poly
              (fun x => x) (fun x => x) (Some 2) defaults 0 c)
    as (pic & base & u1 & u2 & E & Eb & Lb & _).
  - vm_compute. reflexivity.
  - vm_compute. reflexivity.
  - exists pic, base. auto.
Defined.

(** The branches at the defaults, drawn to the end of the domain. *)
Lemma render_branch_curves_have_no_sentinel_witness :
  let m := mapFactory 800 420 56 in
  drawCurve 1002 defaults m (u1Sampler sin_poly defaults 0) 4 10
  = drawCurve 1002 defaults m (fun x => u1Y sin_poly defaults x 0) 4 10.
Proof.
  intros m.
  destruct (render_branch_curves_have_no_sentinel sin_poly defaults m 0 10)
    as (E & _).
  - vm_compute. reflexivity.
  - vm_compute. reflexivity.
  - exact E.
Defined.

(** ** The grid *)

Section GridFacts.

(** The whole numbers [0], [1], ..., [k]. *)
Definition wholes (k : nat) : list float := map whole (seq 0 (S k)).

Fixpoint sameNumbers (xs ys : list float) : bool :=
  match xs, ys with
  | [], [] => true
  | x :: xs', y :: ys' => PrimFloat.Leibniz.eqb x y && sameNumbers xs' ys'
  | _, _ => false
  end.

Lemma sameNumbers_eq (xs ys : list float) :
  sameNumbers xs ys = true -> xs = ys.
Proof.
  revert ys. induction xs as [|x xs IH]; intros [|y ys]; simpl;
    try discriminate; [reflexivity|].
  intros H. apply andb_true_iff in H. destruct H as [E H].
  apply Leibniz.eqb_spec in E. subst. f_equal. now apply IH.
Qed.

(** The vertical loop at the setting [xm]: it visits [0], [1], ..., [k]
    where [k] is the whole part of [xm]. *)
Definition wholeLines (xm : float) : bool :=
  match samplePoints 22 xm 1 0 with
  | None => false
  | Some xs =>
      let k := Nat.pred (List.length xs) in
      sameNumbers xs (wholes k)
      && (whole k <=? xm) && (xm <? whole (S k))
      && Nat.leb 6 k && Nat.leb k 20
  end.

Lemma wholeLines_at_every_setting : forallb wholeLines xMaxSettings = true.
Proof. vm_compute. reflexivity. Qed.

Lemma horizontal_loop :
  samplePoints 22 2 0.5 (-2) = Some [-2; -1.5; -1; -0.5; 0; 0.5; 1; 1.5; 2].
Proof. vm_compute. reflexivity. Qed.

(** X6. The grid does not drift: at every setting of the [xMax] slider
    [drawGrid] strokes a vertical line at each whole number from 0 to the
    whole part of [xMax] and at no other abscissa, then the nine horizontal
    lines from -2 to 2 in steps of one half, the two axes and the junction
    marker; its two loops leave within 22 turns. *)
Theorem drawGrid_lines_at_whole_numbers (p : params) (m : layout) :
  isSetting xMaxSettings (xMax p) = true ->
  exists k,
    (6 <= k <= 20)%nat
    /\ (whole k <=? xMax p) = true /\ (xMax p <? whole (S k)) = true
    /\ drawGrid 22 p m
       = Some (map (verticalLine p m) (wholes k)
               ++ map (horizontalLine m)
                    [-2; -1.5; -1; -0.5; 0; 0.5; 1; 1.5; 2]
               ++ [horizontalLine m 0; verticalLine p m 0;
                   verticalLine p m (splitX p)]).
Proof.
  intros HX. unfold isSetting in HX. apply existsb_exists in HX.
  destruct HX as (s & Hs & E). apply Leibniz.eqb_spec in E. subst s.
  pose proof (proj1 (forallb_forall _ _) wholeLines_at_every_setting _ Hs)
    as W.
  unfold wholeLines in W. unfold drawGrid. rewrite horizontal_loop.
  destruct (samplePoints 22 (xMax p) 1 0) as [xs|]; [|discriminate].
  repeat (apply andb_true_iff in W; destruct W as [W ?]).
  apply sameNumbers_eq in W.
  exists (Nat.pred (List.length xs)).
  split; [split; [now apply Nat.leb_le|now apply Nat.leb_le]|].
  split; [assumption|]. split; [assumption|]. now rewrite <- W.
Qed.

End GridFacts.

(** At the defaults. *)
Lemma drawGrid_lines_at_whole_numbers_witness :
  exists k, option_map (@List.length _)
              (drawGrid 22 defaults (mapFactory 800 420 56))
            = Some (S k + 9 + 3)%nat
            /\ (6 <= k <= 20)%nat.
Proof.
  destruct (drawGrid_lines_at_whole_numbers defaults (mapFactory 800 420 56))
    as (k & B & _ & _ & E).
  - vm_compute. reflexivity.
  - exists k. split; [|exact B]. rewrite E. cbn [option_map]. f_equal.
    rewrite !length_app, !length_map. unfold wholes.
    rewrite length_map, length_seq. simpl. lia.
Defined.

(** ** The drawing area, the frame step and the backing store *)

Section LayoutFacts.

Variable Math_floor : float -> float.
Variable unsigned_long : float -> float.

(** X7. The drawing area of [mapFactory] never collapses: for finite sizes
    and padding its width and height are at least one CSS pixel, and exactly
    one when the paddings leave less than a pixel between them. *)
Theorem mapFactory_area_at_least_one_pixel (cssW cssH padding : float) :
  is_finite cssW = true -> is_finite cssH = true ->
  is_finite padding = true ->
  let m := mapFactory cssW cssH padding in
  (1 <=? width m) = true
  /\ (1 <=? height m) = true
  /\ ((cssW - padding - padding <? 1) = true -> width m = 1)
  /\ ((cssH - padding - padding <? 1) = true -> height m = 1).
Proof.
  intros HW HH HP m. subst m. unfold mapFactory. cbn [width height].
  assert (NW : is_nan (cssW - padding - padding) = false).
  { apply sub_not_nan_r; [|exact HP]. now apply sub_finite_not_nan. }
  assert (NH : is_nan (cssH - padding - padding) = false).
  { apply sub_not_nan_r; [|exact HP]. now apply sub_finite_not_nan. }
  split; [now apply Math_max_lower|].
  split; [now apply Math_max_lower|].
  split; apply Math_max_left.
Qed.

(** X8. One frame moves the clock by at most 0.05 s of playback, however
    long the browser kept the callback waiting: the live closure adds
    [dt * speed] to [time] while playing, and nothing while paused, where
    [dt] is [Math.min(0.05, (now - last) / 1000)]; for finite time stamps
    this [dt] is a number not above 0.05, it is 0.05 itself when the elapsed
    seconds exceed 0.05 and the elapsed seconds when they are below; [tick]
    remembers [now]. *)
Theorem tick_step_at_most_50ms (now : float) (s : component) :
  is_finite now = true -> is_finite (last s) = true ->
  let elapsed := (now - last s) / 1000 in
  let dt := Math_min 0.05 elapsed in
  time (tick now (effect s) s)
  = (if playing s then time s + dt * speed (model s) else time s)
  /\ last (tick now (effect s) s) = now
  /\ (dt <=? 0.05) = true
  /\ is_nan dt = false
  /\ ((0.05 <? elapsed) = true -> dt = 0.05)
  /\ ((elapsed <? 0.05) = true -> dt = elapsed).
Proof.
  intros Hn Hl elapsed dt.
  assert (N : is_nan elapsed = false).
  { apply div_not_nan_l; [|reflexivity|reflexivity].
    now apply sub_finite_not_nan. }
  split; [|split; [|split; [|split; [|split]]]].
  - unfold tick. rewrite Nat.eqb_refl. cbn [negb].
    unfold DualUniverse.requestAnimationFrame. cbn [time last].
    destruct (playing s) eqn:P; simpl; rewrite P; reflexivity.
  - unfold tick. rewrite Nat.eqb_refl. cbn [negb].
    unfold DualUniverse.requestAnimationFrame. cbn [time last].
    destruct (playing s) eqn:P; simpl; rewrite P; reflexivity.
  - now apply Math_min_le_l.
  - subst dt.
    now destruct (Math_min_cases 0.05 elapsed eq_refl N) as [[-> _]|[-> _]].
  - apply Math_min_left.
  - apply Math_min_right.
Qed.

(** X9. Once [render] has fitted the backing store it leaves it alone: if
    the sizes it computes survive the conversion to [unsigned long], the step
    run again finds the store up to date, so the canvas is not reallocated
    (and cleared) on the following frames. *)
Theorem hidpiSetup_resizes_once (d : option float) (c : canvas) :
  let W := Math_floor (cssWidth c * pixelRatio d) in
  let H := Math_floor (cssHeight c * pixelRatio d) in
  (unsigned_long W =? W) = true -> (unsigned_long H =? H) = true ->
  let c' := hidpiSetup Math_floor unsigned_long d c in
  staleSize Math_floor d c' = false
  /\ canvasWidth (hidpiSetup Math_floor unsigned_long d c') = canvasWidth c'
  /\ canvasHeight (hidpiSetup Math_floor unsigned_long d c') = canvasHeight c'
  /\ clientWidth c' = clientWidth c /\ clientHeight c' = clientHeight c.
Proof.
  intros W H EW EH c'.
  assert (St : staleSize Math_floor d c' = false).
  { subst c'. rewrite hidpiSetup_cases.
    destruct (staleSize Math_floor d c) eqn:E.
    - unfold staleSize, fitted, strict_neq, cssWidth, cssHeight in *.
      cbn [canvasWidth canvasHeight clientWidth clientHeight].
      fold W H. unfold cssWidth, cssHeight in W, H. fold W H.
      now rewrite EW, EH.
    - exact E. }
  split; [exact St|].
  rewrite (hidpiSetup_cases Math_floor unsigned_long d c'), St.
  split; [reflexivity|]. split; [reflexivity|].
  subst c'. rewrite hidpiSetup_cases.
  now destruct (staleSize Math_floor d c).
Qed.

End LayoutFacts.

(** A canvas 100 pixels wide with the padding of 56 that [render] uses. *)
Lemma mapFactory_area_at_least_one_pixel_witness :
  (1 <=? width (mapFactory 100 420 56)) = true
  /\ width (mapFactory 100 420 56) = 1
  /\ (1 <=? height (mapFactory 100 420 56)) = true.
Proof.
  destruct (mapFactory_area_at_least_one_pixel 100 420 56
              eq_refl eq_refl eq_refl) as (Hw & Hh & Ew & _).
  split; [exact Hw|]. split; [apply Ew; reflexivity|exact Hh].
Defined.

(** A callback that waited five seconds moves the clock by 0.05. *)
Lemma tick_step_at_most_50ms_witness :
  time (tick 5000 (effect (mount 0)) (mount 0)) = 0 + 0.05 * 1
  /\ last (tick 5000 (effect (mount 0)) (mount 0)) = 5000.
Proof.
  destruct (tick_step_at_most_50ms 5000 (mount 0) eq_refl eq_refl)
    as (T & L & _ & _ & E & _).
  cbv zeta in E. rewrite (E eq_refl) in T. split; [exact T|exact L].
Defined.

(** A fresh 300 by 150 store behind an 800 by 420 box at pixel ratio 2: stale
    before the step, up to date after it.  The sizes are whole numbers, which
    the floor and the conversion leave alone. *)
Lemma hidpiSetup_resizes_once_witness :
  let floor := fun x : float => x in
  let c := {| clientWidth := 800; clientHeight := 420;
              canvasWidth := 300; canvasHeight := 150; ctm := identity |} in
  staleSize floor (Some 2) c = true
  /\ staleSize floor (Some 2) (hidpiSetup floor floor (Some 2) c) = false.
Proof.
  intros floor c. split; [reflexivity|].
  destruct (hidpiSetup_resizes_once floor floor (Some 2) c eq_refl eq_refl)
    as [St _].
  exact St.
Defined.

(** ** Unmounting the canvas component *)

Section UnmountFacts.

(** X10. The canvas component leaves no frame callback behind: after any
    sequence of Play/Pause, Reset and animation frames the browser holds
    one callback, that of the live effect closure under the handle in
    [rafRef], so the cleanup React runs on unmount cancels it and nothing
    is left to fire. *)
Theorem unmount_leaves_no_frame (now : float) (acts : list action) :
  let s := fold_left act acts (mount now) in
  queue (cleanup s) = []
  /\ List.length (queue s) = 1%nat
  /\ Forall (fun cb => fst cb = rafRef s /\ snd cb = effect s) (queue s).
Proof.
  intros s. pose proof (effect_holds_one_frame now acts) as Q.
  cbv zeta in Q. fold s in Q.
  unfold cleanup, cancelAnimationFrame. cbn [queue]. rewrite Q.
  simpl. rewrite Nat.eqb_refl. simpl. repeat split. repeat constructor.
Qed.

End UnmountFacts.

(** ** The frame queue of the oscilloscope *)

Section QueueFacts.

(** The [drawFrame] callbacks among [cbs]. *)
Definition drawFrames (cbs : list Scope.callback) : nat :=
  List.length
    (filter (fun cb => match cb with
                       | Scope.DrawFrame => true
                       | Scope.BootProbe => false
                       end) cbs).

Lemma pendingFrames_drawFrames (s : Scope.state) :
  Scope.pendingFrames s = drawFrames (Scope.rafQueue s).
Proof. reflexivity. Qed.

Lemma drawFrames_app (xs ys : list Scope.callback) :
  drawFrames (xs ++ ys) = (drawFrames xs + drawFrames ys)%nat.
Proof. unfold drawFrames. now rewrite filter_app, length_app. Qed.

(** What running the held callbacks does to the queue, to [running] and to
    [t]: while running each [drawFrame] adds [dt] and asks for another
    frame; while paused none does. *)
Lemma held_callbacks (ts : float) (cbs : list Scope.callback)
  (acc : Scope.state * list Scope.logLine) :
  let r := fold_left
             (fun acc cb =>
                let '(s1, out) := Scope.runCallback ts cb (fst acc) in
                (s1, snd acc ++ out)) cbs acc in
  Scope.running (fst r) = Scope.running (fst acc)
  /\ Scope.dt (fst r) = Scope.dt (fst acc)
  /\ drawFrames (Scope.rafQueue (fst r))
     = (drawFrames (Scope.rafQueue (fst acc))
        + if Scope.running (fst acc) then drawFrames cbs else 0)%nat
  /\ Scope.t (fst r)
     = if Scope.running (fst acc)
       then Nat.iter (drawFrames cbs) (fun v => v + Scope.dt (fst acc))
              (Scope.t (fst acc))
       else Scope.t (fst acc).
Proof.
  revert acc. induction cbs as [|cb cbs IH]; intros acc; simpl.
  - destruct (Scope.running (fst acc)); repeat split;
      unfold drawFrames; simpl; lia.
  - destruct (Scope.runCallback ts cb (fst acc)) as [s1 out] eqn:E.
    specialize (IH (s1, snd acc ++ out)). simpl in IH.
    destruct IH as (IHr & IHd & IHq & IHt).
    destruct cb; simpl in E.
    + (* drawFrame *)
      unfold Scope.drawFrame in E.
      destruct (Scope.running (fst acc)) eqn:R; simpl in E.
      * assert (S1 : Scope.running s1 = true
                     /\ Scope.dt s1 = Scope.dt (fst acc)
                     /\ Scope.rafQueue s1
                        = Scope.rafQueue (fst acc) ++ [Scope.DrawFrame]
                     /\ Scope.t s1 = Scope.t (fst acc) + Scope.dt (fst acc)).
        { destruct (truthy ts && (250 <? ts - Scope.lastTick (fst acc)));
            injection E as <- _; simpl; rewrite R; auto. }
        destruct S1 as (S1r & S1d & S1q & S1t).
        rewrite IHr, IHd, IHq, IHt, S1r, S1d, S1q, S1t, drawFrames_app.
        repeat split; try reflexivity.
        -- change (drawFrames (Scope.DrawFrame :: cbs))
             with (S (drawFrames cbs)).
           change (drawFrames [Scope.DrawFrame]) with 1%nat. lia.
        -- change (drawFrames (Scope.DrawFrame :: cbs))
             with (S (drawFrames cbs)).
           now rewrite Nat.iter_succ_r.
      * injection E as <- _.
        rewrite IHr, IHd, IHq, IHt. simpl. rewrite R. auto.
    + (* the probe of boot *)
      injection E as <- _.
      rewrite IHr, IHd, IHq, IHt.
      destruct (Scope.running (fst acc)); auto.
Qed.

(** An animation frame keeps [running]; while running it leaves as many
    [drawFrame] callbacks pending as it found, while paused none. *)
Lemma animationFrame_queue (ts : float) (s : Scope.state) :
  Scope.running (fst (Scope.animationFrame ts s)) = Scope.running s
  /\ Scope.pendingFrames (fst (Scope.animationFrame ts s))
     = (if Scope.running s then Scope.pendingFrames s else 0%nat)
  /\ Scope.t (fst (Scope.animationFrame ts s))
     = if Scope.running s
       then Nat.iter (Scope.pendingFrames s) (fun v => v + Scope.dt s)
              (Scope.t s)
       else Scope.t s.
Proof.
  unfold Scope.animationFrame.
  destruct (held_callbacks ts (Scope.rafQueue s) (Scope.clearQueue s, []))
    as (Hr & _ & Hq & Ht).
  simpl in Hr, Hq, Ht. rewrite !pendingFrames_drawFrames.
  split; [exact Hr|]. split; [exact Hq|exact Ht].
Qed.

(** X11. The running scope never stalls: after any sequence of button presses
    and animation frames since the page was loaded, if [running] is set
    then at least one [drawFrame] callback is pending. *)
Theorem running_scope_has_a_frame_pending (es : list Scope.event) :
  let s := Scope.run es Scope.booted in
  Scope.running s = true -> (1 <= Scope.pendingFrames s)%nat.
Proof.
  assert (Step : forall e s,
            (Scope.running s = true -> (1 <= Scope.pendingFrames s)%nat) ->
            Scope.running (fst (Scope.handle e s)) = true ->
            (1 <= Scope.pendingFrames (fst (Scope.handle e s)))%nat).
  { intros e s Inv. destruct e; cbn [Scope.handle]; try exact Inv.
    - unfold Scope.onStart. destruct (Scope.running s) eqn:R; simpl.
      + intros _. apply Inv. reflexivity.
      + intros _. rewrite !pendingFrames_drawFrames. simpl.
        rewrite drawFrames_app.
        change (drawFrames [Scope.DrawFrame]) with 1%nat. lia.
    - discriminate.
    - intros _. rewrite !pendingFrames_drawFrames. simpl.
      rewrite drawFrames_app.
      change (drawFrames [Scope.DrawFrame]) with 1%nat. lia.
    - destruct (animationFrame_queue ts s) as (Hr & Hq & _).
      rewrite Hr, Hq. intros R. rewrite R. now apply Inv. }
  unfold Scope.run.
  assert (Init : Scope.running Scope.booted = true ->
                 (1 <= Scope.pendingFrames Scope.booted)%nat)
    by discriminate.
  revert Init. generalize Scope.booted.
  induction es as [|e es IH]; intros s Inv; simpl; [exact Inv|].
  apply IH. now apply Step.
Qed.

(** X12. A frame that finds the scope paused drains the queue, so Start
    after it holds exactly one [drawFrame] callback again, however many were
    pending before; while the scope runs, a frame leaves as many callbacks
    pending as it found and advances [t] by [dt] once for each. *)
Theorem paused_frame_drains_the_queue (s : Scope.state) (ts : float) :
  (Scope.running s = false ->
     Scope.pendingFrames (fst (Scope.animationFrame ts s)) = 0%nat)
  /\ Scope.pendingFrames
       (Scope.run [Scope.Pause; Scope.AnimationFrame ts; Scope.Start] s)
     = 1%nat
  /\ (Scope.running s = true ->
        Scope.pendingFrames (fst (Scope.animationFrame ts s))
        = Scope.pendingFrames s
        /\ Scope.t (fst (Scope.animationFrame ts s))
           = Nat.iter (Scope.pendingFrames s) (fun v => v + Scope.dt s)
               (Scope.t s)).
Proof.
  split; [|split].
  - intros R. destruct (animationFrame_queue ts s) as (_ & Hq & _).
    now rewrite Hq, R.
  - unfold Scope.run. cbn [fold_left Scope.handle].
    set (s0 := fst (Scope.onPause s)).
    destruct (animationFrame_queue ts s0) as (Hr & Hq & _).
    change (Scope.running s0) with false in Hr, Hq.
    set (s1 := fst (Scope.animationFrame ts s0)) in *.
    unfold Scope.onStart. rewrite Hr. cbn [negb fst].
    rewrite pendingFrames_drawFrames in *. simpl.
    rewrite drawFrames_app, Hq. reflexivity.
  - intros R. destruct (animationFrame_queue ts s) as (_ & Hq & Ht).
    now rewrite Hq, Ht, R.
Qed.

End QueueFacts.

(** The doubled loop of Start, Pause, Start is single again once a frame has
    passed while paused. *)
Lemma paused_frame_drains_the_queue_witness :
  let doubled := Scope.run [Scope.Start; Scope.Pause; Scope.Start]
                   Scope.booted in
  Scope.pendingFrames doubled = 2%nat
  /\ Scope.pendingFrames
       (Scope.run [Scope.Pause; Scope.AnimationFrame 16; Scope.Start] doubled)
     = 1%nat.
Proof.
  intros doubled. split; [reflexivity|].
  destruct (paused_frame_drains_the_queue doubled 16) as (_ & H & _).
  exact H.
Defined.

(** Start and one frame. *)
Lemma running_scope_has_a_frame_pending_witness :
  Scope.running (Scope.run [Scope.Start; Scope.AnimationFrame 16] Scope.booted)
  = true
  /\ (1 <= Scope.pendingFrames
             (Scope.run [Scope.Start; Scope.AnimationFrame 16] Scope.booted))%nat.
Proof.
  assert (R : Scope.running
                (Scope.run [Scope.Start; Scope.AnimationFrame 16] Scope.booted)
              = true) by reflexivity.
  split; [exact R|].
  exact (running_scope_has_a_frame_pending
           [Scope.Start; Scope.AnimationFrame 16] R).
Defined.

(** ** The typing loop of the chat *)

Section ChatFacts.

Variable codeUnit : Type.

#[local] Abbreviation state := (Chat.state codeUnit).
#[local] Abbreviation line := (Chat.line codeUnit).

(** The typing loop is alive exactly while [playing] is set: then the
    browser holds one timeout, the one [chatTimer] names; else none.  The
    nodes of the pane are older than the next one. *)
Definition chatInvariant (s : state) : Prop :=
  (if Chat.playing s
   then exists id f, Chat.timers s = [(id, f)] /\ Chat.chatTimer s = Some id
   else Chat.timers s = [])
  /\ Forall (fun m => (Chat.node m < Chat.nextNode s)%nat) (Chat.chatEl s).

Lemma tick_invariant (lines : list line) (i msg : nat)
  (text : list codeUnit) (k : nat) (speed : float) (s : state) :
  Chat.playing s = true -> Chat.timers s = [] ->
  Forall (fun m => (Chat.node m < Chat.nextNode s)%nat) (Chat.chatEl s) ->
  chatInvariant (Chat.tick lines i msg text k speed s).
Proof.
  intros P T F. unfold Chat.tick.
  assert (F' : Forall (fun m => (Chat.node m < Chat.nextNode s)%nat)
                 (Chat.chatEl (Chat.setText msg (Chat.slice text k) s))).
  { simpl. apply Forall_map. eapply Forall_impl; [|exact F].
    intros m Hm. now destruct (Nat.eqb (Chat.node m) msg). }
  destruct (k + Chat.increment text speed <=? List.length text)%nat;
    split; simpl; try exact F'; rewrite P, T; simpl; eauto.
Qed.

Lemma step_invariant (lines : list line) (i : nat) (random : float)
  (s : state) :
  Chat.playing s = true -> Chat.timers s = [] ->
  Forall (fun m => (Chat.node m < Chat.nextNode s)%nat) (Chat.chatEl s) ->
  chatInvariant (Chat.step lines i random s).
Proof.
  intros P T F. unfold Chat.step.
  destruct (nth_error lines i) as [[w text]|].
  - apply tick_invariant; simpl; auto.
    apply Forall_app. split.
    + eapply Forall_impl; [|exact F]. simpl. intros m Hm. lia.
    + repeat constructor.
  - split; simpl; [exact T|exact F].
Qed.

Lemma clear_invariant (s : state) :
  chatInvariant s ->
  chatInvariant (Chat.clear s)
  /\ Chat.timers (Chat.clear s) = []
  /\ Chat.playing (Chat.clear s) = false
  /\ Chat.chatEl (Chat.clear s) = [].
Proof.
  intros [I _].
  assert (T : Chat.timers (Chat.clear s) = []).
  { unfold Chat.clear. destruct (Chat.playing s).
    - destruct I as (id & f & T & C). rewrite C. simpl. rewrite T. simpl.
      now rewrite Nat.eqb_refl.
    - destruct (Chat.chatTimer s); simpl; rewrite I; reflexivity. }
  split; [|auto]. split; simpl; [exact T|constructor].
Qed.

Lemma play_invariant (lines : list line) (random : float) (s : state) :
  chatInvariant s -> chatInvariant (Chat.play lines random s).
Proof.
  intros I. unfold Chat.play. destruct (Chat.playing s) eqn:P; [exact I|].
  destruct I as [T F]. rewrite P in T.
  unfold Chat.typeSequence. now apply step_invariant.
Qed.

Lemma fire_invariant (id : nat) (random : float) (s : state) :
  chatInvariant s -> chatInvariant (Chat.fire id random s).
Proof.
  intros I. unfold Chat.fire.
  destruct (find (fun e => Nat.eqb (fst e) id) (Chat.timers s))
    as [[id' f]|] eqn:E; [|exact I].
  destruct I as [T F]. destruct (Chat.playing s) eqn:P.
  - destruct T as (id0 & f0 & T & C). rewrite T in E. simpl in E.
    destruct (Nat.eqb id0 id) eqn:Q; [|discriminate].
    injection E as <- <-.
    assert (T' : Chat.timers (Chat.clearTimeout id s) = []).
    { simpl. rewrite T. simpl. now rewrite Q. }
    destruct f0; [apply tick_invariant|apply step_invariant]; auto.
  - rewrite T in E. discriminate.
Qed.

Lemma handle_invariant (e : Chat.event codeUnit) (s : state) :
  chatInvariant s -> chatInvariant (Chat.handle s e).
Proof.
  intros I. destruct e; simpl.
  - now apply play_invariant.
  - apply play_invariant. now apply clear_invariant.
  - now apply clear_invariant.
  - now apply fire_invariant.
Qed.

Lemma run_invariant (es : list (Chat.event codeUnit)) :
  chatInvariant (Chat.run es).
Proof.
  unfold Chat.run.
  assert (Init : chatInvariant (@Chat.initial codeUnit))
    by (split; [reflexivity|constructor]).
  revert Init. generalize (@Chat.initial codeUnit).
  induction es as [|e es IH]; intros s I; simpl; [exact I|].
  apply IH. now apply handle_invariant.
Qed.

(** X13. The chat never runs two typing loops: after any sequence of Play,
    Regenerate, Clear and timeouts the browser holds at most one timeout of
    the chat; it holds one, the one [chatTimer] names, exactly while
    [playing] is set, so Play is refused only while a loop is alive. *)
Theorem chat_holds_one_timeout_while_playing
  (es : list (Chat.event codeUnit)) :
  let s := Chat.run es in
  (List.length (Chat.timers s) <= 1)%nat
  /\ (Chat.playing s = true <->
        exists id f, Chat.timers s = [(id, f)] /\ Chat.chatTimer s = Some id)
  /\ (Chat.playing s = false <-> Chat.timers s = []).
Proof.
  intros s. destruct (run_invariant es) as [I _]. fold s in I.
  destruct (Chat.playing s).
  - destruct I as (id & f & T & C). rewrite T. simpl.
    split; [lia|]. split; split; try discriminate; eauto.
  - rewrite I. simpl. split; [lia|]. split; split; try reflexivity;
      try discriminate.
    intros (id & f & T & _). discriminate.
Qed.

(** X14. Clear stops the duet for good: whatever was going on, after Clear
    no timeout of the chat is left, so timeouts that arrive later type
    nothing and the pane stays empty until Play; Regenerate starts the new
    script on an empty pane with its first message and one timeout. *)
Theorem clear_stops_the_typing (es : list (Chat.event codeUnit))
  (late : list (nat * float)) :
  let s := fold_left (@Chat.handle codeUnit)
             (map (fun e => Chat.Timeout (fst e) (snd e)) late)
             (Chat.handle (Chat.run es) Chat.Clear) in
  Chat.chatEl s = [] /\ Chat.playing s = false /\ Chat.timers s = []
  /\ forall w text rest random,
       let s' := Chat.handle (Chat.run es)
                   (Chat.Regen ((w, text) :: rest) random) in
       Chat.playing s' = true
       /\ List.length (Chat.timers s') = 1%nat
       /\ map (@Chat.who codeUnit) (Chat.chatEl s') = [w]
       /\ map (@Chat.textContent codeUnit) (Chat.chatEl s') = [[]].
Proof.
  intros s.
  destruct (clear_invariant _ (run_invariant es)) as (_ & T & P & C).
  assert (Late : Chat.chatEl s = [] /\ Chat.playing s = false
                 /\ Chat.timers s = []).
  { subst s. cbn [Chat.handle].
    revert T P C. generalize (Chat.clear (Chat.run es)).
    induction late as [|[id r] late IH]; intros s T P C; simpl; [auto|].
    assert (E : Chat.fire id r s = s) by (unfold Chat.fire; now rewrite T).
    rewrite E. now apply IH. }
  destruct Late as (L1 & L2 & L3).
  split; [exact L1|]. split; [exact L2|]. split; [exact L3|].
  intros w text rest random s'. subst s'. cbn [Chat.handle].
  unfold Chat.regen, Chat.play. rewrite P.
  revert T P C. generalize (Chat.clear (Chat.run es)). intros c T P C.
  unfold Chat.typeSequence, Chat.step. cbn [nth_error].
  unfold Chat.tick.
  destruct (0 + Chat.increment text _ <=? List.length text)%nat;
    simpl; rewrite T, C; simpl; rewrite Nat.eqb_refl; auto.
Qed.

(** *** One message *)

Lemma setText_setText (msg : nat) (u v : list codeUnit) (s : state) :
  Chat.chatEl (Chat.setText msg v (Chat.setText msg u s))
  = Chat.chatEl (Chat.setText msg v s).
Proof.
  simpl. rewrite map_map. apply map_ext. intros m.
  destruct (Nat.eqb (Chat.node m) msg) eqn:E; simpl; now rewrite E.
Qed.

(** The runs of [tick] for one message, from the timeout that shows
    [k] code units to the one that hands over to [step]. *)
Lemma tick_chain (r : float) (lines : list line) (i msg : nat)
  (text : list codeUnit) (speed : float) :
  let inc := Chat.increment text speed in
  forall (n k : nat) (s : state) (id : nat),
    Chat.timers s = [(id, Chat.TickTimeout lines i msg text k speed)] ->
    Chat.chatTimer s = Some id ->
    (k + n * inc <= List.length text < k + S n * inc)%nat ->
    let s' := Nat.iter (S n) (Chat.fireChatTimer r) s in
    (exists id', Chat.timers s' = [(id', Chat.StepTimeout lines i)]
                 /\ Chat.chatTimer s' = Some id')
    /\ Chat.chatEl s'
       = Chat.chatEl (Chat.setText msg (firstn (k + n * inc) text) s)
    /\ Chat.nextNode s' = Chat.nextNode s
    /\ Chat.playing s' = Chat.playing s.
Proof.
  intros inc. induction n as [|n IH]; intros k s id T C B s'; subst s'.
  - simpl. unfold Chat.fireChatTimer, Chat.fire. rewrite C, T. simpl.
    rewrite Nat.eqb_refl. unfold Chat.tick. fold inc.
    assert (L : (k + inc <=? List.length text)%nat = false)
      by (apply Nat.leb_gt; lia).
    rewrite L. simpl. rewrite T. simpl. rewrite Nat.eqb_refl. simpl.
    rewrite Nat.add_0_r. unfold Chat.slice. eauto 6.
  - rewrite Nat.iter_succ_r.
    set (s1 := Chat.fireChatTimer r s).
    assert (S1 : Chat.timers s1
                 = [(Chat.nextTimer s,
                     Chat.TickTimeout lines i msg text (k + inc) speed)]
                 /\ Chat.chatTimer s1 = Some (Chat.nextTimer s)
                 /\ Chat.chatEl s1
                    = Chat.chatEl (Chat.setText msg (firstn k text) s)
                 /\ Chat.nextNode s1 = Chat.nextNode s
                 /\ Chat.playing s1 = Chat.playing s).
    { subst s1. unfold Chat.fireChatTimer, Chat.fire. rewrite C, T. simpl.
      rewrite Nat.eqb_refl. unfold Chat.tick. fold inc.
      assert (L : (k + inc <=? List.length text)%nat = true)
        by (apply Nat.leb_le; simpl in B; nia).
      rewrite L. simpl. rewrite T. simpl. rewrite Nat.eqb_refl. simpl.
      auto. }
    destruct S1 as (T1 & C1 & E1 & N1 & P1).
    destruct (IH (k + inc)%nat s1 _ T1 C1) as (Ht & He & Hn & Hp).
    { simpl in *. nia. }
    split; [exact Ht|]. split; [|split; congruence].
    rewrite He.
    replace (k + inc + n * inc)%nat with (k + S n * inc)%nat by (simpl; lia).
    simpl. rewrite E1. simpl. rewrite map_map. apply map_ext. intros m.
    destruct (Nat.eqb (Chat.node m) msg) eqn:E; simpl; now rewrite E.
Qed.

(** X15. A message is typed in steps of [inc = Math.max(1, Math.round(
    text.length / speed))] code units and stops at the last multiple of
    [inc] that fits: once [step] has started the message and the
    [text.length / inc] timeouts of [tick] have run, the next timeout is
    [step]'s for the following line and the message shows the first
    [inc * (text.length / inc)] code units of its text, the whole text only
    when [inc] divides its length. *)
Theorem message_stops_at_a_multiple_of_the_increment
  (lines : list line) (i : nat) (w : Chat.speaker) (text : list codeUnit)
  (random r : float) (s : state) :
  nth_error lines i = Some (w, text) ->
  Chat.timers s = [] ->
  Forall (fun m => (Chat.node m < Chat.nextNode s)%nat) (Chat.chatEl s) ->
  let inc := Chat.increment text (12 + random * 10) in
  let n := (List.length text / inc)%nat in
  let s' := Nat.iter n (Chat.fireChatTimer r) (Chat.step lines i random s) in
  (exists id, Chat.timers s' = [(id, Chat.StepTimeout lines (S i))]
              /\ Chat.chatTimer s' = Some id)
  /\ Chat.chatEl s'
     = Chat.chatEl s
       ++ [{| Chat.node := Chat.nextNode s; Chat.who := w;
              Chat.textContent := firstn (inc * n) text |}]
  /\ (firstn (inc * n) text = text <-> (List.length text mod inc = 0)%nat).
Proof.
  intros L T F inc n s'.
  assert (Hinc : (1 <= inc)%nat) by (subst inc; unfold Chat.increment; lia).
  assert (Hn : (inc * n <= List.length text < inc * S n)%nat).
  { subst n. split.
    - apply Nat.Div0.mul_div_le.
    - apply Nat.mul_succ_div_gt. lia. }
  assert (Fresh : forall v,
            Chat.chatEl (Chat.setText (Chat.nextNode s) v
                           (Chat.appendChild w s))
            = Chat.chatEl s
              ++ [{| Chat.node := Chat.nextNode s; Chat.who := w;
                     Chat.textContent := v |}]).
  { intros v. simpl. rewrite map_app. simpl. rewrite Nat.eqb_refl.
    f_equal. rewrite <- (map_id (Chat.chatEl s)) at 2.
    apply map_ext_Forall. eapply Forall_impl; [|exact F].
    intros m Hm. simpl in Hm.
    assert (E : Nat.eqb (Chat.node m) (Chat.nextNode s) = false)
      by (apply Nat.eqb_neq; lia).
    now rewrite E. }
  split; [|split].
  3:{ split.
      - intros E. apply (f_equal (@List.length codeUnit)) in E.
        rewrite length_firstn in E.
        pose proof (Nat.div_mod_eq (List.length text) inc). subst n. lia.
      - intros E. apply firstn_all2.
        pose proof (Nat.div_mod_eq (List.length text) inc). subst n. lia. }
  all: subst s'; unfold Chat.step; rewrite L; cbv zeta; unfold Chat.tick;
    cbn [Nat.add]; fold inc;
    destruct (inc <=? List.length text)%nat eqn:Q.
  - (* at least one timeout of tick *)
    apply Nat.leb_le in Q.
    destruct n as [|n']; [exfalso; nia|].
    set (s1 := Chat.setTimeout _ _).
    destruct (tick_chain r lines (S i) (Chat.nextNode s) text
                (12 + random * 10) n' inc s1 (Chat.nextTimer s))
      as (Ht & _).
    + subst s1. simpl. now rewrite T.
    + reflexivity.
    + fold inc. nia.
    + exact Ht.
  - apply Nat.leb_gt in Q.
    destruct n as [|n']; [|exfalso; nia].
    simpl. rewrite T. simpl. eauto.
  - apply Nat.leb_le in Q.
    destruct n as [|n']; [exfalso; nia|].
    set (s1 := Chat.setTimeout _ _).
    destruct (tick_chain r lines (S i) (Chat.nextNode s) text
                (12 + random * 10) n' inc s1 (Chat.nextTimer s))
      as (_ & He & _).
    + subst s1. simpl. now rewrite T.
    + reflexivity.
    + fold inc. nia.
    + fold inc in He. rewrite He. subst s1.
      replace (inc + n' * inc)%nat with (inc * S n')%nat by lia.
      change (Chat.chatEl
                (Chat.setText (Chat.nextNode s) (firstn (inc * S n') text)
                   (Chat.setTimeout
                      (Chat.TickTimeout lines (S i) (Chat.nextNode s) text
                         inc (12 + random * 10))
                      (Chat.setText (Chat.nextNode s) (Chat.slice text 0)
                         (Chat.appendChild w s)))))
        with (Chat.chatEl
                (Chat.setText (Chat.nextNode s) (firstn (inc * S n') text)
                   (Chat.setText (Chat.nextNode s) (Chat.slice text 0)
                      (Chat.appendChild w s)))).
      rewrite setText_setText. apply Fresh.
  - apply Nat.leb_gt in Q.
    destruct n as [|n']; [|exfalso; nia].
    rewrite Nat.mul_0_r.
    change (Nat.iter 0 (Chat.fireChatTimer r) ?x) with x.
    change (Chat.chatEl (Chat.setTimeout ?f ?x)) with (Chat.chatEl x).
    apply Fresh.
Qed.

End ChatFacts.

(** A text of 25 code units at the speed 12.5: [Math.round(25 / 12.5)] is
    2, twelve timeouts type two code units each, and the last one is never
    shown. *)
Lemma message_stops_at_a_multiple_of_the_increment_witness :
  let text := seq 1 25 in
  let s' := Nat.iter 12 (Chat.fireChatTimer 0)
              (Chat.step [(Chat.Watson, text)] 0 0.05 Chat.initial) in
  Chat.increment text (12 + 0.05 * 10) = 2%nat
  /\ map (@Chat.textContent nat) (Chat.chatEl s') = [seq 1 24].
Proof.
  intros text s'. split; [vm_compute; reflexivity|].
  destruct (message_stops_at_a_multiple_of_the_increment nat
              [(Chat.Watson, text)] 0 Chat.Watson text 0.05 0 Chat.initial
              eq_refl eq_refl (Forall_nil _)) as (_ & E & _).
  subst s'. cbv zeta in E.
  change (Chat.increment text (12 + 0.05 * 10)) with 2%nat in E.
  change (List.length text / 2)%nat with 12%nat in E.
  rewrite E. reflexivity.
Defined.

(** ** The tone of the field-signal component *)

Section ToneFacts.

Import FieldSignal.

(** X16. [clamp(v, lo, hi)] keeps a number within [lo, hi] and leaves one
    that is within alone (up to the sign of a zero), but it is no guard
    against NaN: a NaN value comes out as NaN. *)
Theorem clamp_within_bounds (v lo hi : float) :
  (is_nan v = true -> is_nan (clamp v lo hi) = true)
  /\ (is_nan v = false -> (lo <=? hi) = true ->
        (lo <=? clamp v lo hi) = true /\ (clamp v lo hi <=? hi) = true)
  /\ ((lo <=? v) = true -> (v <=? hi) = true -> (clamp v lo hi =? v) = true).
Proof.
  unfold clamp. split; [|split].
  - intros N. rewrite (Math_max_nan lo v) by (rewrite N; apply orb_true_r).
    rewrite Math_min_nan; [reflexivity|].
    change (is_nan nan) with true. apply orb_true_r.
  - intros N L. destruct (leb_not_nan _ _ L) as [Nlo Nhi].
    pose proof (Math_max_not_nan lo v Nlo N) as Nm.
    split.
    + apply Math_min_glb; [exact L|now apply Math_max_lower].
    + now apply Math_min_le_l.
  - intros L U.
    destruct (leb_not_nan _ _ L) as [Nlo Nv].
    destruct (leb_not_nan _ _ U) as [_ Nhi].
    assert (M : (Math_max lo v =? v) = true).
    { destruct (Math_max_cases lo v Nlo Nv) as [[-> H]|[-> _]].
      - apply not_ltb_eqb; auto; now apply leb_not_ltb.
      - now apply eqb_refl. }
    pose proof (Math_max_not_nan lo v Nlo Nv) as Nm.
    destruct (Math_min_cases hi (Math_max lo v) Nhi Nm) as [[-> H]|[-> _]];
      [|exact M].
    apply not_ltb_eqb; auto.
    + now apply leb_not_ltb.
    + apply leb_not_ltb. apply (leb_trans _ (Math_max lo v)); [exact H|].
      now apply eqb_leb.
Qed.

(** X17. Both oscillators stay at or above 1 Hz for finite settings, so the
    exponential ramps of the live update get a positive target, and the
    second [Math.max(1, .)] of the live update changes nothing; a NaN
    setting, though, passes through both clamps. *)
Theorem oscillator_frequencies_at_least_one (baseHz beatHz : float) :
  (is_finite baseHz = true -> is_finite beatHz = true ->
     (1 <=? leftFreq baseHz beatHz) = true
     /\ (1 <=? rightFreq baseHz beatHz) = true
     /\ (0 <? leftTarget baseHz beatHz) = true
     /\ (0 <? rightTarget baseHz beatHz) = true)
  /\ leftTarget baseHz beatHz = leftFreq baseHz beatHz
  /\ rightTarget baseHz beatHz = rightFreq baseHz beatHz
  /\ (is_nan baseHz = true ->
        is_nan (leftFreq baseHz beatHz) = true
        /\ is_nan (rightFreq baseHz beatHz) = true).
Proof.
  assert (TL : leftTarget baseHz beatHz = leftFreq baseHz beatHz)
    by apply Math_max_idem.
  assert (TR : rightTarget baseHz beatHz = rightFreq baseHz beatHz)
    by apply Math_max_idem.
  split; [|split; [exact TL|split; [exact TR|]]].
  - intros Hb Ht. rewrite TL, TR.
    assert (Nh : is_nan (beatHz / 2) = false)
      by (apply div_finite_not_nan; auto).
    assert (L : (1 <=? leftFreq baseHz beatHz) = true).
    { apply Math_max_lower; [reflexivity|]. now apply sub_not_nan_l. }
    assert (R : (1 <=? rightFreq baseHz beatHz) = true).
    { apply Math_max_lower; [reflexivity|]. now apply add_not_nan_l. }
    split; [exact L|]. split; [exact R|].
    split; apply (ltb_leb_trans 0 1); auto.
  - intros N.
    assert (A : forall x, is_nan x = true -> is_nan (Math_max 1 x) = true).
    { intros x Hx. rewrite Math_max_nan; [reflexivity|].
      rewrite Hx. apply orb_true_r. }
    assert (S : forall y, is_nan (baseHz - y) = true
                          /\ is_nan (baseHz + y) = true).
    { intros y. apply is_nan_SF in N. split; apply is_nan_SF.
      - rewrite sub_spec, N. reflexivity.
      - rewrite add_spec, N. reflexivity. }
    destruct (S (beatHz / 2)) as [S1 S2].
    split; apply A; assumption.
Qed.

End ToneFacts.

(** The gain: 1.7 is brought into [0, 1], 0.35 is left alone. *)
Lemma clamp_within_bounds_witness :
  (0 <=? FieldSignal.clamp 1.7 0 1) = true
  /\ (FieldSignal.clamp 1.7 0 1 <=? 1) = true
  /\ (FieldSignal.clamp 0.35 0 1 =? 0.35) = true.
Proof.
  destruct (clamp_within_bounds 1.7 0 1) as (_ & B & _).
  destruct (clamp_within_bounds 0.35 0 1) as (_ & _ & I).
  destruct (B eq_refl eq_refl) as [B1 B2].
  split; [exact B1|]. split; [exact B2|]. apply I; reflexivity.
Defined.

(** The sliders at 20 Hz and 40 Hz: the left oscillator, which would be at
    0 Hz, is held at 1 Hz. *)
Lemma oscillator_frequencies_at_least_one_witness :
  (1 <=? FieldSignal.leftFreq 20 40) = true
  /\ (1 <=? FieldSignal.rightFreq 20 40) = true
  /\ FieldSignal.leftFreq 20 40 = 1.
Proof.
  destruct (oscillator_frequencies_at_least_one 20 40) as (B & _).
  destruct (B eq_refl eq_refl) as (L & R & _).
  split; [exact L|]. split; [exact R|reflexivity].
Defined.

(** ** The oscilloscope of the field-signal component *)

Section WaveFacts.

Import FieldSignal.

(** The point a path call goes to. *)
Definition target (c : path_cmd) : float * float :=
  match c with
  | MoveTo px py | LineTo px py => (px, py)
  end.

Definition isLineTo (c : path_cmd) : bool :=
  match c with
  | MoveTo _ _ => false
  | LineTo _ _ => true
  end.

(** The point lies on the canvas of the component. *)
Definition onCanvas (pt : float * float) : bool :=
  (0 <=? fst pt) && (fst pt <? scopeWidth)
  && (0 <=? snd pt) && (snd pt <? scopeHeight).

(** The abscissas of [n] samples from [x] on. *)
Fixpoint abscissas (sliceWidth x : float) (n : nat) : list float :=
  match n with
  | O => []
  | S n' => x :: abscissas sliceWidth (x + sliceWidth) n'
  end.

Lemma wave_ordinate (b : Byte.byte) :
  let y := (byteToNumber b / 128.0 * scopeHeight) / 2 in
  ((0 <=? y) && (y <? scopeHeight) = true)
  /\ (b = Byte.x80 -> y = 100).
Proof.
  destruct b; (split; [vm_compute; reflexivity|]);
    intros E; try discriminate E; vm_compute; reflexivity.
Qed.

Lemma waveLoop_shape (sliceWidth x : float) (i : nat)
  (data : list Byte.byte) :
  List.length (waveLoop scopeHeight sliceWidth x i data) = List.length data
  /\ map (fun c => fst (target c)) (waveLoop scopeHeight sliceWidth x i data)
     = abscissas sliceWidth x (List.length data)
  /\ Forall (fun c => (0 <=? snd (target c))
                      && (snd (target c) <? scopeHeight) = true)
       (waveLoop scopeHeight sliceWidth x i data)
  /\ (Forall (fun b => b = Byte.x80) data ->
      Forall (fun c => snd (target c) = 100)
        (waveLoop scopeHeight sliceWidth x i data))
  /\ (i <> 0%nat ->
      forallb isLineTo (waveLoop scopeHeight sliceWidth x i data) = true).
Proof.
  revert x i. induction data as [|b data IH]; intros x i.
  - simpl. repeat split; auto.
  - destruct (IH (x + sliceWidth) (S i)) as (IH1 & IH2 & IH3 & IH4 & IH5).
    destruct (wave_ordinate b) as [Y1 Y2].
    cbn [waveLoop List.length map abscissas].
    split; [now rewrite IH1|]. split; [|split; [|split]].
    + rewrite IH2. f_equal. now destruct (Nat.eqb i 0).
    + constructor; [|exact IH3]. now destruct (Nat.eqb i 0).
    + intros F. inversion F as [|? ? Fb Fd]; subst.
      constructor; [|now apply IH4].
      destruct (Nat.eqb i 0); now apply Y2.
    + intros Hi. apply Nat.eqb_neq in Hi. rewrite Hi. simpl.
      now apply IH5.
Qed.

(** X18. The wave of the oscilloscope never leaves its canvas: for the 1024
    byte samples of the analyser, whatever their values, [draw] issues one
    [moveTo] at the left edge followed by 1023 [lineTo], all to points
    inside the 600 by 200 canvas; silence (every sample 128) is a flat line
    at mid-height. *)
Theorem wave_stays_on_the_canvas (dataArray : list Byte.byte) :
  List.length dataArray = frequencyBinCount ->
  let cmds := wave scopeWidth scopeHeight dataArray in
  List.length cmds = frequencyBinCount
  /\ (exists y rest, cmds = MoveTo 0 y :: rest
                     /\ forallb isLineTo rest = true)
  /\ Forall (fun c => onCanvas (target c) = true) cmds
  /\ (Forall (fun b => b = Byte.x80) dataArray ->
      Forall (fun c => snd (target c) = 100) cmds).
Proof.
  intros L cmds. subst cmds. unfold wave. rewrite L.
  set (sw := scopeWidth / whole frequencyBinCount).
  destruct (waveLoop_shape sw 0 0 dataArray) as (H1 & H2 & H3 & H4 & _).
  split; [now rewrite H1|]. split; [|split; [|exact H4]].
  - destruct dataArray as [|b rest]; [discriminate L|].
    cbn [waveLoop Nat.eqb]. eexists _, _. split; [reflexivity|].
    now apply (waveLoop_shape sw (0 + sw) 1 rest).
  - rewrite L in H2.
    assert (X : forallb (fun v => (0 <=? v) && (v <? scopeWidth))
                  (abscissas sw 0 frequencyBinCount) = true)
      by (vm_compute; reflexivity).
    rewrite <- H2 in X. rewrite forallb_forall in X.
    rewrite Forall_forall in H3 |- *. intros c Hc.
    specialize (H3 c Hc). simpl in H3.
    specialize (X (fst (target c)) (in_map _ _ _ Hc)).
    unfold onCanvas. apply andb_true_iff in X, H3.
    destruct X as [X1 X2], H3 as [Y1 Y2].
    now rewrite X1, X2, Y1, Y2.
Qed.

End WaveFacts.

(** Silence. *)
Lemma wave_stays_on_the_canvas_witness :
  let silence := repeat Byte.x80 FieldSignal.frequencyBinCount in
  Forall (fun c => snd (target c) = 100)
    (FieldSignal.wave FieldSignal.scopeWidth FieldSignal.scopeHeight silence).
Proof.
  intros silence.
  destruct (wave_stays_on_the_canvas silence (repeat_length _ _))
    as (_ & _ & _ & F).
  apply F. apply Forall_forall. intros b Hb.
  now apply repeat_spec in Hb.
Defined.

(** ** The scope loop of the field-signal component *)

Section ScopeLoopFacts.

Import FieldSignal.

(** The loop is alive exactly while the tone is on: then the browser holds
    one [draw] callback, under the handle in [rafRef]. *)
Definition loopInvariant (s : scopeLoop) : Prop :=
  if isOn s
  then exists h, frames s = [h] /\ FieldSignal.rafRef s = Some h
  else frames s = [].

Lemma teardown_invariant (s : scopeLoop) :
  loopInvariant s -> frames (teardown s) = [].
Proof.
  unfold loopInvariant, teardown. cbn [frames].
  destruct (isOn s).
  - intros (h & -> & ->). simpl. now rewrite Nat.eqb_refl.
  - intros ->. now destruct (FieldSignal.rafRef s).
Qed.

Lemma onToggle_invariant (s : scopeLoop) :
  loopInvariant s ->
  loopInvariant (onToggle s) /\ isOn (onToggle s) = negb (isOn s).
Proof.
  intros I. pose proof (teardown_invariant s I) as T.
  unfold loopInvariant in I. unfold onToggle, loopInvariant.
  destruct (isOn s) eqn:O; unfold audioEffect; cbn [isOn negb].
  - unfold teardown at 1 2. cbn [isOn frames FieldSignal.rafRef].
    now rewrite T.
  - unfold drawOscilloscope, draw. cbn [isOn frames FieldSignal.rafRef].
    rewrite I. simpl. eauto.
Qed.

Lemma scopeFrame_invariant (s : scopeLoop) :
  loopInvariant s ->
  loopInvariant (scopeFrame s) /\ isOn (scopeFrame s) = isOn s.
Proof.
  unfold loopInvariant, scopeFrame.
  destruct (isOn s) eqn:O.
  - intros (h & -> & R). simpl. eauto.
  - intros ->. simpl. auto.
Qed.

(** X19. The oscilloscope of the field-signal component keeps to one
    frame callback: after any sequence of Start/Stop presses, timed stops
    and animation frames the browser holds exactly one [draw] callback
    while the tone is on, the one [rafRef] names, and none while it is
    off. *)
Theorem scope_loop_holds_one_frame_while_on (es : list scopeEvent) :
  let s := fold_left scopeStep es mounted in
  (isOn s = true ->
     exists h, frames s = [h] /\ FieldSignal.rafRef s = Some h)
  /\ (isOn s = false -> frames s = [])
  /\ (List.length (frames s) <= 1)%nat.
Proof.
  assert (Step : forall e s, loopInvariant s -> loopInvariant (scopeStep s e)).
  { intros [| |] s I; simpl.
    - now apply onToggle_invariant.
    - unfold onTimedStop. destruct (isOn s) eqn:O; [|exact I].
      now apply onToggle_invariant.
    - now apply scopeFrame_invariant. }
  assert (Init : loopInvariant mounted) by reflexivity.
  intros s. subst s. revert Init. generalize mounted.
  induction es as [|e es IH]; intros s I; simpl.
  - unfold loopInvariant in I. destruct (isOn s).
    + destruct I as (h & F & R). rewrite F. simpl.
      split; [eauto|]. split; [discriminate|lia].
    + rewrite I. simpl. split; [discriminate|]. split; [reflexivity|lia].
  - apply IH. now apply Step.
Qed.

End ScopeLoopFacts.

(** ** The timed stop of the field-signal component *)

Section SessionFacts.

Import FieldSignal.

(** The interval callbacks [fires], each with its interval and its time,
    run in order. *)
Definition runIntervals (fires : list (nat * float)) (s : session) : session :=
  fold_left (fun acc f => intervalFires (fst f) (snd f) acc) fires s.

(** X20. A session is never cut short: whatever intervals earlier sessions
    left behind, after Start at [now] with a [duration] above zero no
    interval callback that runs before [now + duration * 1000] ends the
    session, and with a [duration] of zero none ever does; a callback of a
    live interval at or after that time does end it. *)
Theorem session_never_ends_early (now duration : float) (s : session)
  (fires : list (nat * float)) :
  on s = false ->
  let s1 := onStartStop now duration s in
  ((0 <? duration) = true ->
     Forall (fun f => (snd f <? now + duration * 1000) = true) fires ->
     on (runIntervals fires s1) = true)
  /\ ((0 <? duration) = false -> on (runIntervals fires s1) = true)
  /\ ((0 <? duration) = true ->
      forall late, (now + duration * 1000 <=? late) = true ->
                   truthy (now + duration * 1000) = true ->
                   on (intervalFires (nextInterval s) late s1) = false).
Proof.
  intros Off s1. subst s1. unfold onStartStop, startSession. rewrite Off.
  split; [|split].
  - intros D F. rewrite D.
    set (s1 := {| on := true; stopAtRef := Some (now + duration * 1000);
                  intervals := intervals s ++ [nextInterval s];
                  nextInterval := S (nextInterval s) |}).
    assert (G : forall acc,
               on acc = true ->
               stopAtRef acc = Some (now + duration * 1000) ->
               on (runIntervals fires acc) = true).
    { induction F as [|f fires Hf _ IH]; intros acc A B; [exact A|].
      unfold runIntervals in *. simpl.
      assert (E : intervalFires (fst f) (snd f) acc = acc).
      { unfold intervalFires. rewrite B, (ltb_leb_flip _ _ Hf).
        rewrite andb_false_r. now destruct (existsb _ _). }
      rewrite E. now apply IH. }
    apply G; reflexivity.
  - intros D. rewrite D.
    set (s1 := {| on := true; stopAtRef := None; intervals := intervals s;
                  nextInterval := nextInterval s |}).
    assert (G : forall acc, on acc = true -> stopAtRef acc = None ->
                            on (runIntervals fires acc) = true).
    { induction fires as [|f fires IH]; intros acc A B; [exact A|].
      unfold runIntervals in *. simpl.
      assert (E : intervalFires (fst f) (snd f) acc = acc).
      { unfold intervalFires. rewrite B. now destruct (existsb _ _). }
      rewrite E. now apply IH. }
    apply G; reflexivity.
  - intros D late L T. rewrite D. unfold intervalFires.
    cbn [intervals stopAtRef]. rewrite existsb_app. simpl.
    rewrite Nat.eqb_refl, orb_true_r, T, L. reflexivity.
Qed.

End SessionFacts.

(** Ten seconds asked for at time 5000 while the interval 1 of an earlier
    session is still around: its callbacks at 6000 and 14000 leave the
    session on. *)
Lemma session_never_ends_early_witness :
  let s := {| FieldSignal.on := false; FieldSignal.stopAtRef := Some 3000;
              FieldSignal.intervals := [1%nat];
              FieldSignal.nextInterval := 2 |} in
  FieldSignal.on
    (runIntervals [(1%nat, 6000); (2%nat, 14000)]
       (FieldSignal.onStartStop 5000 10 s)) = true.
Proof.
  intros s.
  destruct (session_never_ends_early 5000 10 s
              [(1%nat, 6000); (2%nat, 14000)] eq_refl) as (H & _).
  apply H; [reflexivity|]. repeat constructor.
Defined.

(** ** Recall of the saved settings *)

Section RecallFacts.

Import FieldSignal.

Variable browser : Type.
Variable exn : Type.
Variable setItem : string -> string -> browser -> completion exn unit * browser.
Variable getItem : string -> browser -> completion exn (option string) * browser.
Variable NumberToString : float -> string.
Variable StringToNumber : string -> float.

(** The storage works as a store: an item that was set is what reading its
    key returns, and setting one key, or failing to, leaves the other keys
    as they were. *)
Hypothesis read_own_write : forall k v b,
  fst (setItem k v b) = Returns tt ->
  fst (getItem k (snd (setItem k v b))) = Returns (Some v).
Hypothesis write_keeps_others : forall k k' v b,
  k <> k' ->
  fst (getItem k' (snd (setItem k v b))) = fst (getItem k' b).

Let save := save browser exn setItem NumberToString.
Let loadNum := loadNum browser exn getItem StringToNumber.
Let loadStr := loadStr browser exn getItem.

Lemma save_state (key : string) (val : value) (b : browser) :
  snd (save key val b)
  = snd (setItem (storageKey key) (String_of NumberToString val) b).
Proof.
  unfold save, FieldSignal.save, tryCatchIgnore.
  now destruct (setItem _ _ b) as [[u|e] b'].
Qed.

Lemma loadStr_value (key fallback : string) (b : browser) :
  fst (loadStr key fallback b)
  = Returns (match fst (getItem (storageKey key) b) with
             | Returns (Some s) => s
             | _ => fallback
             end).
Proof.
  unfold loadStr, FieldSignal.loadStr.
  now destruct (getItem _ b) as [[[s|]|e] b'].
Qed.

Lemma loadNum_value (key : string) (fallback : float) (b : browser) :
  fst (loadNum key fallback b)
  = Returns (match fst (getItem (storageKey key) b) with
             | Returns (Some s) => StringToNumber s
             | _ => fallback
             end).
Proof.
  unfold loadNum, FieldSignal.loadNum.
  now destruct (getItem _ b) as [[[s|]|e] b'].
Qed.

Lemma storageKey_injective (k k' : string) :
  storageKey k = storageKey k' -> k = k'.
Proof. unfold storageKey. simpl. intros H. now injection H. Qed.

(** X21. A setting that was saved is the one recalled: when the write goes
    through, [loadStr] returns the saved string, not the fallback, and
    [loadNum] returns [Number(String(n))] for a saved number [n], which is
    [n] itself whenever the number survives its decimal form. *)
Theorem saved_setting_is_recalled (key : string) (val : value) (b : browser)
  (fallbackStr : string) (fallbackNum : float) :
  fst (setItem (storageKey key) (String_of NumberToString val) b)
  = Returns tt ->
  let b' := snd (save key val b) in
  fst (loadStr key fallbackStr b') = Returns (String_of NumberToString val)
  /\ fst (loadNum key fallbackNum b')
     = Returns (StringToNumber (String_of NumberToString val))
  /\ forall n, val = Num n -> StringToNumber (NumberToString n) = n ->
               fst (loadNum key fallbackNum b') = Returns n.
Proof.
  intros W b'. subst b'.
  assert (G : fst (getItem (storageKey key) (snd (save key val b)))
              = Returns (Some (String_of NumberToString val))).
  { rewrite save_state. now apply read_own_write. }
  assert (N : fst (loadNum key fallbackNum (snd (save key val b)))
              = Returns (StringToNumber (String_of NumberToString val))).
  { now rewrite loadNum_value, G. }
  split; [now rewrite loadStr_value, G|]. split; [exact N|].
  intros n -> R. rewrite N. simpl. now rewrite R.
Qed.

(** X22. Saving one setting never disturbs another: after [save] under one
    key, whether the write went through or threw, loading any other key
    returns what it returned before. *)
Theorem save_leaves_other_settings (key other : string) (val : value)
  (b : browser) (fallbackStr : string) (fallbackNum : float) :
  key <> other ->
  let b' := snd (save key val b) in
  fst (loadStr other fallbackStr b') = fst (loadStr other fallbackStr b)
  /\ fst (loadNum other fallbackNum b') = fst (loadNum other fallbackNum b).
Proof.
  intros D b'. subst b'.
  assert (G : fst (getItem (storageKey other) (snd (save key val b)))
              = fst (getItem (storageKey other) b)).
  { rewrite save_state. apply write_keeps_others.
    intros E. apply D. now apply storageKey_injective. }
  rewrite !loadStr_value, !loadNum_value, G. auto.
Qed.

End RecallFacts.

(** The association list is such a store. *)
Lemma memory_read_own_write (E : Type) (k v : string) (b : FieldSignal.memory) :
  fst (FieldSignal.memorySetItem E k v b) = FieldSignal.Returns tt ->
  fst (FieldSignal.memoryGetItem E k (snd (FieldSignal.memorySetItem E k v b)))
  = FieldSignal.Returns (Some v).
Proof. intros _. simpl. now rewrite String.eqb_refl. Qed.

Lemma memory_write_keeps_others (E : Type) (k k' v : string)
  (b : FieldSignal.memory) :
  k <> k' ->
  fst (FieldSignal.memoryGetItem E k' (snd (FieldSignal.memorySetItem E k v b)))
  = fst (FieldSignal.memoryGetItem E k' b).
Proof.
  intros D. simpl. apply String.eqb_neq in D. now rewrite D.
Qed.

(** The waveform saved and read back. *)
Lemma saved_setting_is_recalled_witness :
  fst (FieldSignal.loadStr FieldSignal.memory Empty_set
         (FieldSignal.memoryGetItem Empty_set) "wave" "sine"
         (snd (FieldSignal.save FieldSignal.memory Empty_set
                 (FieldSignal.memorySetItem Empty_set) (fun _ => "174"%string)
                 "wave" (FieldSignal.Str "triangle") [])))
  = FieldSignal.Returns "triangle"%string.
Proof.
  destruct (saved_setting_is_recalled FieldSignal.memory Empty_set
              (FieldSignal.memorySetItem Empty_set)
              (FieldSignal.memoryGetItem Empty_set)
              (fun _ => "174"%string) (fun _ => 174)
              (memory_read_own_write Empty_set)
              "wave" (FieldSignal.Str "triangle") [] "sine" 0 eq_refl)
    as (H & _).
  exact H.
Defined.

(** Saving the preset leaves the stored waveform alone. *)
Lemma save_leaves_other_settings_witness :
  let b := [("fieldsig_wave", "square")]%string in
  fst (FieldSignal.loadStr FieldSignal.memory Empty_set
         (FieldSignal.memoryGetItem Empty_set) "wave" "sine"
         (snd (FieldSignal.save FieldSignal.memory Empty_set
                 (FieldSignal.memorySetItem Empty_set) (fun _ => "174"%string)
                 "preset" (FieldSignal.Str "Sleep Aid") b)))
  = FieldSignal.Returns "square"%string.
Proof.
  intros b.
  destruct (save_leaves_other_settings FieldSignal.memory Empty_set
              (FieldSignal.memorySetItem Empty_set)
              (FieldSignal.memoryGetItem Empty_set)
              (fun _ => "174"%string) (fun _ => 174)
              (memory_write_keeps_others Empty_set)
              "preset" "wave" (FieldSignal.Str "Sleep Aid") b "sine" 0)
    as (H & _).
  - discriminate.
  - rewrite H. reflexivity.
Defined.
